(** * OkQueuePd: a shallow embedding of the matchmaking simulator core

    The Rust crate (src/types.rs, src/matchmaker.rs, src/simulation.rs,
    src/lib.rs) is embedded as follows.

    - [f64] quantities of the matchmaker (percentiles, wait times, pings,
      weights) are rationals [Q]; the haversine distance, which needs
      [sin] and [asin], is embedded over the reals [R] in module [Distance].
    - [HashMap<usize, _>] tables of the simulation are stdpp [gmap nat _].
    - [HashMap] keyed by a small enum ([Playlist], [Platform], ...) is an
      association list with unique keys; [get] is [alist_get], [get_mut]
      is [alist_modify] (it does nothing when the key is absent).
    - [HashSet<usize>] is a duplicate-free list.  Where Rust iterates a
      hashed container and the order matters (DC choice, primary region,
      party grouping), the iteration order is an explicit parameter
      [HashOrder]: std's [RandomState] makes it independent of the
      program's inputs. *)

From Stdlib Require Import QArith Qminmax Qabs Qround Lqa List Permutation Lia.
From Stdlib Require Import Reals Qreals Lra.
From stdpp Require Import base gmap list.
From Stdlib Require Import Sorted.

Set Implicit Arguments.
Open Scope Q_scope.

(** ** Generic helpers *)

(** [HashMap::get] on a map stored as an association list. *)
Fixpoint alist_get {K V} `{EqDecision K} (k : K) (l : list (K * V)) : option V :=
  match l with
  | [] => None
  | (k', v) :: l' => if decide (k = k') then Some v else alist_get k l'
  end.

(** [m.get_mut(&k)] followed by an update of the found value: absent keys
    are left alone (no insertion). *)
Fixpoint alist_modify {K V} `{EqDecision K} (k : K) (f : V -> V)
    (l : list (K * V)) : list (K * V) :=
  match l with
  | [] => []
  | (k', v) :: l' =>
      if decide (k = k') then (k', f v) :: l' else (k', v) :: alist_modify k f l'
  end.

(** [m.entry(k).or_insert(0)] incremented by one. *)
Fixpoint alist_incr {K} `{EqDecision K} (k : K) (l : list (K * nat)) : list (K * nat) :=
  match l with
  | [] => [(k, 1%nat)]
  | (k', v) :: l' =>
      if decide (k = k') then (k', S v) :: l' else (k', v) :: alist_incr k l'
  end.

Definition memb {A} `{EqDecision A} (x : A) (l : list A) : bool :=
  existsb (fun y => bool_decide (x = y)) l.

(** [a.intersection(b).copied().collect()], listed in the order of [a]. *)
Definition list_inter (a b : list nat) : list nat :=
  List.filter (fun x => memb x b) a.

(** A stable insertion sort: [lt x y] says [x] must come before [y]
    ([Ordering::Less]); equal elements keep their order, as in Rust's
    stable [sort_by]. *)
Fixpoint insert_stable {A} (lt : A -> A -> bool) (x : A) (l : list A) : list A :=
  match l with
  | [] => [x]
  | y :: l' => if lt x y then x :: l else y :: insert_stable lt x l'
  end.

Definition sort_stable {A} (lt : A -> A -> bool) (l : list A) : list A :=
  fold_left (fun acc x => insert_stable lt x acc) l [].

Definition Qltb (x y : Q) : bool := negb (Qle_bool y x).

(** [f64::MAX], exactly: (2^53 - 1) * 2^971. *)
Definition f64_MAX : Q := inject_Z ((2 ^ 53 - 1) * 2 ^ 971)%Z.
Definition f64_MIN : Q := - f64_MAX.

Definition sumQ (l : list Q) : Q := fold_left Qplus l 0.
Definition sum_nat (l : list nat) : nat := fold_left Nat.add l 0%nat.

(** [vec[i].push(x)]; out of range does nothing (Rust would panic; the
    callers keep the index in range). *)
Fixpoint push_nth {A} (i : nat) (x : A) (l : list (list A)) : list (list A) :=
  match l, i with
  | [], _ => []
  | t :: l', O => (t ++ [x]) :: l'
  | t :: l', S i' => t :: push_nth i' x l'
  end.

(** ** Enumerations (types.rs) *)

Inductive Region := NorthAmerica | Europe | AsiaPacific | SouthAmerica | Other.
Inductive Platform := PC | PlayStation | Xbox.
Inductive InputDevice := Controller | MouseKeyboard.
Inductive PlayerState := Offline | InLobby | Searching | InMatch.
Inductive Playlist :=
  TeamDeathmatch | SearchAndDestroy | Domination | GroundWar | FreeForAll.

#[global] Instance Region_eq_dec : EqDecision Region.
Proof. solve_decision. Defined.
#[global] Instance Platform_eq_dec : EqDecision Platform.
Proof. solve_decision. Defined.
#[global] Instance InputDevice_eq_dec : EqDecision InputDevice.
Proof. solve_decision. Defined.
#[global] Instance PlayerState_eq_dec : EqDecision PlayerState.
Proof. solve_decision. Defined.
#[global] Instance Playlist_eq_dec : EqDecision Playlist.
Proof. solve_decision. Defined.

Definition adjacent_regions (r : Region) : list Region :=
  match r with
  | NorthAmerica => [Europe; SouthAmerica]
  | Europe => [NorthAmerica; AsiaPacific]
  | AsiaPacific => [Europe; SouthAmerica]
  | SouthAmerica => [NorthAmerica; AsiaPacific]
  | Other => [NorthAmerica; Europe; AsiaPacific; SouthAmerica]
  end.

Definition required_players (p : Playlist) : nat :=
  match p with
  | TeamDeathmatch => 12 | SearchAndDestroy => 12 | Domination => 12
  | GroundWar => 64 | FreeForAll => 12
  end.

Definition team_count (p : Playlist) : nat :=
  match p with
  | FreeForAll => 12
  | GroundWar => 2
  | _ => 2
  end.

Definition all_playlists : list Playlist :=
  [TeamDeathmatch; SearchAndDestroy; Domination; GroundWar; FreeForAll].

(** ** Records (types.rs)

    Fields that none of the embedded operations reads or writes (names,
    voice chat, kill/death counters, diagnostics) are left out. *)

Record Location := { lat : Q; lon : Q }.

Record ExperienceVector := {
  ev_avg_delta_ping : Q;
  ev_avg_search_time : Q;
  was_blowout : bool;
  won : bool;
  performance : Q;
}.

Record RegionConfig := {
  rc_max_ping : option Q;
  rc_delta_ping_initial : option Q;
  rc_delta_ping_rate : option Q;
  rc_skill_similarity_initial : option Q;
  rc_skill_similarity_rate : option Q;
}.

Record MatchmakingConfig := {
  max_ping : Q;
  delta_ping_initial : Q;
  delta_ping_rate : Q;
  delta_ping_max : Q;
  skill_similarity_initial : Q;
  skill_similarity_rate : Q;
  skill_similarity_max : Q;
  max_skill_disparity_initial : Q;
  max_skill_disparity_rate : Q;
  max_skill_disparity_max : Q;
  weight_geo : Q;
  weight_skill : Q;
  weight_input : Q;
  weight_platform : Q;
  quality_weight_ping : Q;
  quality_weight_skill_balance : Q;
  quality_weight_wait_time : Q;
  tick_interval : Q;
  num_skill_buckets : nat;
  top_k_candidates : nat;
  use_exact_team_balancing : bool;
  region_configs : list (Region * RegionConfig);
  experience_window_size : nat;   (** [retention_config.experience_window_size] *)
}.

(** [MatchmakingConfig::default()], on the fields kept. *)
Definition default_config : MatchmakingConfig := {|
  max_ping := 200; delta_ping_initial := 10; delta_ping_rate := 2;
  delta_ping_max := 100;
  skill_similarity_initial := 5 # 100; skill_similarity_rate := 1 # 100;
  skill_similarity_max := 1 # 2;
  max_skill_disparity_initial := 1 # 10; max_skill_disparity_rate := 2 # 100;
  max_skill_disparity_max := 8 # 10;
  weight_geo := 3 # 10; weight_skill := 4 # 10; weight_input := 15 # 100;
  weight_platform := 15 # 100;
  quality_weight_ping := 4 # 10; quality_weight_skill_balance := 4 # 10;
  quality_weight_wait_time := 2 # 10;
  tick_interval := 5; num_skill_buckets := 10; top_k_candidates := 50;
  use_exact_team_balancing := true; region_configs := [];
  experience_window_size := 5;
|}.

Record Player := {
  p_id : nat;
  p_location : Location;
  region : Region;
  platform : Platform;
  input_device : InputDevice;
  skill : Q;
  skill_percentile : Q;
  skill_bucket : nat;
  state : PlayerState;
  current_match : option nat;
  party_id : option nat;
  preferred_playlists : list Playlist;
  dc_pings : list (nat * Q);          (** HashMap<usize, f64>, unique keys *)
  best_ping : Q;
  p_search_start_time : option nat;
  matches_played : nat;
  wins : nat;
  losses : nat;
  recent_delta_pings : list Q;
  recent_search_times : list Q;
  recent_blowouts : list bool;
  recent_experience : list ExperienceVector;
  session_start_time : option nat;
  matches_in_session : nat;
  last_session_experience : list ExperienceVector;
  last_session_end_time : option nat;
}.

Record Party := {
  pt_id : nat;
  pt_player_ids : list nat;
  leader_id : nat;
  avg_skill : Q;
  pt_skill_disparity : Q;
  pt_avg_skill_percentile : Q;
  skill_percentile_disparity : Q;
  pt_preferred_playlists : list Playlist;
  pt_platforms : list (Platform * nat);
  pt_input_devices : list (InputDevice * nat);
  pt_avg_location : Location;
}.

Record SearchObject := {
  so_id : nat;
  player_ids : list nat;
  avg_skill_percentile : Q;
  skill_disparity : Q;
  avg_location : Location;
  platforms : list (Platform * nat);
  input_devices : list (InputDevice * nat);
  acceptable_playlists : list Playlist;
  search_start_time : nat;
  acceptable_dcs : list nat;          (** HashSet<usize>, no duplicates *)
}.

Record DataCenter := {
  dc_id : nat;
  dc_location : Location;
  dc_region : Region;
  server_capacity : list (Playlist * nat);
  busy_servers : list (Playlist * nat);
}.

Record MatchResult := {
  mr_player_ids : list nat;
  teams : list (list nat);
  mr_playlist : Playlist;
  data_center_id : nat;
  quality_score : Q;
  mr_skill_disparity : Q;
  avg_delta_ping : Q;
  search_times : list Q;
  is_cross_region : bool;
}.

(** Iteration orders of hashed containers.  Each maps the contents, listed
    in insertion order, to the order in which Rust's iterator yields them;
    it is a permutation ([hash_order_ok]). *)
Record HashOrder := {
  set_iter : list nat -> list nat;
  region_iter : list (Region * nat) -> list (Region * nat);
  group_iter : list (option nat * list nat) -> list (option nat * list nat);
}.

Definition hash_order_ok (ho : HashOrder) : Prop :=
  (forall l, Permutation (set_iter ho l) l) /\
  (forall l, Permutation (region_iter ho l) l) /\
  (forall l, Permutation (group_iter ho l) l).

Definition insertion_order : HashOrder :=
  {| set_iter := fun l => l; region_iter := fun l => l; group_iter := fun l => l |}.

(** ** Operations of types.rs *)

Definition size (s : SearchObject) : nat := length (player_ids s).

(** [SearchObject::wait_time]: [(current_time - search_start_time) as f64 *
    tick_interval]; searches are created at the current tick, so the [u64]
    subtraction never underflows and [nat] subtraction agrees with it. *)
Definition wait_time (s : SearchObject) (current_time : nat) (tick : Q) : Q :=
  inject_Z (Z.of_nat (current_time - search_start_time s)) * tick.

Definition available_servers (dc : DataCenter) (p : Playlist) : nat :=
  let capacity := default 0%nat (alist_get p (server_capacity dc)) in
  let busy := default 0%nat (alist_get p (busy_servers dc)) in
  capacity - busy.

Definition skill_similarity_backoff (c : MatchmakingConfig) (w : Q) : Q :=
  Qmin (skill_similarity_initial c + skill_similarity_rate c * w) (skill_similarity_max c).

Definition skill_disparity_backoff (c : MatchmakingConfig) (w : Q) : Q :=
  Qmin (max_skill_disparity_initial c + max_skill_disparity_rate c * w)
       (max_skill_disparity_max c).

Definition get_region_max_ping (c : MatchmakingConfig) (r : Region) : Q :=
  default (max_ping c) (alist_get r (region_configs c) ≫= rc_max_ping).

Definition get_region_delta_ping_initial (c : MatchmakingConfig) (r : Region) : Q :=
  default (delta_ping_initial c) (alist_get r (region_configs c) ≫= rc_delta_ping_initial).

Definition get_region_delta_ping_rate (c : MatchmakingConfig) (r : Region) : Q :=
  default (delta_ping_rate c) (alist_get r (region_configs c) ≫= rc_delta_ping_rate).

Definition region_delta_ping_backoff (c : MatchmakingConfig) (r : Region) (w : Q) : Q :=
  Qmin (get_region_delta_ping_initial c r + get_region_delta_ping_rate c r * w)
       (delta_ping_max c).

Definition find_dc (dcs : list DataCenter) (id : nat) : option DataCenter :=
  find (fun dc => Nat.eqb (dc_id dc) id) dcs.

(** The three-tier region policy of [Player::acceptable_dcs]. *)
Definition acceptable_regions (w : Q) (player_region : Region) : list Region :=
  if Qltb w 10 then [player_region]
  else if Qltb w 30 then player_region :: adjacent_regions player_region
  else [NorthAmerica; Europe; AsiaPacific; SouthAmerica; Other].

(** [Player::acceptable_dcs]: the DC ids of [dc_pings] (in its iteration
    order) passing the ping and region filters. *)
Definition player_acceptable_dcs (p : Player) (w : Q) (c : MatchmakingConfig)
    (player_region : Region) (dcs : list DataCenter) : list nat :=
  let delta_ping_allowed := region_delta_ping_backoff c player_region w in
  let mp := get_region_max_ping c player_region in
  let regions := acceptable_regions w player_region in
  map fst (List.filter (fun '(id, ping) =>
      (Qle_bool ping (best_ping p + delta_ping_allowed) && Qle_bool ping mp) &&
      match find_dc dcs id with
      | Some dc => memb (dc_region dc) regions
      | None => false
      end) (dc_pings p)).

(** ** The matchmaker (matchmaker.rs) *)

Record FeasibilityResult := {
  fr_data_center_id : nat;
  fr_skill_disparity : Q;
}.

(** [Iterator::max_by_key]: the last of several maximal elements wins. *)
Definition max_by_key_last {A} (key : A -> nat) (l : list A) : option A :=
  fold_left (fun best x =>
    match best with
    | None => Some x
    | Some b => if Nat.leb (key b) (key x) then Some x else Some b
    end) l None.

(** [region_counts]: player regions of the lobby, counted in a
    [HashMap<Region, usize>] (insertion order). *)
Definition region_counts (players : gmap nat Player) (searches : list SearchObject)
    : list (Region * nat) :=
  fold_left (fun rc s =>
    fold_left (fun rc pid =>
      match players !! pid with
      | Some p => alist_incr (region p) rc
      | None => rc
      end) (player_ids s) rc) searches [].

(** Step 5: the fold over the members' [acceptable_dcs], intersecting. *)
Definition common_dcs (searches : list SearchObject) : list nat :=
  default [] (fold_left (fun acc s =>
    Some (match acc with
          | None => acceptable_dcs s
          | Some common => list_inter common (acceptable_dcs s)
          end)) searches None).

(** Step 6: split the common DCs, in hash-set iteration order, into the
    primary-region, adjacent-region and other tiers. *)
Definition prioritize_dcs (dcs : list DataCenter) (primary : Region)
    (ordered : list nat) : list nat :=
  let '(prio, adj, oth) :=
    fold_left (fun '(p, a, o) id =>
      match find_dc dcs id with
      | Some dc =>
          if decide (dc_region dc = primary) then (p ++ [id], a, o)
          else if memb (dc_region dc) (adjacent_regions primary) then (p, a ++ [id], o)
          else (p, a, o ++ [id])
      | None => (p, a, o)
      end) ordered ([], [], []) in
  prio ++ adj ++ oth.

Definition dc_has_server (dcs : list DataCenter) (playlist : Playlist) (id : nat) : bool :=
  match find_dc dcs id with
  | Some dc => Nat.ltb 0 (available_servers dc playlist)
  | None => false
  end.

(** [Matchmaker::check_feasibility]. *)
Definition check_feasibility (ho : HashOrder) (c : MatchmakingConfig)
    (searches : list SearchObject) (playlist : Playlist) (current_time : nat)
    (data_centers : list DataCenter) (players : gmap nat Player)
    : option FeasibilityResult :=
  (* 1. playlist compatibility *)
  if negb (forallb (fun s => memb playlist (acceptable_playlists s)) searches) then None else
  (* 2. total size *)
  let total_size := sum_nat (map size searches) in
  if Nat.ltb (required_players playlist) total_size then None else
  (* 3. skill containment *)
  let pi_min := fold_left Qmin (map avg_skill_percentile searches) f64_MAX in
  let pi_max := fold_left Qmax (map avg_skill_percentile searches) f64_MIN in
  if negb (forallb (fun s =>
        let f_skill := skill_similarity_backoff c (wait_time s current_time (tick_interval c)) in
        let ell_j := avg_skill_percentile s - f_skill in
        let u_j := avg_skill_percentile s + f_skill in
        negb (Qltb pi_min ell_j || Qltb u_j pi_max)) searches) then None else
  (* 4. skill disparity *)
  let delta_pi_m := pi_max - pi_min in
  let max_disparity_allowed :=
    fold_left Qmin (map (fun s =>
      skill_disparity_backoff c (wait_time s current_time (tick_interval c))) searches) f64_MAX in
  if Qltb max_disparity_allowed delta_pi_m then None else
  (* 5. common data centers *)
  let common := common_dcs searches in
  if bool_decide (common = []) then None else
  (* 6. server capacity, by region priority *)
  let primary_region :=
    default Other (fst <$> max_by_key_last snd (region_iter ho (region_counts players searches))) in
  let prioritized := prioritize_dcs data_centers primary_region (set_iter ho common) in
  match find (dc_has_server data_centers playlist) prioritized with
  | Some id => Some {| fr_data_center_id := id; fr_skill_disparity := delta_pi_m |}
  | None => None
  end.

(** [Matchmaker::calculate_quality]. *)
Definition calculate_quality (c : MatchmakingConfig) (searches : list SearchObject)
    (players : gmap nat Player) (dc : nat) (current_time : nat) : Q :=
  let deltas := omap (fun pid =>
      players !! pid ≫= fun p => (fun ping => ping - best_ping p) <$> alist_get dc (dc_pings p))
      (concat (map player_ids searches)) in
  let avg_delta_ping :=
    if Nat.ltb 0 (length deltas) then sumQ deltas / inject_Z (Z.of_nat (length deltas)) else 0 in
  let ping_quality := 1 - Qmin (avg_delta_ping / max_ping c) 1 in
  let skills := map avg_skill_percentile searches in
  let n := inject_Z (Z.of_nat (length skills)) in
  let skill_variance :=
    if Nat.ltb 1 (length skills) then
      let mean := sumQ skills / n in
      sumQ (map (fun s => (s - mean) * (s - mean)) skills) / n
    else 0 in
  let skill_balance_quality := 1 - Qmin (skill_variance * 4) 1 in
  let avg_wait :=
    sumQ (map (fun s => wait_time s current_time (tick_interval c)) searches)
    / inject_Z (Z.of_nat (length searches)) in
  let wait_quality := Qmin (avg_wait / 60) 1 in
  quality_weight_ping c * ping_quality
  + quality_weight_skill_balance c * skill_balance_quality
  + quality_weight_wait_time c * wait_quality.

(** *** Team balancing *)

(** A party entry [(party_id, member_ids, avg_skill, party_size)]. *)
Definition PartyEntry : Type := (option nat * list nat * Q * nat)%type.

Definition entry_members (e : PartyEntry) : list nat := let '(_, m, _, _) := e in m.
Definition entry_skill (e : PartyEntry) : Q := let '(_, _, s, _) := e in s.
Definition entry_size (e : PartyEntry) : nat := let '(_, _, _, z) := e in z.

(** [party_groups.entry(k).or_insert_with(Vec::new).push(pid)]. *)
Fixpoint group_push (k : option nat) (pid : nat) (g : list (option nat * list nat))
    : list (option nat * list nat) :=
  match g with
  | [] => [(k, [pid])]
  | (k', ms) :: g' =>
      if decide (k = k') then (k', ms ++ [pid]) :: g' else (k', ms) :: group_push k pid g'
  end.

Definition group_by_party (players : gmap nat Player) (ids : list nat)
    : list (option nat * list nat) :=
  fold_left (fun g pid => group_push (players !! pid ≫= party_id) pid g) ids [].

Definition entry_avg_skill (players : gmap nat Player) (parties : gmap nat Party)
    (k : option nat) (members : list nat) : Q :=
  match k with
  | Some pid =>
      match parties !! pid with
      | Some p => avg_skill p
      | None =>
          sumQ (omap (fun id => skill <$> players !! id) members)
          / inject_Z (Z.of_nat (length members))
      end
  | None =>
      match head members ≫= fun id => players !! id with
      | Some p => skill p
      | None => 0
      end
  end.

Definition indexed {A} (l : list A) : list (nat * A) := combine (seq 0 (length l)) l.

(** The two teams of a partition: entries whose index is in [t1] form
    team 0, the others team 1. *)
Definition build_teams (entries : list PartyEntry) (t1 : list nat) : list (list nat) :=
  [concat (map (fun '(i, e) => if memb i t1 then entry_members e else []) (indexed entries));
   concat (map (fun '(i, e) => if memb i t1 then [] else entry_members e) (indexed entries))].

Definition weighted_skill (e : PartyEntry) : Q := entry_skill e * inject_Z (Z.of_nat (entry_size e)).

(** [exact_partition_recursive]; [best] is [(best_diff, best_partition)].
    [fuel] only makes the recursion structural: [idx] grows by one per
    call, so [S (length entries)] is never exhausted. *)
Fixpoint exact_partition_recursive (entries : list PartyEntry) (target_team_size : nat)
    (fuel idx : nat) (team1_indices : list nat) (team1_size : nat) (team1_skill : Q)
    (best : Q * option (list (list nat))) (depth : nat) : Q * option (list (list nat)) :=
  match fuel with
  | O => best
  | S fuel' =>
    if Nat.ltb 1000 depth then best else
    if Nat.leb (length entries) idx then
      if Nat.eqb team1_size target_team_size then
        let team2_skill := sumQ (map (fun '(i, e) => if memb i team1_indices then 0 else weighted_skill e)
                                     (indexed entries)) in
        let diff := Qabs (team1_skill - team2_skill) in
        if Qltb diff (fst best) then (diff, Some (build_teams entries team1_indices)) else best
      else best
    else
      match nth_error entries idx with
      | None => best
      | Some e =>
        let best1 :=
          if Nat.leb (team1_size + entry_size e) target_team_size then
            let t1 := team1_indices ++ [idx] in
            let s1 := (team1_size + entry_size e)%nat in
            let k1 := team1_skill + weighted_skill e in
            let remaining_skill :=
              sumQ (map (fun '(i, e') => if Nat.ltb idx i && negb (memb i t1) then weighted_skill e' else 0)
                        (indexed entries)) in
            let current_diff := Qabs (k1 - remaining_skill) in
            if Qltb current_diff (fst best)
            then exact_partition_recursive entries target_team_size fuel' (S idx) t1 s1 k1 best (S depth)
            else best
          else best in
        if Nat.ltb team1_size target_team_size
        then exact_partition_recursive entries target_team_size fuel' (S idx)
               team1_indices team1_size team1_skill best1 (S depth)
        else best1
      end
  end.

Definition exact_partition_teams (entries : list PartyEntry) (required : nat)
    : option (list (list nat)) :=
  let target_team_size := Nat.div required 2 in
  let total_size := sum_nat (map entry_size entries) in
  if negb (Nat.eqb total_size required) then None else
  snd (exact_partition_recursive entries target_team_size (S (length entries)) 0 [] 0 0
         (f64_MAX, None) 0).

(** One step of the snake draft: the state is (teams, forward, team_idx). *)
Definition snake_step (tc : nat) (st : list (list nat) * bool * nat) (e : PartyEntry)
    : list (list nat) * bool * nat :=
  let '(ts, forward, idx) := st in
  let ts' := fold_left (fun t pid => push_nth idx pid t) (entry_members e) ts in
  if forward then
    if Nat.eqb idx (tc - 1)%nat then (ts', false, idx) else (ts', true, S idx)
  else
    if Nat.eqb idx 0 then (ts', true, idx) else (ts', false, (idx - 1)%nat).

Definition snake_draft (tc : nat) (entries : list PartyEntry) : list (list nat) :=
  let sorted := sort_stable (fun a b => Qltb (entry_skill b) (entry_skill a)) entries in
  let '(ts, _, _) := fold_left (snake_step tc) sorted (repeat [] tc, true, 0%nat) in ts.

(** [Matchmaker::balance_teams]. *)
Definition balance_teams (ho : HashOrder) (c : MatchmakingConfig) (ids : list nat)
    (players : gmap nat Player) (parties : gmap nat Party) (playlist : Playlist)
    : list (list nat) :=
  let tc := team_count playlist in
  if Nat.eqb tc (length ids) then map (fun id => [id]) ids else
  let groups := group_iter ho (group_by_party players ids) in
  let entries : list PartyEntry :=
    map (fun '(k, ms) => (k, ms, entry_avg_skill players parties k ms, length ms)) groups in
  let required := required_players playlist in
  let is_small_playlist := Nat.leb required 12 && Nat.eqb tc 2 in
  if is_small_playlist && use_exact_team_balancing c then
    match exact_partition_teams entries required with
    | Some best => best
    | None => snake_draft tc entries
    end
  else snake_draft tc entries.

(** *** Per-tick lobby assembly *)

Definition set_acceptable_dcs (s : SearchObject) (a : list nat) : SearchObject := {|
  so_id := so_id s; player_ids := player_ids s;
  avg_skill_percentile := avg_skill_percentile s; skill_disparity := skill_disparity s;
  avg_location := avg_location s; platforms := platforms s;
  input_devices := input_devices s; acceptable_playlists := acceptable_playlists s;
  search_start_time := search_start_time s; acceptable_dcs := a |}.

(** The refresh at the start of [run_tick]: the members' acceptable DC
    sets folded with [if acceptable.is_empty() { acceptable = player_dcs }
    else { acceptable = acceptable ∩ player_dcs }]. *)
Definition refresh_acceptable_dcs (c : MatchmakingConfig) (players : gmap nat Player)
    (dcs : list DataCenter) (current_time : nat) (s : SearchObject) : SearchObject :=
  let w := wait_time s current_time (tick_interval c) in
  let acceptable :=
    fold_left (fun acc pid =>
      match players !! pid with
      | Some p =>
          let player_dcs := player_acceptable_dcs p w c (region p) dcs in
          if bool_decide (acc = []) then player_dcs else list_inter acc player_dcs
      | None => acc
      end) (player_ids s) [] in
  set_acceptable_dcs s acceptable.

Definition set_busy (dc : DataCenter) (b : list (Playlist * nat)) : DataCenter := {|
  dc_id := dc_id dc; dc_location := dc_location dc; dc_region := dc_region dc;
  server_capacity := server_capacity dc; busy_servers := b |}.

(** "Reserve server": [data_centers.iter_mut().find(|dc| dc.id == id)],
    then [busy += 1] if the playlist has a busy entry. *)
Fixpoint reserve_server (dcs : list DataCenter) (id : nat) (p : Playlist) : list DataCenter :=
  match dcs with
  | [] => []
  | dc :: rest =>
      if Nat.eqb (dc_id dc) id then set_busy dc (alist_modify p S (busy_servers dc)) :: rest
      else dc :: reserve_server rest id p
  end.

(** "Release server" in [process_match_completions]: [busy.saturating_sub(1)]. *)
Fixpoint release_server (dcs : list DataCenter) (id : nat) (p : Playlist) : list DataCenter :=
  match dcs with
  | [] => []
  | dc :: rest =>
      if Nat.eqb (dc_id dc) id
      then set_busy dc (alist_modify p (fun b => (b - 1)%nat) (busy_servers dc)) :: rest
      else dc :: release_server rest id p
  end.

(** The state threaded through the seed loop: [matched_search_ids], the
    data centers (mutated by reservations), and the results so far. *)
Record TickState := {
  matched : list nat;
  ts_dcs : list DataCenter;
  results : list MatchResult;
}.

Definition make_result (ho : HashOrder) (c : MatchmakingConfig) (players : gmap nat Player)
    (parties : gmap nat Party) (current_time : nat) (playlist : Playlist)
    (lobby : list SearchObject) (f : FeasibilityResult) : MatchResult :=
  let dc := fr_data_center_id f in
  let all_players := concat (map player_ids lobby) in
  let deltas := omap (fun pid =>
      players !! pid ≫= fun p => (fun ping => ping - best_ping p) <$> alist_get dc (dc_pings p))
      all_players in
  let regions_in_match := remove_dups (omap (fun pid => region <$> players !! pid) all_players) in
  {| mr_player_ids := all_players;
     teams := balance_teams ho c all_players players parties playlist;
     mr_playlist := playlist;
     data_center_id := dc;
     quality_score := calculate_quality c lobby players dc current_time;
     mr_skill_disparity := fr_skill_disparity f;
     avg_delta_ping := sumQ deltas / inject_Z (Z.of_nat (length all_players));
     search_times := map (fun s => wait_time s current_time (tick_interval c)) lobby;
     is_cross_region := Nat.ltb 1 (length regions_in_match) |}.

(** Greedy lobby construction from the sorted candidates.  Once the lobby
    is full every later step leaves it unchanged, as the [break] does. *)
Definition greedy_step (ho : HashOrder) (c : MatchmakingConfig) (players : gmap nat Player)
    (current_time : nat) (playlist : Playlist) (dcs : list DataCenter)
    (acc : list (nat * SearchObject) * nat) (cand : (nat * SearchObject) * Q)
    : list (nat * SearchObject) * nat :=
  let '(lobby, lobby_size) := acc in
  let '((i, s), _) := cand in
  let required := required_players playlist in
  if Nat.leb required lobby_size then acc
  else if Nat.ltb required (lobby_size + size s) then acc
  else match check_feasibility ho c (map snd lobby ++ [s]) playlist current_time dcs players with
       | Some _ => (lobby ++ [(i, s)], (lobby_size + size s)%nat)
       | None => acc
       end.

(** The body of the seed loop. *)
Definition try_seed (ho : HashOrder) (c : MatchmakingConfig)
    (distance : SearchObject -> SearchObject -> Q) (players : gmap nat Player)
    (parties : gmap nat Party) (current_time : nat) (playlist : Playlist)
    (playlist_searches : list (nat * SearchObject)) (st : TickState)
    (seed : nat * SearchObject) : TickState :=
  if memb (so_id (snd seed)) (matched st) then st else
  let candidates :=
    map (fun '(i, s) => ((i, s), distance (snd seed) s))
        (List.filter (fun '(i, s) => negb (Nat.eqb i (fst seed)) && negb (memb (so_id s) (matched st)))
                     playlist_searches) in
  let candidates :=
    firstn (top_k_candidates c) (sort_stable (fun a b => Qltb (snd a) (snd b)) candidates) in
  let '(lobby, lobby_size) :=
    fold_left (greedy_step ho c players current_time playlist (ts_dcs st))
              candidates ([seed], size (snd seed)) in
  if Nat.eqb lobby_size (required_players playlist) then
    match check_feasibility ho c (map snd lobby) playlist current_time (ts_dcs st) players with
    | Some f =>
        let r := make_result ho c players parties current_time playlist (map snd lobby) f in
        {| matched := matched st ++ map (fun '(_, s) => so_id s) lobby;
           ts_dcs := reserve_server (ts_dcs st) (fr_data_center_id f) playlist;
           results := results st ++ [r] |}
    | None => st
    end
  else st.

Definition run_playlist (ho : HashOrder) (c : MatchmakingConfig)
    (distance : SearchObject -> SearchObject -> Q) (players : gmap nat Player)
    (parties : gmap nat Party) (current_time : nat) (search_order : list (nat * SearchObject))
    (st : TickState) (playlist : Playlist) : TickState :=
  let playlist_searches :=
    List.filter (fun '(_, s) => negb (memb (so_id s) (matched st)) && memb playlist (acceptable_playlists s))
                search_order in
  fold_left (try_seed ho c distance players parties current_time playlist playlist_searches)
            playlist_searches st.

(** [Matchmaker::run_tick]: returns the remaining searches, the data
    centers and the match results.  The candidate order is given by
    [distance] ([calculate_distance], see module [Distance]); every
    statement below holds for any distance function. *)
Definition run_tick (ho : HashOrder) (c : MatchmakingConfig)
    (distance : SearchObject -> SearchObject -> Q) (searches : list SearchObject)
    (players : gmap nat Player) (data_centers : list DataCenter)
    (parties : gmap nat Party) (current_time : nat)
    : list SearchObject * list DataCenter * list MatchResult :=
  let searches1 := map (refresh_acceptable_dcs c players data_centers current_time) searches in
  let w s := wait_time s current_time (tick_interval c) in
  let search_order := sort_stable (fun a b => Qltb (w (snd b)) (w (snd a))) (indexed searches1) in
  let st := fold_left (run_playlist ho c distance players parties current_time search_order)
                      all_playlists {| matched := []; ts_dcs := data_centers; results := [] |} in
  (List.filter (fun s => negb (memb (so_id s) (matched st))) searches1, ts_dcs st, results st).

(** ** Concrete inputs used by the examples and witnesses *)

(** [DataCenter::new]: every playlist has capacity 200 (GroundWar 50) and
    a busy entry of 0. *)
Definition new_dc (id : nat) (loc : Location) (r : Region) : DataCenter := {|
  dc_id := id; dc_location := loc; dc_region := r;
  server_capacity := map (fun p => (p, match p with GroundWar => 50%nat | _ => 200%nat end)) all_playlists;
  busy_servers := map (fun p => (p, 0%nat)) all_playlists |}.

Definition mk_player (id : nat) (r : Region) (dev : InputDevice) (pct : Q)
    (pings : list (nat * Q)) (best : Q) (party : option nat) (pl : list Playlist) : Player := {|
  p_id := id; p_location := {| lat := 0; lon := 0 |}; region := r; platform := PC;
  input_device := dev; skill := 0; skill_percentile := pct; skill_bucket := 5;
  state := Searching; current_match := None; party_id := party;
  preferred_playlists := pl; dc_pings := pings; best_ping := best;
  p_search_start_time := Some 0%nat; matches_played := 0; wins := 0; losses := 0;
  recent_delta_pings := []; recent_search_times := []; recent_blowouts := [];
  recent_experience := []; session_start_time := Some 0%nat; matches_in_session := 0;
  last_session_experience := []; last_session_end_time := None |}.

Definition mk_search (id : nat) (ids : list nat) (pct : Q) (devs : list (InputDevice * nat))
    (pl : list Playlist) (dcs : list nat) : SearchObject := {|
  so_id := id; player_ids := ids; avg_skill_percentile := pct; skill_disparity := 0;
  avg_location := {| lat := 0; lon := 0 |}; platforms := [(PC, length ids)];
  input_devices := devs; acceptable_playlists := pl; search_start_time := 0;
  acceptable_dcs := dcs |}.

Definition players_of (l : list Player) : gmap nat Player :=
  list_to_map (map (fun p => (p_id p, p)) l).

(** Twelve solo TDM searchers in North America with two NA data centers. *)
Definition ex_players : gmap nat Player :=
  players_of (map (fun i => mk_player i NorthAmerica Controller (1 # 2) [(0%nat, 20); (1%nat, 20)] 20 None
                              [TeamDeathmatch]) (seq 0 12)).
Definition ex_searches : list SearchObject :=
  map (fun i => mk_search i [i] (1 # 2) [(Controller, 1%nat)] [TeamDeathmatch] []) (seq 0 12).
(** Another valid iteration order: hash sets of DC ids listed in reverse
    insertion order (what a different [RandomState] can yield). *)
Definition rev_set_order : HashOrder :=
  {| set_iter := @rev nat; region_iter := fun l => l; group_iter := fun l => l |}.

(** A TDM party of players 0 and 1: player 0's only data center (DC 0) is
    over the ping limit, player 1 reaches only DC 1; ten solo searchers
    reach both. *)
Definition party_p0 : Player :=
  mk_player 0 NorthAmerica Controller (1 # 2) [(0%nat, 300)] 300 (Some 7%nat) [TeamDeathmatch].
Definition party_p1 : Player :=
  mk_player 1 NorthAmerica Controller (1 # 2) [(1%nat, 20)] 20 (Some 7%nat) [TeamDeathmatch].
Definition party_search : SearchObject :=
  mk_search 50 [0; 1]%nat (1 # 2) [(Controller, 2%nat)] [TeamDeathmatch] [].
Definition party_players : gmap nat Player :=
  players_of (party_p0 :: party_p1 ::
    map (fun i => mk_player i NorthAmerica Controller (1 # 2) [(0%nat, 20); (1%nat, 20)] 20 None
                    [TeamDeathmatch]) (seq 2 10)).
Definition party_searches : list SearchObject :=
  party_search :: map (fun i => mk_search i [i] (1 # 2) [(Controller, 1%nat)] [TeamDeathmatch] [])
                      (seq 2 10).

(** Twelve FFA searchers, the first two in party 7 and searching together. *)
Definition ffa_players : gmap nat Player :=
  players_of (map (fun i => mk_player i NorthAmerica Controller (1 # 2) [(0%nat, 20); (1%nat, 20)] 20
                              (if Nat.ltb i 2 then Some 7%nat else None) [FreeForAll]) (seq 0 12)).
Definition ffa_searches : list SearchObject :=
  mk_search 100 [0; 1]%nat (1 # 2) [(Controller, 2%nat)] [FreeForAll] [] ::
  map (fun i => mk_search i [i] (1 # 2) [(Controller, 1%nat)] [FreeForAll] []) (seq 2 10).
Definition origin : Location := {| lat := 0; lon := 0 |}.
Definition ex_dcs : list DataCenter := [new_dc 0 origin NorthAmerica; new_dc 1 origin NorthAmerica].
Definition zero_distance (_ _ : SearchObject) : Q := 0.

(** ** The distance metric (matchmaker.rs), over the reals

    [calculate_distance] orders candidates in [run_tick]; it needs [sin],
    [cos] and [asin], so it is embedded over [R] ([Q2R] injects the
    rational fields). *)

Definition to_radians (x : R) : R := (x * (PI / 180))%R.

(** [Location::distance_km] (haversine). *)
Definition distance_km (a b : Location) : R :=
  let r := 6371%R in
  let d_lat := to_radians (Q2R (lat b - lat a)) in
  let d_lon := to_radians (Q2R (lon b - lon a)) in
  let lat1 := to_radians (Q2R (lat a)) in
  let lat2 := to_radians (Q2R (lat b)) in
  let x := (sin (d_lat / 2) ^ 2 + cos lat1 * cos lat2 * sin (d_lon / 2) ^ 2)%R in
  let c := (2 * asin (sqrt x))%R in
  (r * c)%R.

Definition device_count (d : InputDevice) (s : SearchObject) : nat :=
  default 0%nat (alist_get d (input_devices s)).

(** [Matchmaker::input_device_distance]. *)
Definition input_device_distance (a b : SearchObject) : R :=
  let a_mkb := device_count MouseKeyboard a in
  let b_mkb := device_count MouseKeyboard b in
  let a_ctrl := device_count Controller a in
  let b_ctrl := device_count Controller b in
  if (Nat.ltb 0 a_mkb && Nat.ltb 0 b_ctrl) || (Nat.ltb 0 a_ctrl && Nat.ltb 0 b_mkb)
  then (1 / 2)%R else 0%R.

(** [Matchmaker::platform_distance]: [HashSet::is_disjoint] of the key sets. *)
Definition platform_distance (a b : SearchObject) : R :=
  let a_platforms := map fst (platforms a) in
  let b_platforms := map fst (platforms b) in
  if forallb (fun k => negb (memb k b_platforms)) a_platforms then (3 / 10)%R else 0%R.

(** [Matchmaker::calculate_distance]. *)
Definition calculate_distance (c : MatchmakingConfig) (a b : SearchObject) : R :=
  let geo_dist := (distance_km (avg_location a) (avg_location b) / 20000)%R in
  let skill_dist := Rabs (Q2R (avg_skill_percentile a - avg_skill_percentile b)) in
  (Q2R (weight_geo c) * geo_dist + Q2R (weight_skill c) * skill_dist
   + Q2R (weight_input c) * input_device_distance a b
   + Q2R (weight_platform c) * platform_distance a b)%R.

(** A two-player party search with one mouse-and-keyboard player and one
    controller player. *)
Definition mixed_search : SearchObject :=
  mk_search 0 [0; 1]%nat (1 # 2) [(MouseKeyboard, 1%nat); (Controller, 1%nat)] [TeamDeathmatch] [].

(** ** Simulation state (simulation.rs, lib.rs) *)

(** [SimulationStats], on the fields the embedded operations touch or that
    [Simulation::new] sets; [#[derive(Default)]] gives 0, empty and [None]. *)
Record SimulationStats := {
  time_elapsed : Q;
  ticks : nat;
  total_matches : nat;
  active_matches : nat;
  blowout_count : nat;
  session_length_distribution : list nat;
  total_sessions_completed : nat;
  churn_rate : Q;
  total_return_attempts : nat;
  total_returns : nat;
  churn_threshold_ticks : nat;
  recent_quits : list (nat * nat);
}.

Definition default_stats : SimulationStats := {|
  time_elapsed := 0; ticks := 0; total_matches := 0; active_matches := 0;
  blowout_count := 0; session_length_distribution := []; total_sessions_completed := 0;
  churn_rate := 0; total_return_attempts := 0; total_returns := 0;
  churn_threshold_ticks := 0; recent_quits := [] |}.

Record Match := {
  m_id : nat;
  m_playlist : Playlist;
  m_data_center_id : nat;
  m_teams : list (list nat);
  start_time : nat;
  expected_duration : nat;
}.

Record Simulation := {
  current_time : nat;
  players : gmap nat Player;
  data_centers : list DataCenter;
  searches : list SearchObject;
  matches : gmap nat Match;
  config : MatchmakingConfig;
  stats : SimulationStats;
  next_player_id : nat;
  next_search_id : nat;
  next_match_id : nat;
  next_party_id : nat;
  parties : gmap nat Party;
  rng_seed : Z;
  arrival_rate : Q;
  matches_since_percentile_update : nat;
  total_matches_in_sessions : nat;
  session_continues : list (nat * (nat * nat));
}.

(** Functional field updates of [Simulation]. *)
Definition sim_with (s : Simulation) (pl : gmap nat Player) (pt : gmap nat Party)
    (se : list SearchObject) (st : SimulationStats) (npid : nat) (tmis : nat)
    (sc : list (nat * (nat * nat))) : Simulation := {|
  current_time := current_time s; players := pl; data_centers := data_centers s;
  searches := se; matches := matches s; config := config s; stats := st;
  next_player_id := next_player_id s; next_search_id := next_search_id s;
  next_match_id := next_match_id s; next_party_id := npid; parties := pt;
  rng_seed := rng_seed s; arrival_rate := arrival_rate s;
  matches_since_percentile_update := matches_since_percentile_update s;
  total_matches_in_sessions := tmis; session_continues := sc |}.

Definition set_players (s : Simulation) (pl : gmap nat Player) : Simulation :=
  sim_with s pl (parties s) (searches s) (stats s) (next_party_id s)
           (total_matches_in_sessions s) (session_continues s).

Definition set_stats (s : Simulation) (st : SimulationStats) : Simulation :=
  sim_with s (players s) (parties s) (searches s) st (next_party_id s)
           (total_matches_in_sessions s) (session_continues s).

(** [Simulation::new]. *)
Definition new_simulation (c : MatchmakingConfig) (seed : Z) : Simulation := {|
  current_time := 0; players := ∅; data_centers := []; searches := [];
  matches := ∅; config := c;
  stats := {| time_elapsed := 0; ticks := 0; total_matches := 0; active_matches := 0;
              blowout_count := 0; session_length_distribution := [];
              total_sessions_completed := 0; churn_rate := 0; total_return_attempts := 0;
              total_returns := 0; churn_threshold_ticks := 100; recent_quits := [] |};
  next_player_id := 0; next_search_id := 0; next_match_id := 0; next_party_id := 0;
  parties := ∅; rng_seed := seed; arrival_rate := 10;
  matches_since_percentile_update := 0; total_matches_in_sessions := 0;
  session_continues := [] |}.

(** [Simulation::init_default_data_centers]. *)
Definition default_data_centers : list DataCenter :=
  [new_dc 0 {| lat := 39; lon := -77 |} NorthAmerica;
   new_dc 1 {| lat := 37; lon := -122 |} NorthAmerica;
   new_dc 2 {| lat := 41; lon := -96 |} NorthAmerica;
   new_dc 3 {| lat := 51; lon := 0 |} Europe;
   new_dc 4 {| lat := 50; lon := 8 |} Europe;
   new_dc 5 {| lat := 59; lon := 18 |} Europe;
   new_dc 6 {| lat := 35; lon := 139 |} AsiaPacific;
   new_dc 7 {| lat := 1; lon := 103 |} AsiaPacific;
   new_dc 8 {| lat := -33; lon := 151 |} AsiaPacific;
   new_dc 9 {| lat := -23; lon := -46 |} SouthAmerica].

Definition init_default_data_centers (s : Simulation) : Simulation := {|
  current_time := current_time s; players := players s;
  data_centers := data_centers s ++ default_data_centers;
  searches := searches s; matches := matches s; config := config s; stats := stats s;
  next_player_id := next_player_id s; next_search_id := next_search_id s;
  next_match_id := next_match_id s; next_party_id := next_party_id s; parties := parties s;
  rng_seed := rng_seed s; arrival_rate := arrival_rate s;
  matches_since_percentile_update := matches_since_percentile_update s;
  total_matches_in_sessions := total_matches_in_sessions s;
  session_continues := session_continues s |}.

(** [SimulationEngine] (lib.rs). *)
Record SimulationEngine := { sim : Simulation }.

Definition engine_new (seed : Z) : SimulationEngine :=
  {| sim := init_default_data_centers (new_simulation default_config seed) |}.

(** [SimulationEngine::reset_stats]. *)
Definition reset_stats (e : SimulationEngine) : SimulationEngine :=
  {| sim := set_stats (sim e) default_stats |}.

(** *** Post-match bookkeeping of one player ([process_match_completions]) *)

(** [v.push(x); if v.len() > n { v.remove(0); }] *)
Definition push_window {A} (n : nat) (x : A) (v : list A) : list A :=
  let v' := v ++ [x] in
  if Nat.ltb n (length v') then tl v' else v'.

(** The updates done before the continue/quit decision. *)
Definition player_after_match (p : Player) (exp : ExperienceVector) (won_ is_blowout : bool)
    (window_size : nat) : Player := {|
  p_id := p_id p; p_location := p_location p; region := region p; platform := platform p;
  input_device := input_device p; skill := skill p; skill_percentile := skill_percentile p;
  skill_bucket := skill_bucket p; state := state p; current_match := None;
  party_id := party_id p; preferred_playlists := preferred_playlists p;
  dc_pings := dc_pings p; best_ping := best_ping p;
  p_search_start_time := p_search_start_time p;
  matches_played := S (matches_played p);
  wins := if won_ then S (wins p) else wins p;
  losses := if won_ then losses p else S (losses p);
  recent_delta_pings := recent_delta_pings p; recent_search_times := recent_search_times p;
  recent_blowouts := push_window 10 is_blowout (recent_blowouts p);
  recent_experience := push_window window_size exp (recent_experience p);
  session_start_time := session_start_time p; matches_in_session := matches_in_session p;
  last_session_experience := last_session_experience p;
  last_session_end_time := last_session_end_time p |}.

(** Continue branch: [InLobby], [matches_in_session += 1]. *)
Definition player_continue (p : Player) : Player := {|
  p_id := p_id p; p_location := p_location p; region := region p; platform := platform p;
  input_device := input_device p; skill := skill p; skill_percentile := skill_percentile p;
  skill_bucket := skill_bucket p; state := InLobby; current_match := current_match p;
  party_id := party_id p; preferred_playlists := preferred_playlists p;
  dc_pings := dc_pings p; best_ping := best_ping p;
  p_search_start_time := p_search_start_time p; matches_played := matches_played p;
  wins := wins p; losses := losses p; recent_delta_pings := recent_delta_pings p;
  recent_search_times := recent_search_times p; recent_blowouts := recent_blowouts p;
  recent_experience := recent_experience p; session_start_time := session_start_time p;
  matches_in_session := S (matches_in_session p);
  last_session_experience := last_session_experience p;
  last_session_end_time := last_session_end_time p |}.

(** Quit branch: the window is preserved, then cleared; the session fields
    are reset only when [matches_in_session > 0]. *)
Definition player_quit (p : Player) (now : nat) (mis : nat) : Player := {|
  p_id := p_id p; p_location := p_location p; region := region p; platform := platform p;
  input_device := input_device p; skill := skill p; skill_percentile := skill_percentile p;
  skill_bucket := skill_bucket p; state := Offline; current_match := current_match p;
  party_id := party_id p; preferred_playlists := preferred_playlists p;
  dc_pings := dc_pings p; best_ping := best_ping p;
  p_search_start_time := p_search_start_time p; matches_played := matches_played p;
  wins := wins p; losses := losses p; recent_delta_pings := recent_delta_pings p;
  recent_search_times := recent_search_times p; recent_blowouts := recent_blowouts p;
  recent_experience := [];
  session_start_time := if Nat.ltb 0 mis then None else session_start_time p;
  matches_in_session := if Nat.ltb 0 mis then 0%nat else matches_in_session p;
  last_session_experience := recent_experience p;
  last_session_end_time := Some now |}.

(** [session_continues.entry(bucket).or_insert((0, 0))], then one of the
    two counters incremented. *)
Fixpoint bump_session (bucket : nat) (cont : bool) (l : list (nat * (nat * nat)))
    : list (nat * (nat * nat)) :=
  match l with
  | [] => [(bucket, if cont then (1%nat, 0%nat) else (0%nat, 1%nat))]
  | (b, (c, q)) :: l' =>
      if Nat.eqb bucket b then (b, if cont then (S c, q) else (c, S q)) :: l'
      else (b, (c, q)) :: bump_session bucket cont l'
  end.

(** [while v.len() <= n { v.push(0) }; v[n] += 1]. *)
Fixpoint incr_at (n : nat) (v : list nat) : list nat :=
  match v, n with
  | [], O => [1%nat]
  | [], S n' => 0%nat :: incr_at n' []
  | x :: v', O => S x :: v'
  | x :: v', S n' => x :: incr_at n' v'
  end.

Definition stats_after_quit (st : SimulationStats) (now mis : nat) : SimulationStats := {|
  time_elapsed := time_elapsed st; ticks := ticks st; total_matches := total_matches st;
  active_matches := active_matches st; blowout_count := blowout_count st;
  session_length_distribution :=
    if Nat.ltb 0 mis then incr_at mis (session_length_distribution st)
    else session_length_distribution st;
  total_sessions_completed :=
    if Nat.ltb 0 mis then S (total_sessions_completed st) else total_sessions_completed st;
  churn_rate := churn_rate st; total_return_attempts := total_return_attempts st;
  total_returns := total_returns st; churn_threshold_ticks := churn_threshold_ticks st;
  recent_quits := recent_quits st ++ [(now, 1%nat)] |}.

(** The [ExperienceVector] built for the match just finished. *)
Definition match_experience (p : Player) (won_ is_blowout : bool) (perf : option Q)
    : ExperienceVector := {|
  ev_avg_delta_ping := default 0 (last (recent_delta_pings p));
  ev_avg_search_time := default 0 (last (recent_search_times p));
  was_blowout := is_blowout; won := won_;
  performance := default (1 # 2) perf |}.

(** The body of the per-player loop of [process_match_completions], for
    player [pid] of a finished match.  [continues] is the outcome of
    [rng.gen_bool(continue_prob)]; the probability itself only feeds that
    draw and diagnostic sample buffers, which are not embedded. *)
Definition finish_player (s : Simulation) (pid : nat) (won_ is_blowout : bool)
    (perf : option Q) (continues : bool) : Simulation :=
  match players s !! pid with
  | None => s
  | Some p =>
      let exp := match_experience p won_ is_blowout perf in
      let bucket := skill_bucket p in
      let mis := matches_in_session p in
      let p1 := player_after_match p exp won_ is_blowout
                  (experience_window_size (config s)) in
      let sc := bump_session bucket continues (session_continues s) in
      if continues then
        sim_with s (<[pid := player_continue p1]> (players s)) (parties s) (searches s)
                 (stats s) (next_party_id s) (total_matches_in_sessions s) sc
      else
        sim_with s (<[pid := player_quit p1 (current_time s) mis]> (players s)) (parties s)
                 (searches s) (stats_after_quit (stats s) (current_time s) mis)
                 (next_party_id s)
                 (if Nat.ltb 0 mis then (total_matches_in_sessions s + mis)%nat
                  else total_matches_in_sessions s) sc
  end.

(** *** Party operations *)

(** The error messages of the party operations, one constructor per
    [format!] in the source. *)
Inductive PartyError :=
  | NoPlayers
  | PlayerMissing (player : nat)
  | AlreadyInParty (player : nat)
  | InvalidState (player : nat)
  | PartyTooLarge
  | PartyMissing (party : nat)
  | PartyFull
  | NotMember (player party : nat).

Definition set_party_id (p : Player) (v : option nat) : Player := {|
  p_id := p_id p; p_location := p_location p; region := region p; platform := platform p;
  input_device := input_device p; skill := skill p; skill_percentile := skill_percentile p;
  skill_bucket := skill_bucket p; state := state p; current_match := current_match p;
  party_id := v; preferred_playlists := preferred_playlists p;
  dc_pings := dc_pings p; best_ping := best_ping p;
  p_search_start_time := p_search_start_time p; matches_played := matches_played p;
  wins := wins p; losses := losses p; recent_delta_pings := recent_delta_pings p;
  recent_search_times := recent_search_times p; recent_blowouts := recent_blowouts p;
  recent_experience := recent_experience p; session_start_time := session_start_time p;
  matches_in_session := matches_in_session p;
  last_session_experience := last_session_experience p;
  last_session_end_time := last_session_end_time p |}.

Definition set_state (p : Player) (v : PlayerState) : Player := {|
  p_id := p_id p; p_location := p_location p; region := region p; platform := platform p;
  input_device := input_device p; skill := skill p; skill_percentile := skill_percentile p;
  skill_bucket := skill_bucket p; state := v; current_match := current_match p;
  party_id := party_id p; preferred_playlists := preferred_playlists p;
  dc_pings := dc_pings p; best_ping := best_ping p;
  p_search_start_time := p_search_start_time p; matches_played := matches_played p;
  wins := wins p; losses := losses p; recent_delta_pings := recent_delta_pings p;
  recent_search_times := recent_search_times p; recent_blowouts := recent_blowouts p;
  recent_experience := recent_experience p; session_start_time := session_start_time p;
  matches_in_session := matches_in_session p;
  last_session_experience := last_session_experience p;
  last_session_end_time := last_session_end_time p |}.

Definition avgQ (l : list Q) : Q := sumQ l / inject_Z (Z.of_nat (length l)).
Definition spreadQ (l : list Q) : Q := fold_left Qmax l f64_MIN - fold_left Qmin l f64_MAX.

Definition playlist_inter (a b : list Playlist) : list Playlist :=
  List.filter (fun x => memb x b) a.

(** The aggregates shared by [Party::from_players] and
    [Party::update_aggregates], for the member players [p0 :: ps]. *)
Definition party_with_aggregates (id : nat) (ids : list nat) (leader : nat)
    (p0 : Player) (ps : list Player) : Party :=
  let all := p0 :: ps in
  let count := inject_Z (Z.of_nat (length all)) in
  {| pt_id := id; pt_player_ids := ids; leader_id := leader;
     avg_skill := avgQ (map skill all);
     pt_skill_disparity := spreadQ (map skill all);
     pt_avg_skill_percentile := avgQ (map skill_percentile all);
     skill_percentile_disparity := spreadQ (map skill_percentile all);
     pt_preferred_playlists :=
       fold_left (fun acc p => playlist_inter acc (preferred_playlists p)) ps
                 (preferred_playlists p0);
     pt_platforms := fold_left (fun m p => alist_incr (platform p) m) all [];
     pt_input_devices := fold_left (fun m p => alist_incr (input_device p) m) all [];
     pt_avg_location := {| lat := sumQ (map (fun p => lat (p_location p)) all) / count;
                           lon := sumQ (map (fun p => lon (p_location p)) all) / count |} |}.

(** [Party::from_players]; the leader is the first player.  (An empty list
    panics in Rust; [create_party] never passes one.) *)
Definition from_players (id : nat) (p0 : Player) (ps : list Player) : Party :=
  party_with_aggregates id (map p_id (p0 :: ps)) (p_id p0) p0 ps.

(** [Party::update_aggregates]: members missing from [players] are skipped;
    with no member found the party is left as it is. *)
Definition update_aggregates (pt : Party) (pl : gmap nat Player) : Party :=
  match omap (fun id => pl !! id) (pt_player_ids pt) with
  | [] => pt
  | p0 :: ps => party_with_aggregates (pt_id pt) (pt_player_ids pt) (leader_id pt) p0 ps
  end.

Definition set_members (pt : Party) (ids : list nat) (leader : nat) : Party := {|
  pt_id := pt_id pt; pt_player_ids := ids; leader_id := leader;
  avg_skill := avg_skill pt; pt_skill_disparity := pt_skill_disparity pt;
  pt_avg_skill_percentile := pt_avg_skill_percentile pt;
  skill_percentile_disparity := skill_percentile_disparity pt;
  pt_preferred_playlists := pt_preferred_playlists pt; pt_platforms := pt_platforms pt;
  pt_input_devices := pt_input_devices pt; pt_avg_location := pt_avg_location pt |}.

Definition lobby_or_offline (st : PlayerState) : bool :=
  match st with InLobby | Offline => true | _ => false end.

(** The validation loop of [create_party]: the first failing player
    returns its error. *)
Fixpoint validate_party_players (pl : gmap nat Player) (ids : list nat)
    : PartyError + list Player :=
  match ids with
  | [] => inr []
  | id :: ids' =>
      match pl !! id with
      | None => inl (PlayerMissing id)
      | Some p =>
          if bool_decide (party_id p <> None) then inl (AlreadyInParty id)
          else if negb (lobby_or_offline (state p)) then inl (InvalidState id)
          else match validate_party_players pl ids' with
               | inl e => inl e
               | inr ps => inr (p :: ps)
               end
      end
  end.

(** [Simulation::create_party]. *)
Definition create_party (s : Simulation) (ids : list nat) : (PartyError + nat) * Simulation :=
  match ids with
  | [] => (inl NoPlayers, s)
  | _ =>
    match validate_party_players (players s) ids with
    | inl e => (inl e, s)
    | inr party_players =>
      if Nat.ltb 6 (length ids) then (inl PartyTooLarge, s) else
      match party_players with
      | [] => (inl NoPlayers, s)   (* unreachable: [ids] is not empty *)
      | p0 :: ps =>
        let pid := next_party_id s in
        let party := from_players pid p0 ps in
        let pl := fold_left (fun m id =>
                    match m !! id with
                    | Some p => <[id := set_party_id p (Some pid)]> m
                    | None => m
                    end) ids (players s) in
        (inr pid, sim_with s pl (<[pid := party]> (parties s)) (searches s) (stats s)
                           (S pid) (total_matches_in_sessions s) (session_continues s))
      end
    end
  end.

(** [Simulation::join_party]. *)
Definition join_party (s : Simulation) (pid player : nat) : (PartyError + unit) * Simulation :=
  match parties s !! pid with
  | None => (inl (PartyMissing pid), s)
  | Some party =>
    if Nat.leb 6 (length (pt_player_ids party)) then (inl PartyFull, s) else
    match players s !! player with
    | None => (inl (PlayerMissing player), s)
    | Some p =>
      if bool_decide (party_id p <> None) then (inl (AlreadyInParty player), s)
      else if negb (lobby_or_offline (state p)) then (inl (InvalidState player), s)
      else
        let party1 := set_members party (pt_player_ids party ++ [player]) (leader_id party) in
        let pl := <[player := set_party_id p (Some pid)]> (players s) in
        let party2 := update_aggregates party1 pl in
        (inr tt, sim_with s pl (<[pid := party2]> (parties s)) (searches s) (stats s)
                          (next_party_id s) (total_matches_in_sessions s) (session_continues s))
    end
  end.

(** [Simulation::leave_party]. *)
Definition leave_party (s : Simulation) (pid player : nat) : (PartyError + unit) * Simulation :=
  match parties s !! pid with
  | None => (inl (PartyMissing pid), s)
  | Some party =>
    if negb (memb player (pt_player_ids party)) then (inl (NotMember player pid), s) else
    let ids := List.filter (fun id => negb (Nat.eqb id player)) (pt_player_ids party) in
    let pl := match players s !! player with
              | Some p => <[player := set_party_id p None]> (players s)
              | None => players s
              end in
    match ids with
    | [] =>
        (inr tt, sim_with s pl (delete pid (parties s)) (searches s) (stats s)
                          (next_party_id s) (total_matches_in_sessions s) (session_continues s))
    | first :: _ =>
        let leader := if Nat.eqb (leader_id party) player then first else leader_id party in
        let party1 := update_aggregates (set_members party ids leader) pl in
        (inr tt, sim_with s pl (<[pid := party1]> (parties s)) (searches s) (stats s)
                          (next_party_id s) (total_matches_in_sessions s) (session_continues s))
    end
  end.

(** [Simulation::disband_party]. *)
Definition disband_party (s : Simulation) (pid : nat) : (PartyError + unit) * Simulation :=
  match parties s !! pid with
  | None => (inl (PartyMissing pid), s)
  | Some party =>
    let '(pl, se) :=
      fold_left (fun '(pl, se) id =>
        match pl !! id with
        | Some p =>
            let p1 := set_party_id p None in
            if decide (state p1 = Searching)
            then (<[id := set_state p1 InLobby]> pl,
                  List.filter (fun so => negb (memb id (player_ids so))) se)
            else (<[id := p1]> pl, se)
        | None => (pl, se)
        end) (pt_player_ids party) (players s, searches s) in
    (inr tt, sim_with s pl (delete pid (parties s)) se (stats s)
                      (next_party_id s) (total_matches_in_sessions s) (session_continues s))
  end.

(** A simulation holding one player in the middle of a session that has
    seen no completed match yet ([matches_in_session = 0]). *)
Definition session_player : Player :=
  mk_player 0 NorthAmerica Controller (1 # 2) [(0%nat, 20)] 20 None [TeamDeathmatch].
Definition quit_sim : Simulation :=
  set_players (new_simulation default_config 0) (<[0%nat := session_player]> ∅).

(** Two players in the lobby, made a party by [create_party]; player 0
    leads it. *)
Definition lobby_player (id : nat) : Player :=
  set_state (mk_player id NorthAmerica Controller (1 # 2) [(0%nat, 20)] 20 None [TeamDeathmatch])
            InLobby.
Definition party_base : Simulation :=
  set_players (new_simulation default_config 0) (players_of [lobby_player 0; lobby_player 1]).
Definition duo_sim : Simulation := snd (create_party party_base [0%nat; 1%nat]).

(** Three players in the lobby; players 0 and 1 form party 0. *)
Definition trio_base : Simulation :=
  set_players (new_simulation default_config 0)
              (players_of [lobby_player 0; lobby_player 1; lobby_player 2]).
Definition trio_sim : Simulation := snd (create_party trio_base [0%nat; 1%nat]).

(** ** Specification predicates *)

(** The feasibility predicate of the spec (§4.2) for a lobby committed under
    [playlist] into data center [dc]: playlist membership, exact size,
    skill containment ([π_min, π_max] ⊆ [π_j - f_skill(t_j), π_j + f_skill(t_j)],
    written member-wise), skill spread (π_max - π_min ≤ Δ_skill(t_j) for
    every j), [dc] common to every member, and a free server there. *)
Definition lobby_feasible (c : MatchmakingConfig) (lobby : list SearchObject)
    (playlist : Playlist) (current_time : nat) (dcs : list DataCenter) (dc : nat) : Prop :=
  let t s := wait_time s current_time (tick_interval c) in
  (forall s, In s lobby -> In playlist (acceptable_playlists s)) /\
  sum_nat (map size lobby) = required_players playlist /\
  (forall j s, In j lobby -> In s lobby ->
     avg_skill_percentile j - skill_similarity_backoff c (t j) <= avg_skill_percentile s /\
     avg_skill_percentile s <= avg_skill_percentile j + skill_similarity_backoff c (t j)) /\
  (forall j a b, In j lobby -> In a lobby -> In b lobby ->
     avg_skill_percentile a - avg_skill_percentile b <= skill_disparity_backoff c (t j)) /\
  (forall s, In s lobby -> In dc (acceptable_dcs s)) /\
  (exists d, find_dc dcs dc = Some d /\ (0 < available_servers d playlist)%nat).

(** [dcs] after the reservations of the results [rs], in order. *)
Definition replay_reservations (dcs : list DataCenter) (rs : list MatchResult) : list DataCenter :=
  fold_left (fun d r => reserve_server d (data_center_id r) (mr_playlist r)) rs dcs.

(** A result committed from a lobby of refreshed searches against the data
    centers [dcs] of the moment of commit: the feasibility check succeeded
    there, the predicate of §4.2 holds, and the chosen data center lies in
    the intersection of the members' acceptable sets. *)
Definition committed_from (ho : HashOrder) (c : MatchmakingConfig) (players : gmap nat Player)
    (parties : gmap nat Party) (current_time : nat) (pool : list SearchObject)
    (dcs : list DataCenter) (r : MatchResult) : Prop :=
  exists lobby f,
    (forall s, In s lobby -> In s pool) /\
    check_feasibility ho c lobby (mr_playlist r) current_time dcs players = Some f /\
    r = make_result ho c players parties current_time (mr_playlist r) lobby f /\
    lobby_feasible c lobby (mr_playlist r) current_time dcs (data_center_id r) /\
    In (data_center_id r) (common_dcs lobby).

(** The invariant of the seed loop of [run_tick]: the data centers are the
    initial ones after the reservations of the results so far, and every
    result was committed against the data centers of its moment. *)
Definition tick_invariant (ho : HashOrder) (c : MatchmakingConfig) (players : gmap nat Player)
    (parties : gmap nat Party) (current_time : nat) (pool : list SearchObject)
    (dcs0 : list DataCenter) (st : TickState) : Prop :=
  ts_dcs st = replay_reservations dcs0 (results st) /\
  forall k r, nth_error (results st) k = Some r ->
    committed_from ho c players parties current_time pool
      (replay_reservations dcs0 (firstn k (results st))) r.

(** Busy counters never exceed capacities (missing entries read as 0). *)
Definition capacity_ok (dcs : list DataCenter) : Prop :=
  Forall (fun dc => forall p,
    (default 0 (alist_get p (busy_servers dc)) <= default 0 (alist_get p (server_capacity dc)))%nat)
    dcs.

(** Two players are on a common team. *)
Definition same_team (ts : list (list nat)) (a b : nat) : Prop :=
  exists t, In t ts /\ In a t /\ In b t.

(** Party integrity of a team assignment: members of one party that both
    appear in [ids] share a team. *)
Definition party_intact (players : gmap nat Player) (ids : list nat) (ts : list (list nat)) : Prop :=
  forall a b k pa pb, In a ids -> In b ids ->
    players !! a = Some pa -> players !! b = Some pb ->
    party_id pa = Some k -> party_id pb = Some k -> same_team ts a b.

(** Every party's leader is one of its members. *)
Definition leaders_ok (s : Simulation) : Prop :=
  forall id pt, parties s !! id = Some pt -> In (leader_id pt) (pt_player_ids pt).


(** A player [create_party] and [join_party] accept: present, in no party,
    and in the lobby or offline. *)
Definition party_member_ok (pl : gmap nat Player) (id : nat) : Prop :=
  exists p, pl !! id = Some p /\ party_id p = None /\ lobby_or_offline (state p) = true.

(** The update [disband_party] makes to the record of a member found in
    the players table: [party_id] cleared, and a searching member put back
    in the lobby. *)
Definition disband_member (p : Player) : Player :=
  if decide (state (set_party_id p None) = Searching)
  then set_state (set_party_id p None) InLobby else set_party_id p None.

Definition searching_in (pl : gmap nat Player) (id : nat) : Prop :=
  exists p, pl !! id = Some p /\ state p = Searching.

(** The players table is keyed by the players' own ids, as
    [generate_population] and [process_arrivals] insert them. *)
Definition player_keys_ok (pl : gmap nat Player) : Prop :=
  forall k p, pl !! k = Some p -> p_id p = k.


(** The searches matched so far, as entries [(index, search)] of the
    refreshed queue [pool]: no entry twice, the [matched] ids are theirs,
    and the results hold exactly their players. *)
Definition matched_entries (pool : list (nat * SearchObject)) (st : TickState) : Prop :=
  exists M, List.NoDup M /\ incl M pool /\
    matched st = map (fun x => so_id (snd x)) M /\
    concat (map mr_player_ids (results st)) = concat (map (fun x => player_ids (snd x)) M).

(** ** Histograms and the skill distribution (lib.rs, simulation.rs) *)

(** [x as usize] where the result is then capped by a [min]: truncation
    toward zero, negatives (and [-0.x]) giving 0; the cast's saturation at
    [usize::MAX] is below every cap the callers use. *)
Definition usize_of (x : Q) : nat := Z.to_nat (Qfloor x).

(** [v[i] += 1] on a [Vec<usize>]; [None] is the index-out-of-bounds panic. *)
Fixpoint vec_incr (i : nat) (v : list nat) {struct v} : option (list nat) :=
  match v, i with
  | [], _ => None
  | c :: v', O => Some (S c :: v')
  | c :: v', S i' => match vec_incr i' v' with
                     | Some w => Some (c :: w)
                     | None => None
                     end
  end.

(** The body shared by [WasmSimulation::get_search_time_histogram] (on
    [stats.search_time_samples]) and [get_delta_ping_histogram] (on
    [stats.delta_ping_samples]), with the JSON array it serializes as the
    list of its [(bin_start, bin_end, count)] objects; [None] is a panic.
    With [num_bins = 0], [num_bins - 1] underflows and [num_bins as f64]
    divides by zero, but the values do not matter: [bins] is empty and the
    first [bins[bin] += 1] panics whatever [bin] is, which is what the
    model does with [num_bins - 1] read as 0. *)
Definition histogram (samples : list Q) (num_bins : nat) : option (list (Q * Q * nat)) :=
  match samples with
  | [] => Some []
  | _ :: _ =>
    let max_time := fold_left Qmax samples 0 in
    let bin_width := Qmax (max_time / inject_Z (Z.of_nat num_bins)) 1 in
    let bins := fold_left (fun acc sample =>
                  match acc with
                  | None => None
                  | Some bins =>
                      vec_incr (Nat.min (usize_of (sample / bin_width)) (num_bins - 1)) bins
                  end) samples (Some (repeat 0%nat num_bins)) in
    match bins with
    | None => None
    | Some bins =>
        Some (map (fun '(i, count) =>
                (inject_Z (Z.of_nat i) * bin_width, inject_Z (Z.of_nat (S i)) * bin_width, count))
              (indexed bins))
    end
  end.

(** [Simulation::get_skill_distribution]: twenty buckets over the skill
    range, each labelled [(i / 19) * 2 - 1]; [None] is a panic of
    [buckets[bucket] += 1]. The players are visited in [map_to_list]
    order: the counts do not depend on the order of [players.values()]. *)
Definition get_skill_distribution (s : Simulation) : option (list (Q * nat)) :=
  let buckets := fold_left (fun acc player =>
                   match acc with
                   | None => None
                   | Some buckets =>
                       let bucket := usize_of ((skill player + 1) / 2 * 19) in
                       let bucket := Nat.min bucket 19 in
                       vec_incr bucket buckets
                   end) (map snd (map_to_list (players s))) (Some (repeat 0%nat 20)) in
  match buckets with
  | None => None
  | Some buckets =>
      Some (map (fun '(i, count) => (inject_Z (Z.of_nat i) / 19 * 2 - 1, count)) (indexed buckets))
  end.

(** ** Skill percentiles (simulation.rs, types.rs) *)

Definition set_skill_percentile (p : Player) (v : Q) : Player := {|
  p_id := p_id p; p_location := p_location p; region := region p; platform := platform p;
  input_device := input_device p; skill := skill p; skill_percentile := v;
  skill_bucket := skill_bucket p; state := state p; current_match := current_match p;
  party_id := party_id p; preferred_playlists := preferred_playlists p;
  dc_pings := dc_pings p; best_ping := best_ping p;
  p_search_start_time := p_search_start_time p; matches_played := matches_played p;
  wins := wins p; losses := losses p; recent_delta_pings := recent_delta_pings p;
  recent_search_times := recent_search_times p; recent_blowouts := recent_blowouts p;
  recent_experience := recent_experience p; session_start_time := session_start_time p;
  matches_in_session := matches_in_session p;
  last_session_experience := last_session_experience p;
  last_session_end_time := last_session_end_time p |}.

Definition set_skill_bucket (p : Player) (v : nat) : Player := {|
  p_id := p_id p; p_location := p_location p; region := region p; platform := platform p;
  input_device := input_device p; skill := skill p; skill_percentile := skill_percentile p;
  skill_bucket := v; state := state p; current_match := current_match p;
  party_id := party_id p; preferred_playlists := preferred_playlists p;
  dc_pings := dc_pings p; best_ping := best_ping p;
  p_search_start_time := p_search_start_time p; matches_played := matches_played p;
  wins := wins p; losses := losses p; recent_delta_pings := recent_delta_pings p;
  recent_search_times := recent_search_times p; recent_blowouts := recent_blowouts p;
  recent_experience := recent_experience p; session_start_time := session_start_time p;
  matches_in_session := matches_in_session p;
  last_session_experience := last_session_experience p;
  last_session_end_time := last_session_end_time p |}.

(** [Ord::clamp] on [usize]; [None] is its panic when [min > max]. *)
Definition clamp_usize (x lo hi : nat) : option nat :=
  if Nat.leb lo hi then Some (if Nat.ltb x lo then lo else if Nat.ltb hi x then hi else x)
  else None.

(** [Player::update_skill_bucket]; [None] is a panic. *)
Definition update_skill_bucket (p : Player) (num_buckets : nat) : option Player :=
  match clamp_usize (usize_of (skill_percentile p * inject_Z (Z.of_nat num_buckets))) 1 num_buckets with
  | Some b => Some (set_skill_bucket p b)
  | None => None
  end.

(** The body of the loop of [update_skill_percentiles] on the entry
    [(rank, (id, _))] of the sorted skills; [n] is [skills.len() as f64]. *)
Definition percentile_step (num_buckets : nat) (n : Q)
    (acc : option (gmap nat Player)) (entry : nat * (nat * Q)) : option (gmap nat Player) :=
  match acc with
  | None => None
  | Some pl =>
      let '(rank, (id, _)) := entry in
      match pl !! id with
      | None => Some pl
      | Some player =>
          let player := set_skill_percentile player ((inject_Z (Z.of_nat rank) + 1 / 2) / n) in
          match update_skill_bucket player num_buckets with
          | Some player => Some (<[id := player]> pl)
          | None => None
          end
      end
  end.

(** [Simulation::update_skill_percentiles]; [None] is a panic.  [iter]
    is the order in which [self.players.iter()] yields the entries, listed
    by [map_to_list]; it decides the order of equal skills under the
    stable sort. *)
Definition update_skill_percentiles (iter : list (nat * Player) -> list (nat * Player))
    (s : Simulation) : option Simulation :=
  let skills := map (fun '(id, p) => (id, skill p)) (iter (map_to_list (players s))) in
  let skills := sort_stable (fun a b => Qltb (snd a) (snd b)) skills in
  let n := inject_Z (Z.of_nat (length skills)) in
  match fold_left (percentile_step (num_skill_buckets (config s)) n) (indexed skills)
          (Some (players s)) with
  | Some pl => Some (set_players s pl)
  | None => None
  end.

(** ** Summary statistics (simulation.rs) *)

(** The [search_time_samples] block of [Simulation::update_stats], run when
    the samples are not empty: [Some (avg, p50, p90, p99)] is what it
    stores, [None] an out-of-bounds panic of [sorted[..]].  The [f64]
    constants [0.9] and [0.99] are read as [9/10] and [99/100]: for
    lengths below [2^50] the rounded products have the same floor. *)
Definition search_time_percentiles (samples : list Q) : option (Q * Q * Q * Q) :=
  let sorted := sort_stable Qltb samples in
  let len := length sorted in
  match nth_error sorted (len / 2),
        nth_error sorted (usize_of (inject_Z (Z.of_nat len) * (9 # 10))),
        nth_error sorted (usize_of (Qmin (inject_Z (Z.of_nat len) * (99 # 100))
                                         (inject_Z (Z.of_nat (len - 1))))) with
  | Some p50, Some p90, Some p99 => Some (sumQ sorted / inject_Z (Z.of_nat len), p50, p90, p99)
  | _, _, _ => None
  end.

(** The [delta_ping_samples] block of [update_stats], likewise:
    [Some (avg, p50, p90)]. *)
Definition delta_ping_percentiles (samples : list Q) : option (Q * Q * Q) :=
  let sorted := sort_stable Qltb samples in
  let len := length sorted in
  match nth_error sorted (len / 2),
        nth_error sorted (usize_of (inject_Z (Z.of_nat len) * (9 # 10))) with
  | Some p50, Some p90 => Some (sumQ sorted / inject_Z (Z.of_nat len), p50, p90)
  | _, _ => None
  end.

(** [Simulation::update_churn_stats]. The players are visited in
    [map_to_list] order: the count does not depend on the order. *)
Definition update_churn_stats (s : Simulation) : Simulation :=
  let threshold := churn_threshold_ticks (stats s) in
  let total_population := base.size (players s) in
  let churned_players := fold_left (fun churned player =>
        if decide (state player = Offline) then
          match last_session_end_time player with
          | Some last_end_time =>
              let time_since_offline := (current_time s - last_end_time)%nat in
              if Nat.ltb threshold time_since_offline then S churned else churned
          | None => churned
          end
        else churned) (map snd (map_to_list (players s))) 0%nat in
  let st := stats s in
  let rate := if Nat.ltb 0 total_population
              then inject_Z (Z.of_nat churned_players) / inject_Z (Z.of_nat total_population)
              else 0 in
  set_stats s {|
    time_elapsed := time_elapsed st; ticks := ticks st; total_matches := total_matches st;
    active_matches := active_matches st; blowout_count := blowout_count st;
    session_length_distribution := session_length_distribution st;
    total_sessions_completed := total_sessions_completed st;
    churn_rate := rate; total_return_attempts := total_return_attempts st;
    total_returns := total_returns st; churn_threshold_ticks := churn_threshold_ticks st;
    recent_quits := recent_quits st |}.

(** ** Starting a search (simulation.rs, types.rs) *)

(** [p.state = PlayerState::Searching; p.search_start_time =
    Some(self.current_time)]. *)
Definition set_searching (p : Player) (now : nat) : Player := {|
  p_id := p_id p; p_location := p_location p; region := region p; platform := platform p;
  input_device := input_device p; skill := skill p; skill_percentile := skill_percentile p;
  skill_bucket := skill_bucket p; state := Searching; current_match := current_match p;
  party_id := party_id p; preferred_playlists := preferred_playlists p;
  dc_pings := dc_pings p; best_ping := best_ping p;
  p_search_start_time := Some now; matches_played := matches_played p;
  wins := wins p; losses := losses p; recent_delta_pings := recent_delta_pings p;
  recent_search_times := recent_search_times p; recent_blowouts := recent_blowouts p;
  recent_experience := recent_experience p; session_start_time := session_start_time p;
  matches_in_session := matches_in_session p;
  last_session_experience := last_session_experience p;
  last_session_end_time := last_session_end_time p |}.

(** [Party::to_search_object].  The acceptable data centers are the
    intersection of the members' [acceptable_dcs] at wait time 0, members
    missing from [players] skipped, and empty when none is found; the
    [HashSet] is a list whose order is left to [set_iter] where it is
    iterated. *)
Definition to_search_object (pt : Party) (search_id search_start : nat)
    (pl : gmap nat Player) (c : MatchmakingConfig) (dcs : list DataCenter) : SearchObject :=
  let party_players := omap (fun id => pl !! id) (pt_player_ids pt) in
  let wait_time := 0 in
  let acc := fold_left (fun acc player =>
      let player_dcs := player_acceptable_dcs player wait_time c (region player) dcs in
      Some (match acc with
            | None => player_dcs
            | Some existing => list_inter existing player_dcs
            end)) party_players None in
  {| so_id := search_id; player_ids := pt_player_ids pt;
     avg_skill_percentile := pt_avg_skill_percentile pt;
     skill_disparity := skill_percentile_disparity pt; avg_location := pt_avg_location pt;
     platforms := pt_platforms pt; input_devices := pt_input_devices pt;
     acceptable_playlists := pt_preferred_playlists pt; search_start_time := search_start;
     acceptable_dcs := default [] acc |}.

(** The fields [start_search] writes: players, [next_search_id], searches. *)
Definition sim_after_search (s : Simulation) (pl : gmap nat Player) (search : SearchObject)
    : Simulation := {|
  current_time := current_time s; players := pl; data_centers := data_centers s;
  searches := searches s ++ [search]; matches := matches s; config := config s;
  stats := stats s; next_player_id := next_player_id s;
  next_search_id := S (next_search_id s); next_match_id := next_match_id s;
  next_party_id := next_party_id s; parties := parties s; rng_seed := rng_seed s;
  arrival_rate := arrival_rate s;
  matches_since_percentile_update := matches_since_percentile_update s;
  total_matches_in_sessions := total_matches_in_sessions s;
  session_continues := session_continues s |}.

(** [Simulation::start_search]. *)
Definition start_search (s : Simulation) (player_id : nat) : Simulation :=
  match players s !! player_id with
  | None => s
  | Some player =>
      match match party_id player with
            | Some party_id => parties s !! party_id
            | None => None
            end with
      | Some party =>
          if negb (Nat.eqb (leader_id party) player_id) then s
          else if negb (forallb (fun pid =>
                          match players s !! pid with
                          | Some p => bool_decide (state p = InLobby)
                          | None => false
                          end) (pt_player_ids party)) then s
          else
            let pl := fold_left (fun pl pid =>
                        match pl !! pid with
                        | Some p => <[pid := set_searching p (current_time s)]> pl
                        | None => pl
                        end) (pt_player_ids party) (players s) in
            let search := to_search_object party (next_search_id s) (current_time s)
                            pl (config s) (data_centers s) in
            sim_after_search s pl search
      | None =>
          let player := set_searching player (current_time s) in
          let pl := <[player_id := player]> (players s) in
          let wait_time := 0 in
          let acceptable := player_acceptable_dcs player wait_time (config s) (region player)
                              (data_centers s) in
          let search := {|
            so_id := next_search_id s; player_ids := [player_id];
            avg_skill_percentile := skill_percentile player; skill_disparity := 0;
            avg_location := p_location player;
            platforms := [(platform player, 1%nat)];
            input_devices := [(input_device player, 1%nat)];
            acceptable_playlists := preferred_playlists player;
            search_start_time := current_time s; acceptable_dcs := acceptable |} in
          sim_after_search s pl search
      end
  end.

(** Two players in party 0 of [duo_sim], and that party, as the simulation
    holds them. *)
Definition duo_member (id : nat) : Player :=
  Eval vm_compute in match players duo_sim !! id with Some p => p | None => lobby_player id end.
Definition duo_party : Party :=
  Eval vm_compute in match parties duo_sim !! 0%nat with Some pt => pt
                     | None => {| pt_id := 0; leader_id := 0; pt_player_ids := [] |} end.


(** * Properties *)

(** ** Generic facts *)

Lemma memb_In {A} `{EqDecision A} (x : A) (l : list A) : memb x l = true <-> In x l.
Proof.
  unfold memb. rewrite existsb_exists. split.
  - intros (y & Hy & Hb). apply bool_decide_eq_true in Hb. subst. exact Hy.
  - intros H. exists x. split; [exact H | apply bool_decide_eq_true; reflexivity].
Qed.

Lemma list_inter_In x a b : In x (list_inter a b) <-> In x a /\ In x b.
Proof. unfold list_inter. rewrite filter_In, memb_In. tauto. Qed.

Lemma fold_Qmin_le_init l i : fold_left Qmin l i <= i.
Proof.
  revert i. induction l as [|a l IH]; intros i; simpl.
  - apply Qle_refl.
  - eapply Qle_trans; [apply IH | apply Q.le_min_l].
Qed.

Lemma fold_Qmin_le l i x : In x l -> fold_left Qmin l i <= x.
Proof.
  revert i. induction l as [|a l IH]; intros i Hx; simpl in *; [contradiction|].
  destruct Hx as [<- | Hx].
  - eapply Qle_trans; [apply fold_Qmin_le_init | apply Q.le_min_r].
  - apply IH, Hx.
Qed.

Lemma fold_Qmax_ge_init l i : i <= fold_left Qmax l i.
Proof.
  revert i. induction l as [|a l IH]; intros i; simpl.
  - apply Qle_refl.
  - eapply Qle_trans; [apply Q.le_max_l | apply IH].
Qed.

Lemma fold_Qmax_ge l i x : In x l -> x <= fold_left Qmax l i.
Proof.
  revert i. induction l as [|a l IH]; intros i Hx; simpl in *; [contradiction|].
  destruct Hx as [<- | Hx].
  - eapply Qle_trans; [apply Q.le_max_r | apply fold_Qmax_ge_init].
  - apply IH, Hx.
Qed.

Lemma Qltb_false x y : Qltb x y = false -> y <= x.
Proof. unfold Qltb. intros H. apply negb_false_iff, Qle_bool_iff in H. exact H. Qed.

Lemma insert_stable_perm {A} (lt : A -> A -> bool) x l :
  Permutation (insert_stable lt x l) (x :: l).
Proof.
  induction l as [|y l IH]; simpl; [reflexivity|].
  destruct (lt x y); [reflexivity|].
  rewrite IH. apply perm_swap.
Qed.

Lemma sort_stable_perm {A} (lt : A -> A -> bool) l : Permutation (sort_stable lt l) l.
Proof.
  unfold sort_stable.
  assert (H : forall acc, Permutation (fold_left (fun acc x => insert_stable lt x acc) l acc)
                                      (acc ++ l)).
  { induction l as [|x l IH]; intros acc; simpl.
    - rewrite app_nil_r. reflexivity.
    - rewrite IH, insert_stable_perm. simpl. apply Permutation_middle. }
  apply H.
Qed.

(** ** Feasibility soundness *)

Lemma common_dcs_sound l x : In x (common_dcs l) -> forall s, In s l -> In x (acceptable_dcs s).
Proof.
  unfold common_dcs.
  assert (H : forall acc, In x (default [] (fold_left (fun acc s =>
    Some (match acc with
          | None => acceptable_dcs s
          | Some common => list_inter common (acceptable_dcs s)
          end)) l acc)) ->
    (forall s, In s l -> In x (acceptable_dcs s)) /\ (forall cm, acc = Some cm -> In x cm)).
  { induction l as [|s0 l IH]; intros acc Hx; simpl in *.
    - split; [contradiction|]. intros cm ->. exact Hx.
    - destruct (IH _ Hx) as [H1 H2]. specialize (H2 _ eq_refl).
      destruct acc as [cm|]; [apply list_inter_In in H2 as [H2 H3]|].
      + split; [intros s [<- | Hs]; auto | intros ? [= <-]; exact H2].
      + split; [intros s [<- | Hs]; auto | discriminate]. }
  intros Hx. apply (H None Hx).
Qed.

Lemma prioritize_incl dcs r l x : In x (prioritize_dcs dcs r l) -> In x l.
Proof.
  unfold prioritize_dcs.
  assert (H : forall p a o, let '(p', a', o') :=
      fold_left (fun '(p, a, o) id =>
        match find_dc dcs id with
        | Some dc =>
            if decide (dc_region dc = r) then (p ++ [id], a, o)
            else if memb (dc_region dc) (adjacent_regions r) then (p, a ++ [id], o)
            else (p, a, o ++ [id])
        | None => (p, a, o)
        end) l (p, a, o) in
      In x (p' ++ a' ++ o') -> In x (p ++ a ++ o) \/ In x l).
  { induction l as [|y l IH]; intros p a o; simpl; [tauto|].
    destruct (find_dc dcs y) as [dc|];
      [destruct (decide _); [|destruct (memb _ _)]|];
      match goal with
      | |- context [fold_left ?f l (?p1, ?a1, ?o1)] =>
          specialize (IH p1 a1 o1); destruct (fold_left f l (p1, a1, o1)) as [[p' a'] o']
      end; intros Hx; specialize (IH Hx); rewrite !in_app_iff in *; simpl in *; tauto. }
  specialize (H [] [] []).
  match goal with
  | |- context [fold_left ?f l ?i] => destruct (fold_left f l i) as [[p' a'] o']
  end.
  intros Hx. destruct (H Hx) as [[] | ?]; assumption.
Qed.

Lemma check_feasibility_nonempty ho c pl now dcs players f :
  check_feasibility ho c [] pl now dcs players <> Some f.
Proof. unfold check_feasibility, common_dcs. simpl. repeat case_match; simpl; discriminate. Qed.

Lemma sum_nat_app l1 l2 : sum_nat (l1 ++ l2) = (sum_nat l1 + sum_nat l2)%nat.
Proof.
  unfold sum_nat. rewrite fold_left_app.
  assert (H : forall l a, fold_left Nat.add l a = (a + fold_left Nat.add l 0)%nat).
  { induction l as [|x l IH]; intros a; simpl; [lia|]. rewrite IH, (IH x). lia. }
  rewrite (H l2). reflexivity.
Qed.

Lemma check_feasibility_sound ho c lobby pl now dcs players f :
  (forall l, incl (set_iter ho l) l) ->
  check_feasibility ho c lobby pl now dcs players = Some f ->
  sum_nat (map size lobby) = required_players pl ->
  lobby_feasible c lobby pl now dcs (fr_data_center_id f) /\
  In (fr_data_center_id f) (common_dcs lobby).
Proof.
  intros Hset H Hsize. unfold check_feasibility in H.
  destruct (forallb (fun s => memb pl (acceptable_playlists s)) lobby) eqn:Hpl;
    simpl in H; [|discriminate].
  destruct (Nat.ltb _ _); [discriminate|].
  set (pi_min := fold_left Qmin (map avg_skill_percentile lobby) f64_MAX) in H.
  set (pi_max := fold_left Qmax (map avg_skill_percentile lobby) f64_MIN) in H.
  match type of H with
  | context [forallb ?g lobby] => destruct (forallb g lobby) eqn:Hsk
  end; simpl in H; [|discriminate].
  match type of H with
  | context [Qltb ?m (pi_max - pi_min)] => destruct (Qltb m (pi_max - pi_min)) eqn:Hdisp
  end; [discriminate|].
  destruct (bool_decide (common_dcs lobby = [])); [discriminate|].
  match type of H with
  | context [find ?g ?l] => destruct (find g l) as [id|] eqn:Hfind
  end; [|discriminate].
  injection H as <-. simpl.
  apply find_some in Hfind as [Hin Hhas].
  apply prioritize_incl, Hset in Hin.
  assert (Hmin : forall s, In s lobby -> pi_min <= avg_skill_percentile s).
  { intros s Hs. apply fold_Qmin_le, in_map, Hs. }
  assert (Hmax : forall s, In s lobby -> avg_skill_percentile s <= pi_max).
  { intros s Hs. apply fold_Qmax_ge, in_map, Hs. }
  rewrite forallb_forall in Hpl, Hsk. clearbody pi_min pi_max.
  split; [|exact Hin].
  unfold lobby_feasible; cbv beta zeta.
  split; [|split; [|split; [|split; [|split]]]].
  - intros s Hs. apply memb_In, Hpl, Hs.
  - exact Hsize.
  - intros j s Hj Hs. specialize (Hsk _ Hj).
    cbv beta zeta in Hsk. apply negb_true_iff, orb_false_iff in Hsk as [H1 H2].
    apply Qltb_false in H1, H2. specialize (Hmin _ Hs). specialize (Hmax _ Hs).
    split; Lqa.lra.
  - intros j a b Hj Ha Hb. apply Qltb_false in Hdisp.
    specialize (Hmin _ Hb). specialize (Hmax _ Ha).
    assert (Hm : fold_left Qmin (map (fun s => skill_disparity_backoff c
                   (wait_time s now (tick_interval c))) lobby) f64_MAX
                 <= skill_disparity_backoff c (wait_time j now (tick_interval c))).
    { apply fold_Qmin_le. apply (in_map (fun s => skill_disparity_backoff c
                   (wait_time s now (tick_interval c)))), Hj. }
    Lqa.lra.
  - intros s Hs. eapply common_dcs_sound; eassumption.
  - unfold dc_has_server in Hhas. destruct (find_dc dcs id) as [d|]; [|discriminate].
    exists d. split; [reflexivity|]. apply Nat.ltb_lt, Hhas.
Qed.

(** ** The seed loop of [run_tick] *)

Lemma in_firstn_incl {A} n (l : list A) x : In x (firstn n l) -> In x l.
Proof.
  intros H. rewrite <- (firstn_skipn n l). apply in_or_app. left. exact H.
Qed.

Lemma in_indexed {A} i (x : A) l : In (i, x) (indexed l) -> In x l.
Proof. unfold indexed. apply in_combine_r. Qed.

Lemma greedy_fold_inv ho c players now pl dcs (pool : list SearchObject) cands :
  (forall x, In x cands -> In (snd (fst x)) pool) ->
  forall lobby n,
  n = sum_nat (map size (map snd lobby)) ->
  (forall x, In x lobby -> In (snd x) pool) ->
  snd (fold_left (greedy_step ho c players now pl dcs) cands (lobby, n))
    = sum_nat (map size (map snd (fst (fold_left (greedy_step ho c players now pl dcs) cands (lobby, n))))) /\
  (forall x, In x (fst (fold_left (greedy_step ho c players now pl dcs) cands (lobby, n))) ->
     In (snd x) pool).
Proof.
  induction cands as [|[[i s] d] cands IH]; intros Hc lobby n Hn Hl; simpl; [auto|].
  assert (Hs : In s pool) by (apply (Hc ((i, s), d)); left; reflexivity).
  assert (Hc' : forall x, In x cands -> In (snd (fst x)) pool) by (intros; apply Hc; right; auto).
  unfold greedy_step at 2.
  destruct (Nat.leb _ _); [apply IH; auto|].
  destruct (Nat.ltb _ _); [apply IH; auto|].
  destruct (check_feasibility _ _ _ _ _ _ _); [|apply IH; auto].
  apply IH; auto.
  - rewrite !map_app, sum_nat_app, Hn. reflexivity.
  - intros x Hx. apply in_app_or in Hx as [Hx | [<- | []]]; auto.
Qed.

Lemma replay_snoc dcs rs r :
  replay_reservations dcs (rs ++ [r])
  = reserve_server (replay_reservations dcs rs) (data_center_id r) (mr_playlist r).
Proof. unfold replay_reservations. rewrite fold_left_app. reflexivity. Qed.

Lemma try_seed_inv ho c distance players parties now pool dcs0 pl ps st seed :
  (forall l, incl (set_iter ho l) l) ->
  (forall x, In x ps -> In (snd x) pool) ->
  In (snd seed) pool ->
  tick_invariant ho c players parties now pool dcs0 st ->
  tick_invariant ho c players parties now pool dcs0
    (try_seed ho c distance players parties now pl ps st seed).
Proof.
  intros Hset Hps Hseed [Hdcs Hres]. unfold try_seed.
  destruct (memb _ _); [split; assumption|].
  match goal with
  | |- context [fold_left ?g ?cands ([seed], size (snd seed))] =>
      pose proof (greedy_fold_inv ho c players now pl (ts_dcs st) pool cands) as Hg;
      destruct (fold_left g cands ([seed], size (snd seed))) as [lobby n] eqn:Hf
  end.
  destruct Hg with (lobby := [seed]) (n := size (snd seed)) as [Hn Hl].
  { intros x Hx. apply in_firstn_incl in Hx.
    eapply Permutation_in in Hx; [|apply sort_stable_perm].
    apply in_map_iff in Hx as [[i s] [<- Hx]].
    apply filter_In in Hx as [Hx _]. apply (Hps _ Hx). }
  { simpl. unfold sum_nat. simpl. reflexivity. }
  { intros x [<- | []]. exact Hseed. }
  rewrite Hf in Hn, Hl. simpl in Hn, Hl.
  destruct (Nat.eqb n (required_players pl)) eqn:Heq; [|split; assumption].
  destruct (check_feasibility _ _ _ _ _ _ _) as [f|] eqn:Hcf; [|split; assumption].
  apply Nat.eqb_eq in Heq.
  split; simpl.
  - rewrite replay_snoc, <- Hdcs. reflexivity.
  - intros k r Hk.
    destruct (Nat.lt_ge_cases k (length (results st))) as [Hlt | Hge].
    + rewrite nth_error_app1 in Hk by exact Hlt.
      rewrite firstn_app. replace (k - length (results st))%nat with 0%nat by lia.
      rewrite app_nil_r. apply Hres, Hk.
    + rewrite nth_error_app2 in Hk by exact Hge.
      destruct (k - length (results st))%nat as [|m] eqn:Hkm; [|destruct m; discriminate].
      injection Hk as <-.
      replace k with (length (results st)) by lia.
      rewrite firstn_app, Nat.sub_diag, firstn_all, app_nil_r, <- Hdcs.
      assert (Hsz : sum_nat (map size (map snd lobby)) = required_players pl) by congruence.
      destruct (@check_feasibility_sound ho c _ _ _ _ _ _ Hset Hcf Hsz) as [Hfeas Hcommon].
      exists (map snd lobby), f. simpl.
      split; [|split; [exact Hcf|split; [reflexivity|split; assumption]]].
      intros s Hs. apply in_map_iff in Hs as [x [<- Hx]]. apply Hl, Hx.
Qed.

Lemma try_seed_fold_inv ho c distance players parties now pool dcs0 pl ps :
  (forall l, incl (set_iter ho l) l) ->
  (forall x, In x ps -> In (snd x) pool) ->
  forall l st, (forall x, In x l -> In (snd x) pool) ->
  tick_invariant ho c players parties now pool dcs0 st ->
  tick_invariant ho c players parties now pool dcs0
    (fold_left (try_seed ho c distance players parties now pl ps) l st).
Proof.
  intros Hset Hps l. induction l as [|y l IH]; intros st Hl Hinv; simpl; [exact Hinv|].
  apply IH; [intros; apply Hl; right; assumption|].
  apply try_seed_inv; auto. apply Hl. left. reflexivity.
Qed.

Lemma run_playlist_inv ho c distance players parties now pool dcs0 order st pl :
  (forall l, incl (set_iter ho l) l) ->
  (forall x, In x order -> In (snd x) pool) ->
  tick_invariant ho c players parties now pool dcs0 st ->
  tick_invariant ho c players parties now pool dcs0
    (run_playlist ho c distance players parties now order st pl).
Proof.
  intros Hset Horder Hinv. unfold run_playlist.
  assert (Hps : forall x, In x (List.filter (fun '(_, s) =>
             negb (memb (so_id s) (matched st)) && memb pl (acceptable_playlists s)) order) ->
           In (snd x) pool).
  { intros x Hx. apply filter_In in Hx as [Hx _]. apply Horder, Hx. }
  apply try_seed_fold_inv; auto.
Qed.

Lemma run_tick_inv ho c distance searches players dcs parties now :
  (forall l, incl (set_iter ho l) l) ->
  let pool := map (refresh_acceptable_dcs c players dcs now) searches in
  let '(_, dcs', rs) := run_tick ho c distance searches players dcs parties now in
  tick_invariant ho c players parties now pool dcs {| matched := []; ts_dcs := dcs'; results := rs |}.
Proof.
  intros Hset pool. unfold run_tick. fold pool.
  match goal with
  | |- context [fold_left ?g all_playlists ?st0] =>
      assert (H : tick_invariant ho c players parties now pool dcs (fold_left g all_playlists st0))
  end.
  - match goal with
    | |- context [run_playlist _ _ _ _ _ _ ?ord] =>
        assert (Hord : forall x, In x ord -> In (snd x) pool)
    end.
    { intros [i s] Hx. eapply Permutation_in in Hx; [|apply sort_stable_perm].
      apply in_indexed in Hx. exact Hx. }
    generalize all_playlists.
    match goal with
    | |- forall l, tick_invariant _ _ _ _ _ _ _ (fold_left _ l ?st0) =>
        assert (H0 : tick_invariant ho c players parties now pool dcs st0)
    end.
    { split; [reflexivity|]. intros [|k] r Hk; discriminate. }
    intros l. revert H0. generalize {| matched := []; ts_dcs := dcs; results := [] |}.
    induction l as [|pl l IH]; intros st H0; simpl; [exact H0|].
    apply IH, run_playlist_inv; assumption.
  - destruct H as [H1 H2]. split; assumption.
Qed.

Lemma hash_order_set_incl ho : hash_order_ok ho -> forall l, incl (set_iter ho l) l.
Proof. intros [H _] l x Hx. eapply Permutation_in; [apply H | exact Hx]. Qed.

Lemma insertion_order_ok : hash_order_ok insertion_order.
Proof. repeat split; intros; reflexivity. Qed.

(** ** Server reservations *)

Lemma alist_get_modify_eq {K V} `{EqDecision K} (k : K) (f : V -> V) l :
  alist_get k (alist_modify k f l) = f <$> alist_get k l.
Proof.
  induction l as [|[k' v] l IH]; simpl; [reflexivity|].
  destruct (decide (k = k')); simpl; [rewrite decide_True by assumption; reflexivity|].
  rewrite decide_False by assumption. exact IH.
Qed.

Lemma alist_get_modify_neq {K V} `{EqDecision K} (k k' : K) (f : V -> V) l :
  k' <> k -> alist_get k' (alist_modify k f l) = alist_get k' l.
Proof.
  intros Hne. induction l as [|[k0 v] l IH]; simpl; [reflexivity|].
  destruct (decide (k = k0)) as [<-|Hk]; simpl.
  - rewrite !decide_False by assumption. reflexivity.
  - destruct (decide (k' = k0)); [reflexivity | exact IH].
Qed.

Lemma find_dc_cons dc rest id :
  find_dc (dc :: rest) id = if Nat.eqb (dc_id dc) id then Some dc else find_dc rest id.
Proof. reflexivity. Qed.

Lemma reserve_capacity dcs id pl :
  capacity_ok dcs ->
  (exists d, find_dc dcs id = Some d /\ (0 < available_servers d pl)%nat) ->
  capacity_ok (reserve_server dcs id pl).
Proof.
  induction dcs as [|dc rest IH]; intros Hcap [d [Hd Hav]]; simpl; [constructor|].
  inversion Hcap as [|? ? Hdc Hrest]; subst.
  rewrite find_dc_cons in Hd.
  destruct (Nat.eqb (dc_id dc) id).
  - injection Hd as <-. constructor; [|exact Hrest].
    intros p. simpl. unfold available_servers in Hav.
    destruct (decide (p = pl)) as [->|Hne].
    + rewrite alist_get_modify_eq. specialize (Hdc pl).
      destruct (alist_get pl (busy_servers dc)); simpl in *; lia.
    + rewrite alist_get_modify_neq by exact Hne. apply Hdc.
  - constructor; [exact Hdc|]. apply IH; [exact Hrest|]. exists d. split; assumption.
Qed.

Lemma release_capacity dcs id pl : capacity_ok dcs -> capacity_ok (release_server dcs id pl).
Proof.
  induction dcs as [|dc rest IH]; intros Hcap; simpl; [constructor|].
  inversion Hcap as [|? ? Hdc Hrest]; subst.
  destruct (Nat.eqb (dc_id dc) id).
  - constructor; [|exact Hrest].
    intros p. simpl. destruct (decide (p = pl)) as [->|Hne].
    + rewrite alist_get_modify_eq. specialize (Hdc pl).
      destruct (alist_get pl (busy_servers dc)); simpl in *; lia.
    + rewrite alist_get_modify_neq by exact Hne. apply Hdc.
  - constructor; [exact Hdc | apply IH, Hrest].
Qed.

Lemma find_dc_reserve dcs id pl d :
  find_dc dcs id = Some d ->
  find_dc (reserve_server dcs id pl) id = Some (set_busy d (alist_modify pl S (busy_servers d))).
Proof.
  induction dcs as [|dc rest IH]; intros Hd; [discriminate|].
  rewrite find_dc_cons in Hd. simpl. destruct (Nat.eqb (dc_id dc) id) eqn:E.
  - injection Hd as <-. rewrite find_dc_cons. simpl. rewrite E. reflexivity.
  - rewrite find_dc_cons, E. apply IH, Hd.
Qed.

Lemma find_dc_release dcs id pl d :
  find_dc dcs id = Some d ->
  find_dc (release_server dcs id pl) id
  = Some (set_busy d (alist_modify pl (fun b => (b - 1)%nat) (busy_servers d))).
Proof.
  induction dcs as [|dc rest IH]; intros Hd; [discriminate|].
  rewrite find_dc_cons in Hd. simpl. destruct (Nat.eqb (dc_id dc) id) eqn:E.
  - injection Hd as <-. rewrite find_dc_cons. simpl. rewrite E. reflexivity.
  - rewrite find_dc_cons, E. apply IH, Hd.
Qed.

Lemma check_feasibility_server ho c lobby pl now dcs players f :
  check_feasibility ho c lobby pl now dcs players = Some f ->
  exists d, find_dc dcs (fr_data_center_id f) = Some d /\ (0 < available_servers d pl)%nat.
Proof.
  unfold check_feasibility. intros H. repeat (case_match; try discriminate).
  injection H as <-. simpl.
  match goal with
  | Hf : find _ _ = Some _ |- _ => apply find_some in Hf as [_ Hhas]
  end.
  unfold dc_has_server in Hhas. destruct (find_dc dcs _) as [d|]; [|discriminate].
  exists d. split; [reflexivity|]. apply Nat.ltb_lt, Hhas.
Qed.

Lemma replay_capacity rs : forall dcs,
  capacity_ok dcs ->
  (forall k r, nth_error rs k = Some r ->
     exists d, find_dc (replay_reservations dcs (firstn k rs)) (data_center_id r) = Some d /\
               (0 < available_servers d (mr_playlist r))%nat) ->
  capacity_ok (replay_reservations dcs rs).
Proof.
  induction rs as [|r rs IH]; intros dcs Hcap Hav; [exact Hcap|].
  unfold replay_reservations. simpl. apply IH.
  - apply reserve_capacity; [exact Hcap|]. apply (Hav 0%nat r eq_refl).
  - intros k r' Hk. apply (Hav (S k) r' Hk).
Qed.

(** ** Team balancing keeps party groups together *)

Lemma push_nth_length {A} i (x : A) l : length (push_nth i x l) = length l.
Proof. revert i. induction l as [|t l IH]; intros [|i]; simpl; auto. Qed.

Lemma push_nth_keep {A} i (x : A) l j y :
  In y (nth j l []) -> In y (nth j (push_nth i x l) []).
Proof.
  revert i j. induction l as [|t l IH]; intros [|i] [|j] H; simpl in *; auto.
  apply in_or_app. left. exact H.
Qed.

Lemma push_nth_new {A} i (x : A) l : (i < length l)%nat -> In x (nth i (push_nth i x l) []).
Proof.
  revert i. induction l as [|t l IH]; intros [|i] H; simpl in *; try lia.
  - apply in_or_app. right. left. reflexivity.
  - apply IH. lia.
Qed.

Lemma push_all_spec (idx : nat) (ms : list nat) : forall ts,
  (idx < length ts)%nat ->
  let ts' := fold_left (fun t pid => push_nth idx pid t) ms ts in
  length ts' = length ts /\
  (forall j y, In y (nth j ts []) -> In y (nth j ts' [])) /\
  (forall y, In y ms -> In y (nth idx ts' [])).
Proof.
  induction ms as [|m ms IH]; intros ts Hidx; simpl; [split; [|split]; auto; contradiction|].
  destruct (IH (push_nth idx m ts)) as (H1 & H2 & H3); [rewrite push_nth_length; exact Hidx|].
  rewrite push_nth_length in H1.
  split; [exact H1|split].
  - intros j y Hy. apply H2, push_nth_keep, Hy.
  - intros y [<- | Hy]; [apply H2, push_nth_new, Hidx | apply H3, Hy].
Qed.

Lemma snake_fold_spec tc (sorted : list PartyEntry) : forall ts fwd idx,
  length ts = tc -> (idx < tc)%nat ->
  let '(ts', _, _) := fold_left (snake_step tc) sorted (ts, fwd, idx) in
  length ts' = tc /\
  (forall j y, In y (nth j ts []) -> In y (nth j ts' [])) /\
  (forall e, In e sorted -> exists j, (j < tc)%nat /\
     forall y, In y (entry_members e) -> In y (nth j ts' [])).
Proof.
  induction sorted as [|e sorted IH]; intros ts fwd idx Hlen Hidx; cbn [fold_left].
  - split; [exact Hlen|split; [auto|contradiction]].
  - destruct (@push_all_spec idx (entry_members e) ts) as (P1 & P2 & P3); [lia|].
    set (ts1 := fold_left (fun t pid => push_nth idx pid t) (entry_members e) ts) in *.
    assert (Hstep : exists fwd' idx', snake_step tc (ts, fwd, idx) e = (ts1, fwd', idx') /\
                                      (idx' < tc)%nat).
    { unfold snake_step. fold ts1.
      destruct fwd; [destruct (Nat.eqb idx (tc - 1)) eqn:E | destruct (Nat.eqb idx 0) eqn:E];
        apply Nat.eqb_eq in E || apply Nat.eqb_neq in E; eexists _, _; split; try reflexivity; lia. }
    destruct Hstep as (fwd' & idx' & -> & Hidx').
    specialize (IH ts1 fwd' idx' ltac:(lia) Hidx').
    destruct (fold_left (snake_step tc) sorted (ts1, fwd', idx')) as [[ts' f'] i'].
    destruct IH as (I1 & I2 & I3).
    split; [exact I1|split].
    + intros j y Hy. apply I2, P2, Hy.
    + intros e' [<- | He'].
      * exists idx. split; [exact Hidx|]. intros y Hy. apply I2, P3, Hy.
      * apply I3, He'.
Qed.

Lemma snake_draft_together tc entries e :
  (0 < tc)%nat -> In e entries ->
  exists t, In t (snake_draft tc entries) /\ forall y, In y (entry_members e) -> In y t.
Proof.
  intros Htc He. unfold snake_draft.
  set (sorted := sort_stable (fun a b => Qltb (entry_skill b) (entry_skill a)) entries).
  assert (Hs : In e sorted).
  { eapply Permutation_in; [symmetry; apply sort_stable_perm | exact He]. }
  pose proof (@snake_fold_spec tc sorted (repeat [] tc) true 0 (repeat_length _ _) Htc) as H.
  destruct (fold_left (snake_step tc) sorted (repeat [] tc, true, 0%nat)) as [[ts f] i].
  destruct H as (H1 & _ & H3). destruct (H3 e Hs) as (j & Hj & Hin).
  exists (nth j ts []). split; [apply nth_In; lia | exact Hin].
Qed.

Lemma in_indexed_from {A} (e : A) l : forall s,
  In e l -> exists i, In (i, e) (combine (seq s (length l)) l).
Proof.
  induction l as [|x l IH]; intros s He; [contradiction|].
  destruct He as [<- | He].
  - exists s. left. reflexivity.
  - destruct (IH (S s) He) as [i Hi]. exists i. right. exact Hi.
Qed.

Lemma build_teams_together entries t e :
  In e entries ->
  exists tm, In tm (build_teams entries t) /\ forall y, In y (entry_members e) -> In y tm.
Proof.
  intros He. destruct (@in_indexed_from _ e entries 0 He) as [i Hi].
  unfold build_teams. destruct (memb i t) eqn:Em.
  - eexists. split; [left; reflexivity|]. intros y Hy. apply in_concat.
    exists (entry_members e). split; [|exact Hy].
    apply in_map_iff. exists (i, e). rewrite Em. split; [reflexivity | exact Hi].
  - eexists. split; [right; left; reflexivity|]. intros y Hy. apply in_concat.
    exists (entry_members e). split; [|exact Hy].
    apply in_map_iff. exists (i, e). rewrite Em. split; [reflexivity | exact Hi].
Qed.

Lemma exact_partition_recursive_shape entries tts fuel : forall idx t1 s1 k1 best depth
    (best0 : Q * option (list (list nat))),
  (snd best = snd best0 \/ exists t, snd best = Some (build_teams entries t)) ->
  (snd (exact_partition_recursive entries tts fuel idx t1 s1 k1 best depth) = snd best0 \/
   exists t, snd (exact_partition_recursive entries tts fuel idx t1 s1 k1 best depth)
             = Some (build_teams entries t)).
Proof.
  induction fuel as [|fuel IH]; intros idx t1 s1 k1 best depth best0 Hb; simpl; [exact Hb|].
  destruct (Nat.ltb 1000 depth); [exact Hb|].
  destruct (Nat.leb (length entries) idx).
  - destruct (Nat.eqb s1 tts); [|exact Hb].
    case_match; [right; eexists; reflexivity | exact Hb].
  - destruct (nth_error entries idx) as [e|]; [|exact Hb].
    match goal with
    | |- context [exact_partition_recursive entries tts fuel (S idx) t1 s1 k1 ?b1 (S depth)] =>
        assert (Hb1 : snd b1 = snd best0 \/ exists t, snd b1 = Some (build_teams entries t))
    end.
    { repeat case_match; try exact Hb. apply IH, Hb. }
    destruct (Nat.ltb s1 tts); [apply IH, Hb1 | exact Hb1].
Qed.

Lemma exact_partition_teams_shape entries required best :
  exact_partition_teams entries required = Some best ->
  exists t, best = build_teams entries t.
Proof.
  unfold exact_partition_teams. destruct (negb _); [discriminate|].
  intros H.
  destruct (@exact_partition_recursive_shape entries (Nat.div required 2) (S (length entries))
              0 [] 0 0 (f64_MAX, None) 0 (f64_MAX, None) (or_introl eq_refl)) as [E | [t E]];
    rewrite E in H; [discriminate|].
  injection H as <-. exists t. reflexivity.
Qed.

Lemma group_push_keys k pid g k' :
  In k' (map fst (group_push k pid g)) -> k' = k \/ In k' (map fst g).
Proof.
  induction g as [|[k0 ms] g IH]; simpl; [intros [<- | []]; left; reflexivity|].
  destruct (decide (k = k0)); simpl; [tauto|]. intros [<- | H]; [tauto|].
  destruct (IH H); tauto.
Qed.

Lemma group_push_nodup k pid g : List.NoDup (map fst g) -> List.NoDup (map fst (group_push k pid g)).
Proof.
  induction g as [|[k0 ms] g IH]; simpl; intros Hnd; [constructor; [intros []|constructor]|].
  apply NoDup_cons_iff in Hnd as [Hk0 Hg].
  destruct (decide (k = k0)); simpl; [constructor; assumption|].
  constructor; [|apply IH, Hg].
  intros Hin. apply group_push_keys in Hin as [Hin | Hin]; [congruence | contradiction].
Qed.

Lemma group_push_keep k pid g k' ms x :
  In (k', ms) g -> In x ms -> exists ms', In (k', ms') (group_push k pid g) /\ In x ms'.
Proof.
  induction g as [|[k0 ms0] g IH]; simpl; [contradiction|].
  intros [[= -> ->] | Hin] Hx.
  - destruct (decide (k = k')).
    + eexists. split; [left; reflexivity | apply in_or_app; left; exact Hx].
    + eexists. split; [left; reflexivity | exact Hx].
  - destruct (decide (k = k0)).
    + eexists. split; [right; exact Hin | exact Hx].
    + destruct (IH Hin Hx) as (ms' & H1 & H2). eexists. split; [right; exact H1 | exact H2].
Qed.

Lemma group_push_new k pid g : exists ms, In (k, ms) (group_push k pid g) /\ In pid ms.
Proof.
  induction g as [|[k0 ms0] g IH]; simpl.
  - eexists. split; [left; reflexivity | left; reflexivity].
  - destruct (decide (k = k0)) as [<-|].
    + eexists. split; [left; reflexivity | apply in_or_app; right; left; reflexivity].
    + destruct IH as (ms & H1 & H2). eexists. split; [right; exact H1 | exact H2].
Qed.

Lemma group_by_party_spec players ids :
  List.NoDup (map fst (group_by_party players ids)) /\
  forall x, In x ids -> exists ms,
    In (players !! x ≫= party_id, ms) (group_by_party players ids) /\ In x ms.
Proof.
  unfold group_by_party.
  assert (H : forall g, List.NoDup (map fst g) ->
    List.NoDup (map fst (fold_left (fun g pid => group_push (players !! pid ≫= party_id) pid g) ids g)) /\
    forall x, (In x ids \/ exists ms, In (players !! x ≫= party_id, ms) g /\ In x ms) ->
      exists ms, In (players !! x ≫= party_id, ms)
        (fold_left (fun g pid => group_push (players !! pid ≫= party_id) pid g) ids g) /\ In x ms).
  { induction ids as [|y ids IH]; intros g Hnd; simpl.
    - split; [exact Hnd|]. intros x [[] | H]; exact H.
    - destruct (IH (group_push (players !! y ≫= party_id) y g)) as [I1 I2];
        [apply group_push_nodup, Hnd|].
      split; [exact I1|]. intros x Hx. apply I2.
      destruct Hx as [[<- | Hx] | (ms & Hms & Hx)].
      + right. apply group_push_new.
      + left. exact Hx.
      + right. eapply group_push_keep; eassumption. }
  destruct (H [] (List.NoDup_nil _)) as [H1 H2]. split; [exact H1|].
  intros x Hx. apply H2. left. exact Hx.
Qed.

Lemma nodup_fst_unique {K V} (g : list (K * V)) k m1 m2 :
  List.NoDup (map fst g) -> In (k, m1) g -> In (k, m2) g -> m1 = m2.
Proof.
  induction g as [|[k0 m0] g IH]; simpl; [contradiction|].
  intros Hnd. apply NoDup_cons_iff in Hnd as [Hk0 Hg].
  intros [[= <- <-] | H1] [[= <-] | H2]; auto.
  - exfalso. apply Hk0. apply (in_map fst) in H2. exact H2.
  - exfalso. apply Hk0. apply (in_map fst) in H1. exact H1.
Qed.

Lemma team_count_pos pl : (0 < team_count pl)%nat.
Proof. destruct pl; simpl; lia. Qed.

Lemma balance_teams_party_intact ho c ids players parties pl :
  hash_order_ok ho -> Nat.eqb (team_count pl) (length ids) = false ->
  party_intact players ids (balance_teams ho c ids players parties pl).
Proof.
  intros [_ [_ Hgrp]] Htc a b k pa pb Ha Hb Hpa Hpb Hka Hkb.
  destruct (group_by_party_spec players ids) as [Hnd Hcov].
  destruct (Hcov a Ha) as (msa & Hga & Hina).
  destruct (Hcov b Hb) as (msb & Hgb & Hinb).
  rewrite Hpa in Hga. rewrite Hpb in Hgb. simpl in Hga, Hgb. rewrite Hka in Hga. rewrite Hkb in Hgb.
  pose proof (nodup_fst_unique _ _ _ _ Hnd Hga Hgb) as <-.
  unfold balance_teams. rewrite Htc.
  set (entries := map (fun '(k0, ms) => (k0, ms, entry_avg_skill players parties k0 ms, length ms))
                      (group_iter ho (group_by_party players ids)) : list PartyEntry).
  assert (He : In (Some k, msa, entry_avg_skill players parties (Some k) msa, length msa) entries).
  { unfold entries. apply in_map_iff. exists (Some k, msa). split; [reflexivity|].
    eapply Permutation_in; [symmetry; apply Hgrp | exact Hga]. }
  assert (Hsnake : same_team (snake_draft (team_count pl) entries) a b).
  { destruct (@snake_draft_together (team_count pl) entries _ (team_count_pos pl) He)
      as (t & Ht & Hall).
    exists t. split; [exact Ht|]. split; apply Hall; assumption. }
  destruct (_ && _); [|exact Hsnake].
  destruct (exact_partition_teams entries (required_players pl)) as [best|] eqn:Ex; [|exact Hsnake].
  apply exact_partition_teams_shape in Ex as [t ->].
  destruct (@build_teams_together entries t _ He) as (tm & Htm & Hall).
  exists tm. split; [exact Htm|]. split; apply Hall; assumption.
Qed.

Lemma length_concat_ids (l : list SearchObject) :
  length (concat (map player_ids l)) = sum_nat (map size l).
Proof.
  induction l as [|x l IH]; [reflexivity|].
  cbn [map concat]. rewrite length_app, IH.
  change (sum_nat (size x :: map size l)) with (sum_nat ([size x] ++ map size l)).
  rewrite sum_nat_app. reflexivity.
Qed.

Lemma team_count_required pl :
  pl <> FreeForAll -> Nat.eqb (team_count pl) (required_players pl) = false.
Proof. destruct pl; simpl; try reflexivity. congruence. Qed.

(** ** The distance of a search object to itself *)

Lemma distance_km_self a : distance_km a a = 0%R.
Proof.
  unfold distance_km. cbv zeta.
  assert (H0 : forall q, (to_radians (Q2R (q - q)) / 2 = 0)%R).
  { intros q. unfold to_radians. rewrite Q2R_minus. field. }
  rewrite !H0, sin_0.
  replace (0 ^ 2 + cos (to_radians (Q2R (lat a))) * cos (to_radians (Q2R (lat a))) * 0 ^ 2)%R
    with 0%R by ring.
  rewrite sqrt_0, asin_0. ring.
Qed.

Lemma calculate_distance_self_split c x :
  calculate_distance c x x
  = (Q2R (weight_input c) * input_device_distance x x
     + Q2R (weight_platform c) * platform_distance x x)%R.
Proof.
  unfold calculate_distance. cbv zeta. rewrite distance_km_self, Q2R_minus.
  rewrite Rminus_diag, Rabs_R0. field.
Qed.

Lemma input_device_distance_self x :
  input_device_distance x x
  = if Nat.ltb 0 (device_count MouseKeyboard x) && Nat.ltb 0 (device_count Controller x)
    then (1 / 2)%R else 0%R.
Proof.
  unfold input_device_distance. cbv zeta.
  destruct (Nat.ltb 0 (device_count MouseKeyboard x)), (Nat.ltb 0 (device_count Controller x));
    reflexivity.
Qed.

Lemma platform_distance_self x :
  platform_distance x x = match platforms x with [] => (3 / 10)%R | _ => 0%R end.
Proof.
  unfold platform_distance. cbv zeta.
  destruct (platforms x) as [|[k n] rest]; [reflexivity|].
  cbn [map forallb fst]. assert (H : memb k (k :: map fst rest) = true) by (apply memb_In; left; reflexivity).
  rewrite H. reflexivity.
Qed.

(** ** Session bookkeeping *)

Lemma incr_at_nth n : forall v, nth n (incr_at n v) 0%nat = S (nth n v 0%nat).
Proof.
  induction n as [|n IH]; intros [|x v]; simpl; auto.
  rewrite IH. destruct n; reflexivity.
Qed.

(** ** Party operations *)

Lemma update_aggregates_ids pt pl : pt_player_ids (update_aggregates pt pl) = pt_player_ids pt.
Proof. unfold update_aggregates. destruct (omap _ _); reflexivity. Qed.

Lemma update_aggregates_leader pt pl : leader_id (update_aggregates pt pl) = leader_id pt.
Proof. unfold update_aggregates. destruct (omap _ _); reflexivity. Qed.

Lemma filter_neq_In player x l :
  In x l -> x <> player -> In x (List.filter (fun id => negb (Nat.eqb id player)) l).
Proof.
  intros Hin Hne. apply filter_In. split; [exact Hin|].
  apply Nat.eqb_neq in Hne. rewrite Hne. reflexivity.
Qed.

(** ** One tick never places a search, or a player, twice *)

Lemma NoDup_app_disj {A} (l1 l2 : list A) x :
  List.NoDup (l1 ++ l2) -> In x l1 -> In x l2 -> False.
Proof.
  induction l1 as [|y l1 IH]; intros Hnd H1 H2; [contradiction|].
  simpl in Hnd. apply NoDup_cons_iff in Hnd as [Hy Hnd].
  destruct H1 as [<- | H1]; [|exact (IH Hnd H1 H2)].
  apply Hy, in_or_app. right. exact H2.
Qed.

Lemma concat_nodup_uniq {A B} (f : A -> list B) P a b x :
  List.NoDup P -> List.NoDup (concat (map f P)) ->
  In a P -> In b P -> In x (f a) -> In x (f b) -> a = b.
Proof.
  induction P as [|p P IH]; intros HP Hc Ha Hb Hxa Hxb; [contradiction|].
  apply NoDup_cons_iff in HP as [Hp HP]. simpl in Hc.
  assert (Hin : forall y, In y P -> In x (f y) -> In x (concat (map f P))).
  { intros y Hy Hxy. apply in_concat. exists (f y). split; [apply in_map|]; assumption. }
  destruct Ha as [<- | Ha], Hb as [<- | Hb]; auto.
  - exfalso. exact (NoDup_app_disj _ _ _ Hc Hxa (Hin b Hb Hxb)).
  - exfalso. exact (NoDup_app_disj _ _ _ Hc Hxb (Hin a Ha Hxa)).
  - exact (IH HP (NoDup_app_remove_l _ _ Hc) Ha Hb Hxa Hxb).
Qed.

Lemma concat_nodup_incl {A B} (f : A -> list B) P M :
  List.NoDup P -> List.NoDup (concat (map f P)) ->
  List.NoDup M -> incl M P -> List.NoDup (concat (map f M)).
Proof.
  intros HP Hc. induction M as [|m M IH]; intros HM Hinc; simpl; [constructor|].
  apply NoDup_cons_iff in HM as [Hm HM].
  assert (HmP : In m P) by (apply Hinc; left; reflexivity).
  apply List.NoDup_app.
  - clear -HmP Hc. induction P as [|p P IH]; [contradiction|].
    simpl in Hc. destruct HmP as [<- | HmP].
    + exact (NoDup_app_remove_r _ _ Hc).
    + exact (IH (NoDup_app_remove_l _ _ Hc) HmP).
  - apply IH; [exact HM|]. intros y Hy. apply Hinc. right. exact Hy.
  - intros x Hx Hx'. apply in_concat in Hx' as [l [Hl Hxl]].
    apply in_map_iff in Hl as [m' [<- Hm']].
    assert (m = m') as <-.
    { apply (@concat_nodup_uniq A B f P m m' x HP Hc HmP); [apply Hinc; right|..]; assumption. }
    exact (Hm Hm').
Qed.

Lemma map_fst_indexed_from {A} (l : list A) : forall k,
  map fst (combine (seq k (length l)) l) = seq k (length l).
Proof. induction l as [|x l IH]; intros k; simpl; [reflexivity|]. rewrite IH. reflexivity. Qed.

Lemma map_snd_indexed_from {A} (l : list A) : forall k,
  map snd (combine (seq k (length l)) l) = l.
Proof. induction l as [|x l IH]; intros k; simpl; [reflexivity|]. rewrite IH. reflexivity. Qed.

Lemma indexed_nodup {A} (l : list A) : List.NoDup (indexed l).
Proof.
  apply (NoDup_map_inv fst). unfold indexed. rewrite map_fst_indexed_from. apply seq_NoDup.
Qed.

Lemma greedy_fold_nodup ho c players now pl dcs cands : forall lobby n,
  List.NoDup (lobby ++ map fst cands) ->
  List.NoDup (fst (fold_left (greedy_step ho c players now pl dcs) cands (lobby, n))) /\
  incl (fst (fold_left (greedy_step ho c players now pl dcs) cands (lobby, n)))
       (lobby ++ map fst cands).
Proof.
  induction cands as [|[[i s] d] cands IH]; intros lobby n Hnd; simpl.
  - rewrite app_nil_r in Hnd |- *. split; [exact Hnd | intros y Hy; exact Hy].
  - assert (Hsub : incl (lobby ++ map fst cands) (lobby ++ (i, s) :: map fst cands)).
    { intros y Hy. apply in_app_or in Hy as [Hy | Hy]; apply in_or_app; [left | right; right]; exact Hy. }
    assert (Hrem := NoDup_remove_1 _ _ _ Hnd).
    unfold greedy_step at 2.
    destruct (Nat.leb _ _).
    { destruct (IH lobby n Hrem) as [H1 H2]. split; [exact H1|]. intros y Hy; apply Hsub, H2, Hy. }
    destruct (Nat.ltb _ _).
    { destruct (IH lobby n Hrem) as [H1 H2]. split; [exact H1|]. intros y Hy; apply Hsub, H2, Hy. }
    destruct (check_feasibility _ _ _ _ _ _ _).
    + destruct (IH (lobby ++ [(i, s)]) (n + size s)%nat) as [H1 H2].
      { rewrite <- app_assoc. exact Hnd. }
      split; [exact H1|]. intros y Hy. rewrite <- app_assoc in H2. apply H2, Hy.
    + destruct (IH lobby n Hrem) as [H1 H2]. split; [exact H1|]. intros y Hy; apply Hsub, H2, Hy.
Qed.

Lemma map_fst_firstn {A B} n (L : list (A * B)) :
  map fst L = map fst (firstn n L) ++ map fst (skipn n L).
Proof. rewrite <- map_app, firstn_skipn. reflexivity. Qed.

(** The candidate list of the seed loop, as entries of the queue. *)
Lemma candidates_fst k (lt : (nat * SearchObject) * Q -> (nat * SearchObject) * Q -> bool)
    (d : SearchObject -> Q) F :
  List.NoDup F ->
  List.NoDup (map fst (firstn k (sort_stable lt (map (fun '(i, s) => ((i, s), d s)) F)))) /\
  incl (map fst (firstn k (sort_stable lt (map (fun '(i, s) => ((i, s), d s)) F)))) F.
Proof.
  intros HF.
  assert (Hid : map fst (map (fun '(i, s) => ((i, s), d s)) F) = F).
  { clear HF. induction F as [|[i s] F IH]; simpl; [reflexivity|]. rewrite IH. reflexivity. }
  assert (Hp : Permutation (map fst (sort_stable lt (map (fun '(i, s) => ((i, s), d s)) F))) F).
  { rewrite <- Hid at 2. apply Permutation_map, sort_stable_perm. }
  rewrite (map_fst_firstn k) in Hp.
  split.
  - apply (NoDup_app_remove_r _ _ (Permutation_NoDup (Permutation_sym Hp) HF)).
  - intros y Hy. apply (Permutation_in _ Hp), in_or_app. left. exact Hy.
Qed.

Lemma try_seed_matched ho c distance players parties now pool pl ps st seed :
  List.NoDup ps -> incl ps pool -> In seed ps ->
  matched_entries pool st ->
  matched_entries pool (try_seed ho c distance players parties now pl ps st seed).
Proof.
  destruct seed as [i0 s0].
  intros Hnd Hinc Hseed (M & HM & HMp & Hmat & Hres). unfold try_seed.
  destruct (memb (so_id (snd (i0, s0))) (matched st)) eqn:Hm; [exists M; auto|].
  match goal with
  | |- context [fold_left _ ?cs ([(i0, s0)], size (snd (i0, s0)))] => set (cands := cs)
  end.
  assert (Hcand : List.NoDup (map fst cands) /\
            incl (map fst cands)
              (List.filter (fun '(i, s) => negb (Nat.eqb i (fst (i0, s0)))
                                           && negb (memb (so_id s) (matched st))) ps))
    by (apply candidates_fst; apply List.NoDup_filter; exact Hnd).
  pose proof (greedy_fold_nodup ho c players now pl (ts_dcs st) cands
                [(i0, s0)] (size (snd (i0, s0)))) as Hg.
  match goal with
  | |- context [fold_left ?g cands ?init] =>
      destruct (fold_left g cands init) as [lobby n] eqn:Hf
  end.
  destruct Hcand as [Hcnd Hcinc].
  assert (Hcand : forall y, In y (map fst cands) ->
                    In y ps /\ memb (so_id (snd y)) (matched st) = false).
  { intros [i s] Hy. apply Hcinc, filter_In in Hy as [Hy Hb].
    apply andb_prop in Hb as [_ Hb]. split; [exact Hy|]. apply negb_true_iff, Hb. }
  destruct Hg as [Hlnd Hlinc].
  { simpl. constructor; [|exact Hcnd].
    intros Hin. apply Hcinc, filter_In in Hin as [_ Hb]. simpl in Hb.
    rewrite Nat.eqb_refl in Hb. discriminate. }
  simpl in Hlnd, Hlinc.
  assert (Hlobby : forall y, In y lobby -> In y ps /\ memb (so_id (snd y)) (matched st) = false).
  { intros y Hy. apply Hlinc in Hy as [<- | Hy]; [split; assumption|]. apply Hcand, Hy. }
  destruct (Nat.eqb n (required_players pl)); [|exists M; auto].
  destruct (check_feasibility _ _ _ _ _ _ _) as [f|]; [|exists M; auto].
  exists (M ++ lobby). split; [|split; [|split]].
  - apply List.NoDup_app; [exact HM|exact Hlnd|].
    intros x HxM HxL. destruct (Hlobby x HxL) as [_ Hx].
    assert (Hin : In (so_id (snd x)) (matched st)) by (rewrite Hmat; apply (in_map (fun y : nat * SearchObject => so_id (snd y))), HxM).
    apply memb_In in Hin. congruence.
  - intros x Hx. apply in_app_or in Hx as [Hx | Hx]; [apply HMp, Hx|].
    apply Hinc, (Hlobby x Hx).
  - cbn [matched]. rewrite Hmat, map_app. apply (f_equal (app _)). apply map_ext. intros [? ?]. reflexivity.
  - simpl. rewrite !map_app, !concat_app, Hres. f_equal. simpl. rewrite app_nil_r.
    cbn [make_result mr_player_ids]. rewrite map_map. reflexivity.
Qed.

Lemma try_seed_fold_matched ho c distance players parties now pool pl ps :
  List.NoDup ps -> incl ps pool ->
  forall l st, incl l ps -> matched_entries pool st ->
  matched_entries pool (fold_left (try_seed ho c distance players parties now pl ps) l st).
Proof.
  intros Hnd Hinc l. induction l as [|y l IH]; intros st Hl Hst; simpl; [exact Hst|].
  apply IH; [intros z Hz; apply Hl; right; exact Hz|].
  apply try_seed_matched; auto. apply Hl. left. reflexivity.
Qed.

Lemma run_playlist_matched ho c distance players parties now pool order st pl :
  List.NoDup order -> incl order pool -> matched_entries pool st ->
  matched_entries pool (run_playlist ho c distance players parties now order st pl).
Proof.
  intros Hnd Hinc Hst. unfold run_playlist.
  apply try_seed_fold_matched; [apply List.NoDup_filter, Hnd| |intros y Hy; exact Hy|exact Hst].
  intros y Hy. apply filter_In in Hy as [Hy _]. apply Hinc, Hy.
Qed.

Lemma run_tick_matched ho c distance searches players dcs parties now :
  exists st,
    run_tick ho c distance searches players dcs parties now
    = (List.filter (fun s => negb (memb (so_id s) (matched st)))
                   (map (refresh_acceptable_dcs c players dcs now) searches),
       ts_dcs st, results st) /\
    matched_entries (indexed (map (refresh_acceptable_dcs c players dcs now) searches)) st.
Proof.
  unfold run_tick. eexists. split; [reflexivity|].
  match goal with
  | |- context [run_playlist _ _ _ _ _ _ ?ord] =>
      assert (Hord : Permutation ord (indexed (map (refresh_acceptable_dcs c players dcs now) searches)))
        by apply sort_stable_perm
  end.
  assert (Hnd := Permutation_NoDup (Permutation_sym Hord) (indexed_nodup _)).
  assert (Hinc : incl _ _) by (intros y Hy; exact (Permutation_in _ Hord Hy)).
  generalize all_playlists.
  match goal with
  | |- forall l, matched_entries _ (fold_left _ l ?st0) =>
      assert (H0 : matched_entries (indexed (map (refresh_acceptable_dcs c players dcs now) searches)) st0)
  end.
  { exists []. repeat split; [constructor|intros y []]. }
  intros l. revert H0. generalize {| matched := []; ts_dcs := dcs; results := [] |}.
  induction l as [|pl l IH]; intros st H0; simpl; [exact H0|].
  apply IH, run_playlist_matched; assumption.
Qed.

Lemma queue_players c players dcs now searches :
  concat (map (fun x => player_ids (snd x)) (indexed (map (refresh_acceptable_dcs c players dcs now) searches)))
  = concat (map player_ids searches).
Proof.
  rewrite <- (map_map snd player_ids). unfold indexed. rewrite map_snd_indexed_from.
  rewrite map_map. reflexivity.
Qed.

(** ** Team balancing partitions the roster *)

Lemma perm_concat {A} (l l' : list (list A)) : Permutation l l' -> Permutation (concat l) (concat l').
Proof.
  induction 1 as [|x l l' _ IH|x y l|l l' l'' _ IH1 _ IH2]; simpl.
  - constructor.
  - apply Permutation_app_head, IH.
  - rewrite !app_assoc. apply Permutation_app_tail, Permutation_app_comm.
  - etransitivity; eassumption.
Qed.

Lemma push_nth_concat {A} i (x : A) l :
  (i < length l)%nat -> Permutation (concat (push_nth i x l)) (concat l ++ [x]).
Proof.
  revert i. induction l as [|t l IH]; intros [|i] H; simpl in *; try lia.
  - rewrite <- !app_assoc. apply Permutation_app_head, Permutation_app_comm.
  - rewrite <- app_assoc. apply Permutation_app_head, IH. lia.
Qed.

Lemma push_all_concat (idx : nat) (ms : list nat) : forall ts,
  (idx < length ts)%nat ->
  Permutation (concat (fold_left (fun t pid => push_nth idx pid t) ms ts)) (concat ts ++ ms).
Proof.
  induction ms as [|m ms IH]; intros ts Hidx; simpl; [rewrite app_nil_r; reflexivity|].
  etransitivity; [apply IH; rewrite push_nth_length; exact Hidx|].
  change (m :: ms) with ([m] ++ ms). rewrite app_assoc.
  apply Permutation_app_tail, push_nth_concat, Hidx.
Qed.

Lemma snake_fold_concat tc (sorted : list PartyEntry) : forall ts fwd idx,
  length ts = tc -> (idx < tc)%nat ->
  let '(ts', _, _) := fold_left (snake_step tc) sorted (ts, fwd, idx) in
  Permutation (concat ts') (concat ts ++ concat (map entry_members sorted)).
Proof.
  induction sorted as [|e sorted IH]; intros ts fwd idx Hlen Hidx; cbn [fold_left].
  - simpl. rewrite app_nil_r. reflexivity.
  - set (ts1 := fold_left (fun t pid => push_nth idx pid t) (entry_members e) ts).
    assert (Hl1 : length ts1 = tc).
    { destruct (@push_all_spec idx (entry_members e) ts) as (P1 & _); [lia|]. unfold ts1. lia. }
    assert (Hstep : exists fwd' idx', snake_step tc (ts, fwd, idx) e = (ts1, fwd', idx') /\
                                      (idx' < tc)%nat).
    { unfold snake_step. fold ts1.
      destruct fwd; [destruct (Nat.eqb idx (tc - 1)) eqn:E | destruct (Nat.eqb idx 0) eqn:E];
        apply Nat.eqb_eq in E || apply Nat.eqb_neq in E; eexists _, _; split; try reflexivity; lia. }
    destruct Hstep as (fwd' & idx' & -> & Hidx').
    specialize (IH ts1 fwd' idx' Hl1 Hidx').
    destruct (fold_left (snake_step tc) sorted (ts1, fwd', idx')) as [[ts' f'] i'].
    etransitivity; [exact IH|]. cbn [map concat]. rewrite app_assoc.
    apply Permutation_app_tail. unfold ts1. apply push_all_concat. lia.
Qed.

Lemma snake_draft_concat tc entries :
  (0 < tc)%nat ->
  length (snake_draft tc entries) = tc /\
  Permutation (concat (snake_draft tc entries)) (concat (map entry_members entries)).
Proof.
  intros Htc. unfold snake_draft.
  set (sorted := sort_stable (fun a b => Qltb (entry_skill b) (entry_skill a)) entries).
  pose proof (@snake_fold_spec tc sorted (repeat [] tc) true 0 (repeat_length _ _) Htc) as H.
  pose proof (@snake_fold_concat tc sorted (repeat [] tc) true 0 (repeat_length _ _) Htc) as H'.
  destruct (fold_left (snake_step tc) sorted (repeat [] tc, true, 0%nat)) as [[ts f] i].
  split; [apply H|].
  etransitivity; [exact H'|].
  assert (Hz : forall n, concat (@repeat (list nat) [] n) = []) by (induction n; simpl; auto).
  rewrite Hz. simpl. apply perm_concat, Permutation_map. apply sort_stable_perm.
Qed.

Lemma build_teams_concat entries t :
  length (build_teams entries t) = 2%nat /\
  Permutation (concat (build_teams entries t)) (concat (map entry_members entries)).
Proof.
  split; [reflexivity|]. unfold build_teams. cbn [concat]. rewrite app_nil_r.
  assert (H : forall L : list (nat * PartyEntry),
    Permutation
      (concat (map (fun '(i, e) => if memb i t then entry_members e else []) L) ++
       concat (map (fun '(i, e) => if memb i t then [] else entry_members e) L))
      (concat (map (fun x => entry_members (snd x)) L))).
  { induction L as [|[i e] L IH]; simpl; [constructor|].
    destruct (memb i t); simpl.
    - rewrite <- app_assoc. apply Permutation_app_head, IH.
    - etransitivity; [apply Permutation_app_swap_app|]. apply Permutation_app_head, IH. }
  etransitivity; [apply H|].
  rewrite <- (map_map snd entry_members). unfold indexed. rewrite map_snd_indexed_from.
  reflexivity.
Qed.

Lemma group_push_concat k pid g :
  Permutation (concat (map snd (group_push k pid g))) (concat (map snd g) ++ [pid]).
Proof.
  induction g as [|[k0 ms] g IH]; simpl; [reflexivity|].
  destruct (decide (k = k0)); simpl.
  - rewrite <- !app_assoc. apply Permutation_app_head, Permutation_app_comm.
  - rewrite <- app_assoc. apply Permutation_app_head, IH.
Qed.

Lemma group_by_party_concat players ids :
  Permutation (concat (map snd (group_by_party players ids))) ids.
Proof.
  unfold group_by_party.
  assert (H : forall g, Permutation
    (concat (map snd (fold_left (fun g pid => group_push (players !! pid ≫= party_id) pid g) ids g)))
    (concat (map snd g) ++ ids)).
  { induction ids as [|y ids IH]; intros g; simpl; [rewrite app_nil_r; reflexivity|].
    etransitivity; [apply IH|].
    change (y :: ids) with ([y] ++ ids). rewrite app_assoc.
    apply Permutation_app_tail, group_push_concat. }
  apply H.
Qed.

(** ** Acceptable data centers widen with the wait *)

Lemma Qltb_iff x y : Qltb x y = true <-> x < y.
Proof.
  unfold Qltb. rewrite negb_true_iff. split.
  - intros H. apply Qnot_le_lt. intros Hle. apply Qle_bool_iff in Hle. congruence.
  - intros H. destruct (Qle_bool y x) eqn:E; [|reflexivity].
    apply Qle_bool_iff in E. Lqa.lra.
Qed.

Lemma acceptable_regions_mono w1 w2 r :
  w1 <= w2 -> incl (acceptable_regions w1 r) (acceptable_regions w2 r).
Proof.
  intros Hw x Hx. unfold acceptable_regions in *.
  destruct (Qltb w2 30) eqn:E2.
  - apply Qltb_iff in E2. destruct (Qltb w2 10) eqn:E1.
    + apply Qltb_iff in E1.
      assert (E : Qltb w1 10 = true) by (apply Qltb_iff; Lqa.lra). rewrite E in Hx. exact Hx.
    + destruct (Qltb w1 10); [destruct Hx as [<- | []]; left; reflexivity|].
      assert (E : Qltb w1 30 = true) by (apply Qltb_iff; Lqa.lra).
      rewrite E in Hx. exact Hx.
  - destruct (Qltb w2 10) eqn:E1; [apply Qltb_iff in E1; apply Qltb_false in E2; Lqa.lra|].
    destruct x; simpl; repeat ((left; reflexivity) || right).
Qed.

Lemma region_delta_ping_backoff_mono c r w1 w2 :
  0 <= get_region_delta_ping_rate c r -> w1 <= w2 ->
  region_delta_ping_backoff c r w1 <= region_delta_ping_backoff c r w2.
Proof.
  intros Hr Hw. unfold region_delta_ping_backoff.
  apply Q.min_le_compat_r. apply Qplus_le_r. rewrite !(Qmult_comm (get_region_delta_ping_rate c r)). apply Qmult_le_compat_r; assumption.
Qed.

(** ** Creating a party *)

Lemma validate_members pl ids : forall ps,
  validate_party_players pl ids = inr ps ->
  length ps = length ids /\ (forall id, In id ids -> party_member_ok pl id) /\
  (player_keys_ok pl -> map p_id ps = ids).
Proof.
  induction ids as [|i ids IH]; intros ps H; simpl in H.
  - injection H as <-. split; [reflexivity|split; [intros _ []|reflexivity]].
  - destruct (pl !! i) as [p|] eqn:Ep; [|discriminate].
    destruct (bool_decide (party_id p <> None)) eqn:Eb; [discriminate|].
    destruct (lobby_or_offline (state p)) eqn:El; [|discriminate]. cbn [negb] in H.
    destruct (validate_party_players pl ids) as [e|ps'] eqn:Ev; [discriminate|].
    injection H as <-. destruct (IH ps' eq_refl) as (H1 & H2 & H3).
    split; [simpl; rewrite H1; reflexivity|split].
    + intros id [<- | Hid]; [|apply H2, Hid].
      exists p. split; [exact Ep|split; [|exact El]].
      apply bool_decide_eq_false in Eb. destruct (party_id p); [|reflexivity].
      exfalso. apply Eb. discriminate.
    + intros Hk. simpl. rewrite (Hk i p Ep), H3 by exact Hk. reflexivity.
Qed.

Lemma validate_complete pl ids :
  (forall id, In id ids -> party_member_ok pl id) ->
  exists ps, validate_party_players pl ids = inr ps.
Proof.
  induction ids as [|i ids IH]; intros H; simpl; [eexists; reflexivity|].
  destruct (H i (or_introl eq_refl)) as (p & Ep & Hn & Hl).
  rewrite Ep, Hn, Hl. cbn [negb].
  rewrite bool_decide_eq_false_2 by (intros C; apply C; reflexivity).
  destruct IH as [ps Hps]; [intros id Hid; apply H; right; exact Hid|].
  rewrite Hps. eexists. reflexivity.
Qed.

Lemma fold_set_party (ids : list nat) v : forall (m : gmap nat Player) id,
  fold_left (fun m id => match m !! id with
                         | Some p => <[id := set_party_id p v]> m
                         | None => m
                         end) ids m !! id
  = if memb id ids then (fun p => set_party_id p v) <$> m !! id else m !! id.
Proof.
  induction ids as [|x ids IH]; intros m id; simpl; [reflexivity|].
  rewrite IH. unfold memb. cbn [existsb]. fold (memb id ids).
  assert (Hm1 : (match m !! x with
                 | Some p => <[x := set_party_id p v]> m
                 | None => m
                 end) !! id
                = if bool_decide (id = x) then (fun p => set_party_id p v) <$> m !! id
                  else m !! id).
  { destruct (bool_decide (id = x)) eqn:E.
    - apply bool_decide_eq_true in E. subst x.
      destruct (m !! id) as [p|] eqn:Ep; simpl; [apply lookup_insert_eq | exact Ep].
    - apply bool_decide_eq_false in E.
      destruct (m !! x); [apply lookup_insert_ne; congruence | reflexivity]. }
  rewrite Hm1.
  destruct (bool_decide (id = x)); destruct (memb id ids); simpl; try reflexivity.
  destruct (m !! id); reflexivity.
Qed.

Lemma players_of_keys l : player_keys_ok (players_of l).
Proof.
  intros k p H. apply elem_of_list_to_map_2, list_elem_of_In, in_map_iff in H.
  destruct H as (q & [= <- <-] & _). reflexivity.
Qed.

(** ** Disbanding a party *)

Lemma disband_member_not_searching p : state (disband_member p) <> Searching.
Proof. unfold disband_member. destruct (decide _) as [E|E]; simpl; [discriminate|exact E]. Qed.

Lemma disband_member_idem p : disband_member (disband_member p) = disband_member p.
Proof.
  pose proof (disband_member_not_searching p) as H.
  unfold disband_member at 1. rewrite decide_False by exact H.
  unfold disband_member. destruct (decide _); reflexivity.
Qed.

Lemma disband_fold (L : list nat) : forall (pl : gmap nat Player) se,
  let '(pl', se') :=
    fold_left (fun '(pl, se) id =>
      match pl !! id with
      | Some p =>
          let p1 := set_party_id p None in
          if decide (state p1 = Searching)
          then (<[id := set_state p1 InLobby]> pl,
                List.filter (fun so => negb (memb id (player_ids so))) se)
          else (<[id := p1]> pl, se)
      | None => (pl, se)
      end) L (pl, se) in
  (forall id, pl' !! id = if memb id L then disband_member <$> pl !! id else pl !! id) /\
  (forall so, In so se' <-> In so se /\
     forall id, In id L -> In id (player_ids so) -> ~ searching_in pl id).
Proof.
  induction L as [|x L IH]; intros pl se; cbn [fold_left].
  - split; [reflexivity|]. intros so. split; [intros H; split; [exact H | intros _ []] | tauto].
  - match goal with
    | |- context [fold_left ?f L ?init] =>
        destruct init as [pl1 se1] eqn:Hinit
    end.
    assert (Hpl1 : forall id, pl1 !! id = if bool_decide (id = x) then disband_member <$> pl !! id
                                          else pl !! id).
    { intros id. destruct (pl !! x) as [p|] eqn:Ex.
      - unfold disband_member in *. destruct (decide _); injection Hinit as <- _;
          (destruct (bool_decide (id = x)) eqn:E;
           [apply bool_decide_eq_true in E; subst id; rewrite Ex; simpl;
            rewrite lookup_insert_eq; rewrite ?decide_True, ?decide_False by assumption; reflexivity
           |apply bool_decide_eq_false in E; apply lookup_insert_ne; congruence]).
      - injection Hinit as <- _. destruct (bool_decide (id = x)) eqn:E; [|reflexivity].
        apply bool_decide_eq_true in E. subst id. rewrite Ex. reflexivity. }
    assert (Hse1 : forall so, In so se1 <-> In so se /\ (searching_in pl x -> ~ In x (player_ids so))).
    { intros so. destruct (pl !! x) as [p|] eqn:Ex.
      - destruct (decide (state (set_party_id p None) = Searching)) as [Hs|Hs];
          injection Hinit as _ <-.
        + rewrite filter_In, negb_true_iff. split.
          * intros [Hin Hm]. split; [exact Hin|]. intros _ Hx. apply memb_In in Hx. congruence.
          * intros [Hin Hn]. split; [exact Hin|]. destruct (memb x (player_ids so)) eqn:Em; [|reflexivity].
            exfalso. apply Hn; [exists p; split; assumption | apply memb_In, Em].
        + split; [intros Hin; split; [exact Hin|] | intros [Hin _]; exact Hin].
          intros (p' & Ep' & Hs'). rewrite Ex in Ep'. injection Ep' as <-. contradiction.
      - injection Hinit as _ <-. split; [intros Hin; split; [exact Hin|] | intros [Hin _]; exact Hin].
        intros (p' & Ep' & _). congruence. }
    specialize (IH pl1 se1).
    destruct (fold_left _ L (pl1, se1)) as [pl' se'].
    destruct IH as [I1 I2]. split.
    + intros id. rewrite I1, Hpl1. unfold memb. cbn [existsb]. fold (memb id L).
      destruct (bool_decide (id = x)); destruct (memb id L); simpl; try reflexivity.
      destruct (pl !! id); simpl; [rewrite disband_member_idem|]; reflexivity.
    + intros so. rewrite I2, Hse1. split.
      * intros [[Hin Hx] Hall]. split; [exact Hin|]. intros id [<- | Hid] Hso Hsearch; [exact (Hx Hsearch Hso)|].
        destruct (decide (id = x)) as [->|Hne]; [exact (Hx Hsearch Hso)|].
        apply (Hall id Hid Hso). destruct Hsearch as (p & Ep & Hs). exists p. split; [|exact Hs].
        rewrite Hpl1, bool_decide_eq_false_2 by exact Hne. exact Ep.
      * intros [Hin Hall]. split; [split; [exact Hin|]|].
        -- intros Hs Hx. exact (Hall x (or_introl eq_refl) Hx Hs).
        -- intros id Hid Hso (p & Ep & Hs). rewrite Hpl1 in Ep.
           destruct (bool_decide (id = x)) eqn:E.
           ++ destruct (pl !! id); simpl in Ep; [|discriminate].
              injection Ep as <-. exact (disband_member_not_searching _ Hs).
           ++ apply (Hall id (or_intror Hid) Hso). exists p. split; assumption.
Qed.

(** ** Histograms and bucket counts *)

Lemma sum_nat_cons a l : sum_nat (a :: l) = (a + sum_nat l)%nat.
Proof. change (a :: l) with ([a] ++ l). rewrite sum_nat_app. reflexivity. Qed.

Lemma vec_incr_spec i v : (i < length v)%nat ->
  exists v', vec_incr i v = Some v' /\ length v' = length v /\
    sum_nat v' = S (sum_nat v) /\
    forall j, nth j v' 0%nat = (if Nat.eqb j i then S (nth j v 0%nat) else nth j v 0%nat).
Proof.
  revert i. induction v as [|c v IH]; intros i Hi; simpl in Hi; [lia|].
  destruct i as [|i]; simpl.
  - eexists; split; [reflexivity|]. split; [reflexivity|]. split.
    + rewrite !sum_nat_cons. lia.
    + intros [|j]; reflexivity.
  - destruct (IH i) as [v' [E [L [S' N]]]]; [lia|]. rewrite E.
    eexists; split; [reflexivity|]. split; [simpl; lia|]. split.
    + rewrite !sum_nat_cons, S'. lia.
    + intros [|j]; simpl; [reflexivity|]. apply N.
Qed.

Lemma histogram_fold {A} (idx : A -> nat) l : forall v,
  (forall x, In x l -> (idx x < length v)%nat) ->
  exists v', fold_left (fun acc sample =>
                  match acc with
                  | None => None
                  | Some bins => vec_incr (idx sample) bins
                  end) l (Some v) = Some v' /\
    length v' = length v /\ sum_nat v' = (sum_nat v + length l)%nat /\
    forall j, nth j v' 0%nat = (nth j v 0%nat + length (List.filter (fun x => Nat.eqb (idx x) j) l))%nat.
Proof.
  induction l as [|x l IH]; intros v Hl; simpl.
  - eexists; split; [reflexivity|]. split; [reflexivity|]. split; [lia|]. intros j; lia.
  - destruct (@vec_incr_spec (idx x) v) as [v1 [E [L [S1 N1]]]]; [apply Hl; left; reflexivity|].
    rewrite E. destruct (IH v1) as [v' [E' [L' [S' N']]]].
    { intros y Hy. rewrite L. apply Hl. right. exact Hy. }
    rewrite E'. eexists; split; [reflexivity|]. split; [lia|]. split; [lia|].
    intros j. rewrite N', N1. destruct (Nat.eqb (idx x) j) eqn:Ej; apply Nat.eqb_eq in Ej || apply Nat.eqb_neq in Ej.
    + subst j. rewrite Nat.eqb_refl. simpl. lia.
    + destruct (Nat.eqb_spec j (idx x)); [congruence|]. simpl. 
      destruct (Nat.eqb (idx x) j) eqn:E2; [apply Nat.eqb_eq in E2; congruence|]. lia.
Qed.


Lemma nth_error_indexed_from {A} (l : list A) : forall k i d, (i < length l)%nat ->
  nth_error (combine (seq k (length l)) l) i = Some ((k + i)%nat, nth i l d).
Proof.
  induction l as [|x l IH]; intros k i d Hi; simpl in *; [lia|].
  destruct i as [|i]; simpl; [f_equal; f_equal; lia|].
  rewrite (IH (S k) i d); [|lia]. f_equal. f_equal. lia.
Qed.

Lemma bin_index_core (q : Q) (nb i : nat) : (i < nb)%nat ->
  Nat.eqb (Nat.min (usize_of q) (nb - 1)) i =
  (Nat.eqb i 0 || Qle_bool (inject_Z (Z.of_nat i)) q) &&
  (Nat.eqb i (nb - 1) || Qltb q (inject_Z (Z.of_nat (S i)))).
Proof.
  intros Hi. unfold usize_of. set (z := Qfloor q).
  assert (Hz1 : inject_Z z <= q) by apply Qfloor_le.
  assert (Hz2 : q < inject_Z (z + 1)) by apply Qlt_floor.
  assert (Lo : forall n : Z, (n <= z)%Z <-> inject_Z n <= q).
  { intros n; split; intros H.
    - apply Qle_trans with (inject_Z z); [rewrite <- Zle_Qle; exact H | exact Hz1].
    - destruct (Z.le_gt_cases n z) as [|Hg]; [assumption|].
      exfalso. assert (Hg' : (z + 1 <= n)%Z) by lia. rewrite Zle_Qle in Hg'.
      apply (Qlt_not_le _ _ Hz2). eapply Qle_trans; [exact Hg' | exact H]. }
  assert (E1 : Qle_bool (inject_Z (Z.of_nat i)) q = Z.leb (Z.of_nat i) z).
  { apply Bool.eq_iff_eq_true. rewrite Qle_bool_iff, Z.leb_le, Lo. reflexivity. }
  assert (E2 : Qltb q (inject_Z (Z.of_nat (S i))) = Z.leb z (Z.of_nat i)).
  { apply Bool.eq_iff_eq_true. rewrite Qltb_iff, Z.leb_le.
    rewrite Nat2Z.inj_succ. unfold Z.succ. split; intros H.
    - destruct (Z.le_gt_cases z (Z.of_nat i)) as [|Hg]; [assumption|].
      exfalso. assert (Hg' : (Z.of_nat i + 1 <= z)%Z) by lia. apply Lo in Hg'.
      apply (Qlt_not_le _ _ H). exact Hg'.
    - eapply Qlt_le_trans; [exact Hz2|]. rewrite <- Zle_Qle. lia. }
  rewrite E1, E2.
  destruct (Nat.eqb_spec (Nat.min (Z.to_nat z) (nb - 1)) i);
  destruct (Nat.eqb_spec i 0); destruct (Nat.eqb_spec i (nb - 1));
  destruct (Z.leb_spec (Z.of_nat i) z); destruct (Z.leb_spec z (Z.of_nat i)); simpl; lia.
Qed.

Lemma bin_index_spec (x w : Q) (nb i : nat) : 0 < w -> (i < nb)%nat ->
  Nat.eqb (Nat.min (usize_of (x / w)) (nb - 1)) i =
  (Nat.eqb i 0 || Qle_bool (inject_Z (Z.of_nat i) * w) x) &&
  (Nat.eqb i (nb - 1) || Qltb x (inject_Z (Z.of_nat (S i)) * w)).
Proof.
  intros Hw Hi. rewrite (@bin_index_core (x / w) nb i Hi).
  set (q := x / w).
  assert (Hx : x == q * w) by (unfold q; field; intros E; rewrite E in Hw; discriminate).
  f_equal; f_equal; apply Bool.eq_iff_eq_true.
  - rewrite !Qle_bool_iff, Hx. symmetry. apply Qmult_le_r. exact Hw.
  - rewrite !Qltb_iff, Hx. symmetry. apply Qmult_lt_r. exact Hw.
Qed.

Lemma skill_bucket_index (sk : Q) (i : nat) : (i < 20)%nat ->
  Nat.eqb (Nat.min (usize_of ((sk + 1) / 2 * 19)) 19) i =
  (Nat.eqb i 0 || Qle_bool (inject_Z (Z.of_nat i) / 19 * 2 - 1) sk) &&
  (Nat.eqb i 19 || Qltb sk (inject_Z (Z.of_nat (S i)) / 19 * 2 - 1)).
Proof.
  intros Hi. pose proof (@bin_index_core ((sk + 1) / 2 * 19) 20 i Hi) as B.
  change (20 - 1)%nat with 19%nat in B. rewrite B.
  f_equal; f_equal; apply Bool.eq_iff_eq_true.
  - rewrite !Qle_bool_iff. set (k := inject_Z (Z.of_nat i)).
    assert (E1 : (sk + 1) / 2 * 19 == (19 # 2) * sk + (19 # 2)) by field.
    assert (E2 : k / 19 * 2 - 1 == (2 # 19) * k - 1) by field.
    rewrite E1, E2. split; intros H; Lqa.lra.
  - rewrite !Qltb_iff. set (k := inject_Z (Z.of_nat (S i))).
    assert (E1 : (sk + 1) / 2 * 19 == (19 # 2) * sk + (19 # 2)) by field.
    assert (E2 : k / 19 * 2 - 1 == (2 # 19) * k - 1) by field.
    rewrite E1, E2. split; intros H; Lqa.lra.
Qed.

Lemma sum_nat_repeat0 n : sum_nat (repeat 0%nat n) = 0%nat.
Proof. induction n as [|n IH]; [reflexivity|]. simpl repeat. rewrite sum_nat_cons, IH. reflexivity. Qed.

(** ** Skill percentiles *)

Lemma insert_stable_sorted {A} (f : A -> Q) x l :
  StronglySorted (fun a b => f a <= f b) l ->
  StronglySorted (fun a b => f a <= f b) (insert_stable (fun a b => Qltb (f a) (f b)) x l).
Proof.
  induction l as [|y l IH]; intros Hs; simpl.
  - repeat constructor.
  - apply StronglySorted_inv in Hs as [Hl Hy].
    destruct (Qltb (f x) (f y)) eqn:E.
    + apply Qltb_iff in E. constructor; [constructor; assumption|].
      constructor; [apply Qlt_le_weak, E|].
      rewrite List.Forall_forall in Hy |- *. intros z Hz.
      eapply Qle_trans; [apply Qlt_le_weak, E | apply Hy, Hz].
    + apply Qltb_false in E. constructor; [apply IH, Hl|].
      apply List.Forall_forall. intros z Hz.
      eapply Permutation_in in Hz; [|apply insert_stable_perm].
      destruct Hz as [<- | Hz]; [exact E|]. rewrite List.Forall_forall in Hy. apply Hy, Hz.
Qed.

Lemma sort_stable_sorted {A} (f : A -> Q) l :
  StronglySorted (fun a b => f a <= f b) (sort_stable (fun a b => Qltb (f a) (f b)) l).
Proof.
  unfold sort_stable.
  assert (H : forall acc, StronglySorted (fun a b => f a <= f b) acc ->
    StronglySorted (fun a b => f a <= f b) (fold_left (fun acc x => insert_stable (fun a b => Qltb (f a) (f b)) x acc) l acc)).
  { induction l as [|x l IH]; intros acc Ha; simpl; [exact Ha|]. apply IH, insert_stable_sorted, Ha. }
  apply H. constructor.
Qed.

Lemma sorted_nth_error {A} (R : A -> A -> Prop) l : StronglySorted R l ->
  forall i j a b, (i < j)%nat -> nth_error l i = Some a -> nth_error l j = Some b -> R a b.
Proof.
  induction 1 as [|x l Hl IH Hx]; intros i j a b Hij Ha Hb; [destruct i; discriminate|].
  destruct i as [|i]; destruct j as [|j]; try lia; simpl in Ha, Hb.
  - injection Ha as <-. rewrite List.Forall_forall in Hx. apply Hx. eapply nth_error_In, Hb.
  - apply (IH i j); [lia | assumption | assumption].
Qed.

Lemma nth_error_In_indexed {A} (l : list A) r x :
  nth_error l r = Some x -> In (r, x) (indexed l).
Proof.
  unfold indexed. intros H. assert (Hr : (r < length l)%nat) by (apply nth_error_Some; congruence).
  rewrite <- (Nat.add_0_l r) at 1.
  eapply nth_error_In. rewrite (@nth_error_indexed_from _ l 0 r x Hr).
  rewrite (nth_error_nth l r x H). reflexivity.
Qed.

Lemma update_skill_bucket_some p nb : (1 <= nb)%nat ->
  exists b, update_skill_bucket p nb = Some (set_skill_bucket p b) /\
    b = Nat.max 1 (Nat.min (usize_of (skill_percentile p * inject_Z (Z.of_nat nb))) nb).
Proof.
  intros Hn. unfold update_skill_bucket, clamp_usize.
  destruct (Nat.leb_spec 1 nb); [|lia].
  eexists; split; [reflexivity|].
  set (k := usize_of _).
  destruct (Nat.ltb_spec k 1); [lia|]. destruct (Nat.ltb_spec nb k); lia.
Qed.

Lemma update_skill_bucket_zero p : update_skill_bucket p 0 = None.
Proof. reflexivity. Qed.

Lemma percentile_fold nb n (L : list (nat * (nat * Q))) : forall pl,
  (1 <= nb)%nat -> List.NoDup (map (fun e => fst (snd e)) L) ->
  exists pl', fold_left (percentile_step nb n) L (Some pl) = Some pl' /\
    (forall id, ~ In id (map (fun e => fst (snd e)) L) -> pl' !! id = pl !! id) /\
    (forall id, pl !! id = None -> pl' !! id = None) /\
    (forall r id x p, In (r, (id, x)) L -> pl !! id = Some p ->
       update_skill_bucket (set_skill_percentile p ((inject_Z (Z.of_nat r) + 1 / 2) / n)) nb = pl' !! id).
Proof.
  induction L as [|[r0 [id0 x0]] L IH]; intros pl Hn Hnd; simpl.
  - exists pl. split; [reflexivity|]. split; [reflexivity|]. split; [auto|]. intros; contradiction.
  - simpl in Hnd. apply NoDup_cons_iff in Hnd as [Hni Hnd].
    destruct (pl !! id0) as [p0|] eqn:E0.
    + destruct (@update_skill_bucket_some
          (set_skill_percentile p0 ((inject_Z (Z.of_nat r0) + 1 / 2) / n)) nb Hn) as [b [Eb _]].
      rewrite Eb.
      destruct (IH (<[id0 := set_skill_bucket (set_skill_percentile p0 ((inject_Z (Z.of_nat r0) + 1 / 2) / n)) b]> pl) Hn Hnd)
        as [pl' [E [Ha [Hb Hc]]]].
      exists pl'. split; [exact E|]. split; [|split].
      * intros id Hid. rewrite Ha by tauto. apply lookup_insert_ne. intros ->. apply Hid. left. reflexivity.
      * intros id Hid. apply Hb. rewrite lookup_insert_ne; [exact Hid|]. intros ->. congruence.
      * intros r id x p [Hh | Ht] Hp.
        -- injection Hh as <- <- <-. rewrite E0 in Hp. injection Hp as <-.
           rewrite Eb, Ha by exact Hni. rewrite lookup_insert_eq. reflexivity.
        -- assert (Hne : id <> id0).
           { intros ->. apply Hni. apply in_map_iff. exists (r, (id0, x)). split; [reflexivity | exact Ht]. }
           apply (Hc r id x p Ht). rewrite lookup_insert_ne by congruence. exact Hp.
    + destruct (IH pl Hn Hnd) as [pl' [E [Ha [Hb Hc]]]].
      exists pl'. split; [exact E|]. split; [|split].
      * intros id Hid. apply Ha. tauto.
      * exact Hb.
      * intros r id x p [Hh | Ht] Hp.
        -- injection Hh as <- <- <-. congruence.
        -- apply (Hc r id x p Ht Hp).
Qed.

Lemma skills_sorted_facts (iter : list (nat * Player) -> list (nat * Player)) (pl : gmap nat Player) :
  (forall l, Permutation (iter l) l) ->
  let S := sort_stable (fun a b => Qltb (snd a) (snd b))
             (map (fun '(id, p) => (id, skill p)) (iter (map_to_list pl))) in
  List.NoDup (map (fun e => fst (snd e)) (indexed S)) /\ length S = base.size pl /\
  (forall id p, pl !! id = Some p -> exists r, nth_error S r = Some (id, skill p)) /\
  (forall r id x, nth_error S r = Some (id, x) -> exists p, pl !! id = Some p /\ x = skill p) /\
  StronglySorted (fun a b => snd a <= snd b) S.
Proof.
  intros Hiter S.
  assert (Hp : Permutation S (map (fun '(id, p) => (id, skill p)) (map_to_list pl))).
  { unfold S. rewrite sort_stable_perm. apply Permutation_map, Hiter. }
  split; [|split; [|split; [|split]]].
  - unfold indexed. rewrite <- map_map, (map_snd_indexed_from S 0).
    apply (Permutation_NoDup (l := map fst (map (fun '(id, p) => (id, skill p)) (map_to_list pl)))).
    + symmetry. apply Permutation_map, Hp.
    + rewrite map_map. rewrite (map_ext_in _ fst); [|intros [i p] _; reflexivity].
      apply NoDup_ListNoDup, NoDup_fst_map_to_list.
  - rewrite (Permutation_length Hp), length_map, length_map_to_list. reflexivity.
  - intros id p Hid. apply In_nth_error. eapply Permutation_in; [symmetry; exact Hp|].
    apply in_map_iff. exists (id, p). split; [reflexivity|].
    apply list_elem_of_In, elem_of_map_to_list, Hid.
  - intros r id x Hr. apply nth_error_In in Hr. eapply Permutation_in in Hr; [|exact Hp].
    apply in_map_iff in Hr as [[id' p] [Eq Hin]]. injection Eq as -> <-.
    exists p. split; [|reflexivity]. apply elem_of_map_to_list, list_elem_of_In, Hin.
  - apply (sort_stable_sorted snd).
Qed.

Lemma rank_pct_bounds (r n : nat) : (r < n)%nat ->
  0 < (inject_Z (Z.of_nat r) + 1 / 2) / inject_Z (Z.of_nat n) /\
  (inject_Z (Z.of_nat r) + 1 / 2) / inject_Z (Z.of_nat n) < 1.
Proof.
  intros H.
  assert (Hr : 0 <= inject_Z (Z.of_nat r)) by (change 0 with (inject_Z 0); rewrite <- Zle_Qle; lia).
  assert (Hrn : inject_Z (Z.of_nat r) + 1 <= inject_Z (Z.of_nat n)).
  { assert (H1 : inject_Z (Z.of_nat r + 1) <= inject_Z (Z.of_nat n)) by (rewrite <- Zle_Qle; lia).
    rewrite inject_Z_plus in H1. exact H1. }
  assert (Hn : 0 < inject_Z (Z.of_nat n)) by Lqa.lra.
  assert (Eh : 1 / 2 == 1 # 2) by reflexivity. rewrite Eh.
  split.
  - apply Qlt_shift_div_l; [exact Hn|]. Lqa.lra.
  - apply Qlt_shift_div_r; [exact Hn|]. Lqa.lra.
Qed.

Lemma rank_pct_lt (r1 r2 n : nat) : (r1 < r2)%nat -> (r2 < n)%nat ->
  (inject_Z (Z.of_nat r1) + 1 / 2) / inject_Z (Z.of_nat n) <
  (inject_Z (Z.of_nat r2) + 1 / 2) / inject_Z (Z.of_nat n).
Proof.
  intros H1 H2.
  assert (Hn : 0 < inject_Z (Z.of_nat n)) by (change 0 with (inject_Z 0); rewrite <- Zlt_Qlt; lia).
  assert (Hr : inject_Z (Z.of_nat r1) < inject_Z (Z.of_nat r2)) by (rewrite <- Zlt_Qlt; lia).
  assert (Eh : 1 / 2 == 1 # 2) by reflexivity. rewrite Eh.
  unfold Qdiv. apply Qmult_lt_compat_r; [apply Qinv_lt_0_compat, Hn|]. Lqa.lra.
Qed.

Lemma usize_of_mono x y : x <= y -> (usize_of x <= usize_of y)%nat.
Proof. intros H. unfold usize_of. pose proof (Qfloor_resp_le x y H). lia. Qed.

Lemma percentile_fold_none nb n (L : list (nat * (nat * Q))) :
  fold_left (percentile_step nb n) L None = None.
Proof. induction L; simpl; auto. Qed.

(** ** Summary statistics *)

Lemma usize_of_frac (n : nat) (a : Z) (b : positive) :
  usize_of (inject_Z (Z.of_nat n) * (a # b)) = Z.to_nat ((Z.of_nat n * a) / Z.pos b).
Proof. unfold usize_of, Qfloor, Qmult, inject_Z. simpl. reflexivity. Qed.

Lemma usize_of_Z (z : Z) : usize_of (inject_Z z) = Z.to_nat z.
Proof. unfold usize_of. rewrite Qfloor_Z. reflexivity. Qed.

Lemma usize_of_compat x y : x == y -> usize_of x = usize_of y.
Proof. intros H. unfold usize_of. rewrite (Qfloor_comp x y H). reflexivity. Qed.

Lemma usize_of_min x y : usize_of (Qmin x y) = Nat.min (usize_of x) (usize_of y).
Proof.
  destruct (Q.min_spec_le x y) as [[Hle Hm] | [Hlt Hm]]; rewrite (usize_of_compat Hm).
  - pose proof (usize_of_mono Hle). lia.
  - pose proof (usize_of_mono Hlt). lia.
Qed.

Lemma sorted_nth_le (l : list Q) i j a b : StronglySorted Qle l -> (i <= j)%nat ->
  nth_error l i = Some a -> nth_error l j = Some b -> a <= b.
Proof.
  intros Hs Hij Ha Hb. destruct (Nat.eq_dec i j) as [<-|Hne].
  - rewrite Ha in Hb. injection Hb as <-. apply Qle_refl.
  - apply (sorted_nth_error Hs (i := i) (j := j)); [lia | assumption | assumption].
Qed.

Lemma sort_Q_facts (samples : list Q) :
  StronglySorted Qle (sort_stable Qltb samples) /\
  (forall i x, nth_error (sort_stable Qltb samples) i = Some x -> In x samples) /\
  length (sort_stable Qltb samples) = length samples.
Proof.
  split; [|split].
  - exact (sort_stable_sorted (fun x : Q => x) samples).
  - intros i x H. apply nth_error_In in H. eapply Permutation_in; [apply sort_stable_perm | exact H].
  - apply Permutation_length, sort_stable_perm.
Qed.

Lemma nth_error_lt_some {A} (l : list A) i : (i < length l)%nat -> exists x, nth_error l i = Some x.
Proof. intros H. destruct (nth_error l i) eqn:E; [eauto|]. apply nth_error_None in E. lia. Qed.

Lemma churn_fold_bounds (now threshold : nat) (l : list Player) : forall k,
  (k <= fold_left (fun churned player =>
        if decide (state player = Offline) then
          match last_session_end_time player with
          | Some last_end_time =>
              let time_since_offline := (now - last_end_time)%nat in
              if Nat.ltb threshold time_since_offline then S churned else churned
          | None => churned
          end
        else churned) l k <=
   k + length (List.filter (fun p => bool_decide (state p = Offline)) l))%nat.
Proof.
  induction l as [|p l IH]; intros k; simpl; [lia|].
  destruct (decide (state p = Offline)) as [Ho|Ho].
  - rewrite bool_decide_true by exact Ho. simpl.
    destruct (last_session_end_time p) as [t|]; [destruct (Nat.ltb threshold (now - t))|];
      (split; [etransitivity; [|apply IH]; lia | etransitivity; [apply IH|]; lia]).
  - rewrite bool_decide_false by exact Ho. apply IH.
Qed.

(** ** Match quality and starting a search *)

Lemma fold_Qplus_nonneg l : forall a, 0 <= a -> (forall x, In x l -> 0 <= x) -> 0 <= fold_left Qplus l a.
Proof.
  induction l as [|x l IH]; intros a Ha Hl; simpl; [exact Ha|].
  apply IH; [|intros y Hy; apply Hl; right; exact Hy].
  pose proof (Hl x (or_introl eq_refl)). Lqa.lra.
Qed.

Lemma sumQ_nonneg l : (forall x, In x l -> 0 <= x) -> 0 <= sumQ l.
Proof. intros H. apply fold_Qplus_nonneg; [apply Qle_refl | exact H]. Qed.

Lemma inject_nat_nonneg n : 0 <= inject_Z (Z.of_nat n).
Proof. change 0 with (inject_Z 0). rewrite <- Zle_Qle. lia. Qed.

Lemma Qdiv_nonneg_pos a b : 0 <= a -> 0 < b -> 0 <= a / b.
Proof. intros Ha Hb. apply Qle_shift_div_l; [exact Hb|]. rewrite Qmult_0_l. exact Ha. Qed.

Lemma one_minus_min_nonneg x : 0 <= 1 - Qmin x 1.
Proof. pose proof (Q.le_min_r x 1). Lqa.lra. Qed.

Lemma one_minus_min_le_one x : 0 <= x -> 1 - Qmin x 1 <= 1.
Proof. intros H. assert (0 <= Qmin x 1) by (apply Q.min_glb; [exact H | discriminate]). Lqa.lra. Qed.

Lemma Qsquare_nonneg x : 0 <= x * x.
Proof.
  destruct (Qlt_le_dec x 0) as [H|H].
  - assert (E : x * x == (- x) * (- x)) by ring. rewrite E.
    apply Qmult_le_0_compat; Lqa.lra.
  - apply Qmult_le_0_compat; exact H.
Qed.

Lemma weighted_nonneg w x : 0 <= w -> 0 <= x -> 0 <= w * x.
Proof. intros; apply Qmult_le_0_compat; assumption. Qed.

Lemma weighted_le w x : 0 <= w -> x <= 1 -> w * x <= w.
Proof.
  intros Hw Hx. rewrite Qmult_comm. rewrite <- (Qmult_1_l w) at 2.
  apply Qmult_le_compat_r; assumption.
Qed.


Lemma fold_set_searching (ids : list nat) now : forall (m : gmap nat Player) id,
  fold_left (fun m id => match m !! id with
                         | Some p => <[id := set_searching p now]> m
                         | None => m
                         end) ids m !! id
  = if memb id ids then (fun p => set_searching p now) <$> m !! id else m !! id.
Proof.
  induction ids as [|x ids IH]; intros m id; simpl; [reflexivity|].
  rewrite IH. unfold memb. cbn [existsb]. fold (memb id ids).
  assert (Hm1 : (match m !! x with
                 | Some p => <[x := set_searching p now]> m
                 | None => m
                 end) !! id
                = if bool_decide (id = x) then (fun p => set_searching p now) <$> m !! id
                  else m !! id).
  { destruct (bool_decide (id = x)) eqn:E.
    - apply bool_decide_eq_true in E. subst x.
      destruct (m !! id) as [p|] eqn:Ep; simpl; [apply lookup_insert_eq | exact Ep].
    - apply bool_decide_eq_false in E.
      destruct (m !! x); [apply lookup_insert_ne; congruence | reflexivity]. }
  rewrite Hm1.
  destruct (bool_decide (id = x)); destruct (memb id ids); simpl; try reflexivity.
  destruct (m !! id); reflexivity.
Qed.

Lemma inter_fold (g : Player -> list nat) (ps : list Player) : forall acc d,
  In d (default [] (fold_left (fun acc p =>
          Some (match acc with None => g p | Some e => list_inter e (g p) end)) ps acc)) <->
  (match acc with None => ps <> [] | Some e => In d e end) /\ (forall p, In p ps -> In d (g p)).
Proof.
  induction ps as [|p ps IH]; intros acc d; simpl.
  - destruct acc as [e|]; simpl.
    + split; [intros H; split; [exact H | intros _ []] | intros [H _]; exact H].
    + split; [intros [] | intros [H _]; congruence].
  - rewrite IH. destruct acc as [e|].
    + rewrite list_inter_In. split.
      * intros [[He Hg] Hps]. split; [exact He|]. intros p' [<- | Hp']; [exact Hg | apply Hps, Hp'].
      * intros [He Hall]. split; [split; [exact He | apply Hall; left; reflexivity]|].
        intros p' Hp'. apply Hall. right. exact Hp'.
    + split.
      * intros [Hg Hps]. split; [discriminate|]. intros p' [<- | Hp']; [exact Hg | apply Hps, Hp'].
      * intros [_ Hall]. split; [apply Hall; left; reflexivity|].
        intros p' Hp'. apply Hall. right. exact Hp'.
Qed.

Lemma in_omap_lookup (pl : gmap nat Player) ids p :
  In p (omap (fun id => pl !! id) ids) <-> exists id, In id ids /\ pl !! id = Some p.
Proof.
  rewrite <- list_elem_of_In, list_elem_of_omap. split.
  - intros [id [Hid Hp]]. exists id. split; [apply list_elem_of_In, Hid | exact Hp].
  - intros [id [Hid Hp]]. exists id. split; [apply list_elem_of_In, Hid | exact Hp].
Qed.


(** ** Claims *)

(** C1: every match committed by [run_tick] was feasible at its commit.
    Writing [rs] for the results of the tick and [pool] for the refreshed
    search objects, the returned data centers are the input ones after
    the reservations of [rs] in order; and the [k]-th result was built
    from a lobby of [pool] for which, against the data centers after the
    first [k] reservations, [check_feasibility] succeeded and the
    predicate of §4.2 held: playlist membership, size equal to
    [required_players], skill containment and spread for every member at
    its wait time, the chosen data center common to all members (so the
    intersection is non-empty) and with a free server. *)
Theorem run_tick_commits_feasible ho c distance searches players dcs parties now :
  hash_order_ok ho ->
  snd (fst (run_tick ho c distance searches players dcs parties now))
    = replay_reservations dcs (snd (run_tick ho c distance searches players dcs parties now)) /\
  forall k r,
    nth_error (snd (run_tick ho c distance searches players dcs parties now)) k = Some r ->
    committed_from ho c players parties now (map (refresh_acceptable_dcs c players dcs now) searches)
      (replay_reservations dcs (firstn k (snd (run_tick ho c distance searches players dcs parties now)))) r.
Proof.
  intros Hok.
  pose proof (run_tick_inv ho c distance searches players dcs parties now (hash_order_set_incl Hok)) as H.
  cbv zeta in H.
  destruct (run_tick ho c distance searches players dcs parties now) as [[rest dcs'] rs].
  exact H.
Qed.

Lemma run_tick_commits_feasible_witness :
  hash_order_ok insertion_order /\
  exists r,
    nth_error (snd (run_tick insertion_order default_config zero_distance ex_searches ex_players
                      ex_dcs ∅ 0)) 0 = Some r /\
    committed_from insertion_order default_config ex_players ∅ 0
      (map (refresh_acceptable_dcs default_config ex_players ex_dcs 0) ex_searches) ex_dcs r.
Proof.
  split; [exact insertion_order_ok|].
  destruct (nth_error (snd (run_tick insertion_order default_config zero_distance ex_searches
              ex_players ex_dcs ∅ 0)) 0) as [r|] eqn:E.
  - exists r. split; [reflexivity|].
    exact (proj2 (@run_tick_commits_feasible insertion_order default_config zero_distance ex_searches
                    ex_players ex_dcs ∅ 0 insertion_order_ok) 0%nat r E).
  - vm_compute in E. discriminate.
Defined.

(** C2: the capacity invariant [0 <= busy <= capacity].  (i) A successful
    [check_feasibility] always names a data center with a free server for
    the playlist, so no check succeeds when busy = capacity.  (ii) From
    data centers within capacity, [run_tick] returns data centers within
    capacity, namely the input ones after one reservation per committed
    match.  (iii) A reservation raises the chosen data center's busy
    counter for the playlist by exactly one and changes nothing else of
    it; (iv) a release lowers it by one, saturating at zero; (v) releases
    keep the data centers within capacity. *)
Theorem capacity_invariant :
  (forall ho c lobby pl now dcs players f,
     check_feasibility ho c lobby pl now dcs players = Some f ->
     exists d, find_dc dcs (fr_data_center_id f) = Some d /\ (0 < available_servers d pl)%nat) /\
  (forall ho c distance searches players dcs parties now,
     hash_order_ok ho -> capacity_ok dcs ->
     capacity_ok (snd (fst (run_tick ho c distance searches players dcs parties now))) /\
     snd (fst (run_tick ho c distance searches players dcs parties now))
       = replay_reservations dcs (snd (run_tick ho c distance searches players dcs parties now))) /\
  (forall dcs id pl d b,
     find_dc dcs id = Some d -> alist_get pl (busy_servers d) = Some b ->
     exists d', find_dc (reserve_server dcs id pl) id = Some d' /\
       alist_get pl (busy_servers d') = Some (S b) /\
       (forall p, p <> pl -> alist_get p (busy_servers d') = alist_get p (busy_servers d)) /\
       server_capacity d' = server_capacity d) /\
  (forall dcs id pl d b,
     find_dc dcs id = Some d -> alist_get pl (busy_servers d) = Some b ->
     exists d', find_dc (release_server dcs id pl) id = Some d' /\
       alist_get pl (busy_servers d') = Some (b - 1)%nat /\
       (forall p, p <> pl -> alist_get p (busy_servers d') = alist_get p (busy_servers d)) /\
       server_capacity d' = server_capacity d) /\
  (forall dcs id pl, capacity_ok dcs -> capacity_ok (release_server dcs id pl)).
Proof.
  split; [|split; [|split; [|split]]].
  - intros ho c lobby pl now dcs players f. apply check_feasibility_server.
  - intros ho c distance searches players dcs parties now Hok Hcap.
    pose proof (run_tick_inv ho c distance searches players dcs parties now
                  (hash_order_set_incl Hok)) as H.
    cbv zeta in H.
    destruct (run_tick ho c distance searches players dcs parties now) as [[rest dcs'] rs].
    destruct H as [Hdcs Hres]. simpl in *. split; [|exact Hdcs].
    rewrite Hdcs. apply replay_capacity; [exact Hcap|].
    intros k r Hk. destruct (Hres k r Hk) as (lobby & f & _ & Hcf & Hr & _).
    apply check_feasibility_server in Hcf.
    replace (data_center_id r) with (fr_data_center_id f) by (rewrite Hr; reflexivity).
    exact Hcf.
  - intros dcs id pl d b Hd Hb. eexists. split; [apply find_dc_reserve, Hd|]. simpl.
    rewrite alist_get_modify_eq, Hb. split; [reflexivity|]. split; [|reflexivity].
    intros p Hp. apply alist_get_modify_neq, Hp.
  - intros dcs id pl d b Hd Hb. eexists. split; [apply find_dc_release, Hd|]. simpl.
    rewrite alist_get_modify_eq, Hb. split; [reflexivity|]. split; [|reflexivity].
    intros p Hp. apply alist_get_modify_neq, Hp.
  - intros dcs id pl. apply release_capacity.
Qed.

Lemma capacity_invariant_witness :
  capacity_ok ex_dcs /\
  capacity_ok (snd (fst (run_tick insertion_order default_config zero_distance ex_searches
                           ex_players ex_dcs ∅ 0))) /\
  exists d', find_dc (reserve_server ex_dcs 0 TeamDeathmatch) 0 = Some d' /\
             alist_get TeamDeathmatch (busy_servers d') = Some 1%nat.
Proof.
  assert (Hcap : capacity_ok ex_dcs).
  { unfold capacity_ok. repeat constructor; intros []; vm_compute; lia. }
  destruct capacity_invariant as (_ & H2 & H3 & _).
  split; [exact Hcap|]. split.
  - exact (proj1 (H2 insertion_order default_config zero_distance ex_searches ex_players ex_dcs
                    ∅ 0%nat insertion_order_ok Hcap)).
  - destruct (H3 ex_dcs 0%nat TeamDeathmatch (new_dc 0 origin NorthAmerica) 0%nat
                 ltac:(reflexivity) ltac:(reflexivity)) as (d' & Hd' & Hb & _).
    exists d'. split; assumption.
Defined.

(** C3 (amended): party integrity holds in every committed match whose
    playlist is not FreeForAll: if two players of the match belong to the
    same party, [balance_teams] puts them on one team.  (FreeForAll is
    the exception, see [ffa_party_split].) *)
Theorem run_tick_party_integrity ho c distance searches players dcs parties now :
  hash_order_ok ho ->
  forall r, In r (snd (run_tick ho c distance searches players dcs parties now)) ->
  mr_playlist r <> FreeForAll ->
  party_intact players (mr_player_ids r) (teams r).
Proof.
  intros Hok r Hr Hffa.
  pose proof (run_tick_inv ho c distance searches players dcs parties now
                (hash_order_set_incl Hok)) as H.
  cbv zeta in H.
  destruct (run_tick ho c distance searches players dcs parties now) as [[rest dcs'] rs].
  destruct H as [_ Hres]. simpl in *.
  apply In_nth_error in Hr as [k Hk].
  destruct (Hres k r Hk) as (lobby & f & _ & _ & Hmr & Hfeas & _).
  destruct Hfeas as (_ & Hsize & _).
  assert (Hids : mr_player_ids r = concat (map player_ids lobby)) by (rewrite Hmr at 1; reflexivity).
  assert (Hteams : teams r = balance_teams ho c (concat (map player_ids lobby)) players parties
                               (mr_playlist r)) by (rewrite Hmr at 1; reflexivity).
  rewrite Hids, Hteams. apply balance_teams_party_intact; [exact Hok|].
  rewrite length_concat_ids, Hsize. apply team_count_required, Hffa.
Qed.

(** C3 counterexample: in FreeForAll each player is a team of its own,
    so a party of two committed to an FFA match is split: for
    [ffa_searches] the tick commits one FFA match whose teams are the
    twelve singletons, and players 0 and 1 of party 7 are apart. *)
Lemma ffa_party_split :
  exists r, In r (snd (run_tick insertion_order default_config zero_distance ffa_searches
                         ffa_players ex_dcs ∅ 0)) /\
    mr_playlist r = FreeForAll /\ ~ party_intact ffa_players (mr_player_ids r) (teams r).
Proof.
  destruct (snd (run_tick insertion_order default_config zero_distance ffa_searches ffa_players
                   ex_dcs ∅ 0)) as [|r rest] eqn:E; vm_compute in E; [discriminate|].
  injection E as <- _.
  eexists. split; [left; reflexivity|]. split; [reflexivity|].
  intros H.
  destruct (H 0%nat 1%nat 7%nat (mk_player 0 NorthAmerica Controller (1 # 2)
              [(0%nat, 20); (1%nat, 20)] 20 (Some 7%nat) [FreeForAll])
              (mk_player 1 NorthAmerica Controller (1 # 2)
              [(0%nat, 20); (1%nat, 20)] 20 (Some 7%nat) [FreeForAll]))
    as (t & Ht & H0 & H1);
    try (simpl; tauto); try reflexivity.
  simpl in Ht. repeat destruct Ht as [<- | Ht]; simpl in *; try tauto; lia.
Qed.

Lemma run_tick_party_integrity_witness :
  exists r, In r (snd (run_tick insertion_order default_config zero_distance ex_searches
                         ex_players ex_dcs ∅ 0)) /\
    mr_playlist r <> FreeForAll /\ party_intact ex_players (mr_player_ids r) (teams r).
Proof.
  pose proof (@run_tick_party_integrity insertion_order default_config zero_distance ex_searches
                ex_players ex_dcs ∅ 0%nat insertion_order_ok) as H.
  destruct (snd (run_tick insertion_order default_config zero_distance ex_searches ex_players
                   ex_dcs ∅ 0)) as [|r rest] eqn:E; [vm_compute in E; discriminate|].
  assert (Hpl : mr_playlist r <> FreeForAll) by (vm_compute in E; injection E as <- _; discriminate).
  exists r. split; [left; reflexivity|]. split; [exact Hpl|].
  apply H; [left; reflexivity | exact Hpl].
Defined.

Lemma rev_set_order_ok : hash_order_ok rev_set_order.
Proof. split; [|split]; intros l; simpl; [symmetry; apply Permutation_rev | reflexivity | reflexivity]. Qed.

(** C4 failing input: the data center of a committed match depends on the
    iteration order of the [HashSet] of common data centers.  For the
    twelve solo TDM searchers of [ex_searches] and two free NA data
    centers with equal pings, the tick commits its single match on DC 0
    when the set iterates in insertion order and on DC 1 when it iterates
    in reverse; both orders are valid for a [std] hash set, whose
    [RandomState] keys differ between runs with the same seed. *)
Lemma dc_choice_depends_on_hash_order :
  hash_order_ok insertion_order /\ hash_order_ok rev_set_order /\
  map data_center_id (snd (run_tick insertion_order default_config zero_distance ex_searches
                             ex_players ex_dcs ∅ 0)) = [0%nat] /\
  map data_center_id (snd (run_tick rev_set_order default_config zero_distance ex_searches
                             ex_players ex_dcs ∅ 0)) = [1%nat].
Proof.
  split; [exact insertion_order_ok|]. split; [exact rev_set_order_ok|].
  split; vm_compute; reflexivity.
Qed.

(** C5 failing input: the refresh of a party's acceptable data centers in
    [run_tick] is not the intersection of the members' sets.  Player 0
    accepts no data center and player 1 accepts only DC 1, so the
    intersection is empty; the refresh restarts from the next member's set
    whenever the running set is empty and yields [1].  The tick then
    commits the party on DC 1, a data center player 0 has no ping to.
    Besides, a North American player at a wait of 15 s does not accept a
    data center of region [Other] at the best ping, although the spec's
    adjacency graph makes [Other] adjacent to every region. *)
Lemma party_dcs_not_intersection :
  player_acceptable_dcs party_p0 0 default_config NorthAmerica ex_dcs = [] /\
  player_acceptable_dcs party_p1 0 default_config NorthAmerica ex_dcs = [1%nat] /\
  acceptable_dcs (refresh_acceptable_dcs default_config party_players ex_dcs 0 party_search)
    = [1%nat] /\
  map (fun r => (data_center_id r, mr_player_ids r))
      (snd (run_tick insertion_order default_config zero_distance party_searches party_players
              ex_dcs ∅ 0)) = [(1%nat, seq 0 12)] /\
  alist_get 1%nat (dc_pings party_p0) = None /\
  player_acceptable_dcs
    (mk_player 0 NorthAmerica Controller (1 # 2) [(2%nat, 20)] 20 None [TeamDeathmatch])
    15 default_config NorthAmerica [new_dc 2 origin Other] = [].
Proof. repeat split; vm_compute; reflexivity. Qed.

(** C6 (amended): the distance of a search object to itself is not always
    0.  The geographic and skill terms vanish, but the input-device
    penalty fires when the object itself has both mouse-and-keyboard and
    controller players, and the platform penalty fires when its platform
    map is empty:
    distance(x, x) = w_input * 0.5 * [x mixes MKB and controller]
                   + w_platform * 0.3 * [x has no platform]. *)
Theorem distance_self_value c x :
  calculate_distance c x x
  = (Q2R (weight_input c) *
       (if Nat.ltb 0 (device_count MouseKeyboard x) && Nat.ltb 0 (device_count Controller x)
        then 1 / 2 else 0)
     + Q2R (weight_platform c) * (match platforms x with [] => 3 / 10 | _ => 0 end))%R.
Proof.
  rewrite calculate_distance_self_split, input_device_distance_self, platform_distance_self.
  destruct (_ && _); reflexivity.
Qed.

(** C6 counterexample: a party search mixing a mouse-and-keyboard and a
    controller player is at distance 0.15 * 0.5 = 0.075 from itself under
    the default weights. *)
Lemma mixed_party_self_distance :
  calculate_distance default_config mixed_search mixed_search = (3 / 40)%R /\
  calculate_distance default_config mixed_search mixed_search <> 0%R.
Proof.
  rewrite calculate_distance_self_split, input_device_distance_self, platform_distance_self.
  unfold Q2R. simpl. split; lra.
Qed.

(** C7: what the quit branch of [process_match_completions] does for a
    player.  The player is Offline, the window after this match's push is
    kept as [last_session_experience], the end time is the current tick and
    the window is emptied.  The session-length histogram is bumped at index
    [matches_in_session] only when [matches_in_session > 0]; that counter
    counts the continue decisions of the session, not its matches. *)
Theorem finish_player_quit s pid won_ b perf p :
  players s !! pid = Some p ->
  exists p',
    players (finish_player s pid won_ b perf false) !! pid = Some p' /\
    state p' = Offline /\
    last_session_experience p'
      = push_window (experience_window_size (config s)) (match_experience p won_ b perf)
                    (recent_experience p) /\
    last_session_end_time p' = Some (current_time s) /\
    recent_experience p' = [] /\
    session_length_distribution (stats (finish_player s pid won_ b perf false))
      = (if Nat.ltb 0 (matches_in_session p)
         then incr_at (matches_in_session p) (session_length_distribution (stats s))
         else session_length_distribution (stats s)) /\
    ((0 < matches_in_session p)%nat ->
      nth (matches_in_session p)
          (session_length_distribution (stats (finish_player s pid won_ b perf false))) 0%nat
      = S (nth (matches_in_session p) (session_length_distribution (stats s)) 0%nat)).
Proof.
  intros Hp. unfold finish_player. rewrite Hp. cbn [sim_with players stats].
  eexists. split; [apply lookup_insert_eq|].
  split; [reflexivity|]. split; [reflexivity|]. split; [reflexivity|].
  split; [reflexivity|]. split; [reflexivity|].
  intros Hpos. cbn [stats_after_quit session_length_distribution].
  apply Nat.ltb_lt in Hpos. rewrite Hpos. apply incr_at_nth.
Qed.

Lemma finish_player_quit_witness :
  players quit_sim !! 0%nat = Some session_player /\
  exists p',
    players (finish_player quit_sim 0 true false None false) !! 0%nat = Some p' /\
    state p' = Offline /\
    last_session_experience p'
      = push_window (experience_window_size (config quit_sim))
                    (match_experience session_player true false None)
                    (recent_experience session_player) /\
    last_session_end_time p' = Some (current_time quit_sim) /\
    recent_experience p' = [] /\
    session_length_distribution (stats (finish_player quit_sim 0 true false None false))
      = (if Nat.ltb 0 (matches_in_session session_player)
         then incr_at (matches_in_session session_player)
                      (session_length_distribution (stats quit_sim))
         else session_length_distribution (stats quit_sim)) /\
    ((0 < matches_in_session session_player)%nat ->
      nth (matches_in_session session_player)
          (session_length_distribution
             (stats (finish_player quit_sim 0 true false None false))) 0%nat
      = S (nth (matches_in_session session_player)
               (session_length_distribution (stats quit_sim)) 0%nat)).
Proof.
  split; [reflexivity|].
  apply (finish_player_quit quit_sim 0 true false None). reflexivity.
Defined.

(** C7 counterexample: the histogram does not receive the length of the
    finished session.  A player who quits after the first match of a
    session posts nothing, and one who continues once and then quits
    after the second match posts a session of length 1. *)
Lemma quit_session_length_off_by_one :
  session_length_distribution (stats (finish_player quit_sim 0 true false None false)) = [] /\
  total_sessions_completed (stats (finish_player quit_sim 0 true false None false)) = 0%nat /\
  option_map matches_played
    (players (finish_player (finish_player quit_sim 0 true false None true) 0 true false None false)
       !! 0%nat) = Some 2%nat /\
  session_length_distribution
    (stats (finish_player (finish_player quit_sim 0 true false None true) 0 true false None false))
    = [0%nat; 1%nat].
Proof. repeat split; vm_compute; reflexivity. Qed.

(** C8: a party operation that reports an error returns the simulation it
    was given, so the party table and every player's [party_id] and
    [state] are unchanged. *)
Theorem party_ops_error_unchanged s :
  (forall ids e s', create_party s ids = (inl e, s') -> s' = s) /\
  (forall pid player e s', join_party s pid player = (inl e, s') -> s' = s) /\
  (forall pid player e s', leave_party s pid player = (inl e, s') -> s' = s) /\
  (forall pid e s', disband_party s pid = (inl e, s') -> s' = s).
Proof.
  split; [|split; [|split]].
  - intros ids e s'. unfold create_party.
    repeat case_match; intros Hres; simplify_eq; reflexivity.
  - intros pid player e s'. unfold join_party.
    repeat case_match; intros Hres; simplify_eq; reflexivity.
  - intros pid player e s'. unfold leave_party.
    repeat case_match; intros Hres; simplify_eq; reflexivity.
  - intros pid e s'. unfold disband_party.
    repeat case_match; intros Hres; simplify_eq; reflexivity.
Qed.

Lemma party_ops_error_unchanged_witness :
  snd (create_party quit_sim [5%nat]) = quit_sim /\
  snd (join_party quit_sim 3 0) = quit_sim /\
  snd (leave_party quit_sim 3 0) = quit_sim /\
  snd (disband_party quit_sim 3) = quit_sim.
Proof.
  destruct (party_ops_error_unchanged quit_sim) as (Hc & Hj & Hl & Hd).
  split; [|split; [|split]].
  - apply (Hc [5%nat] (PlayerMissing 5)). reflexivity.
  - apply (Hj 3%nat 0%nat (PartyMissing 3)). reflexivity.
  - apply (Hl 3%nat 0%nat (PartyMissing 3)). reflexivity.
  - apply (Hd 3%nat (PartyMissing 3)). reflexivity.
Defined.

(** C9: after a successful [leave_party], every party's leader is one of
    its members (given that this held before, as [create_party] and
    [join_party] establish it).  When members remain, the party is kept
    with the remaining members, in order, and its leader is the first of
    them if the leaver was the leader, else the old leader. *)
Theorem leave_party_leader s pid player party s' :
  leaders_ok s ->
  parties s !! pid = Some party ->
  leave_party s pid player = (inr tt, s') ->
  leaders_ok s' /\
  (forall first rest,
     List.filter (fun id => negb (Nat.eqb id player)) (pt_player_ids party) = first :: rest ->
     exists pt, parties s' !! pid = Some pt /\
       pt_player_ids pt = first :: rest /\
       leader_id pt = (if Nat.eqb (leader_id party) player then first else leader_id party)).
Proof.
  intros Hok Hp Hl. unfold leave_party in Hl. rewrite Hp in Hl.
  destruct (negb (memb player (pt_player_ids party))); [discriminate|].
  destruct (List.filter _ _) as [|first rest] eqn:Hf.
  - injection Hl as <-. split.
    + intros id pt. cbn [sim_with parties]. rewrite lookup_delete_Some.
      intros [_ Hid]. exact (Hok id pt Hid).
    + intros ? ? [=].
  - injection Hl as <-.
    assert (Hlead : In (if Nat.eqb (leader_id party) player then first else leader_id party)
                       (first :: rest)).
    { destruct (Nat.eqb_spec (leader_id party) player) as [_|Hne]; [left; reflexivity|].
      rewrite <- Hf. apply filter_neq_In; [exact (Hok pid party Hp)|exact Hne]. }
    split.
    + intros id pt. cbn [sim_with parties].
      destruct (decide (id = pid)) as [->|Hne].
      * rewrite lookup_insert_eq. intros [= <-].
        rewrite update_aggregates_ids, update_aggregates_leader. exact Hlead.
      * rewrite lookup_insert_ne by congruence. apply Hok.
    + intros first' rest' Heq. injection Heq as <- <-.
      eexists. split; [cbn [sim_with parties]; apply lookup_insert_eq|].
      rewrite update_aggregates_ids, update_aggregates_leader. split; reflexivity.
Qed.

Lemma leave_party_leader_witness :
  leaders_ok duo_sim /\
  parties duo_sim !! 0%nat = Some (from_players 0 (lobby_player 0) [lobby_player 1]) /\
  leave_party duo_sim 0 0 = (inr tt, snd (leave_party duo_sim 0 0)) /\
  leaders_ok (snd (leave_party duo_sim 0 0)) /\
  (forall first rest,
     List.filter (fun id => negb (Nat.eqb id 0))
       (pt_player_ids (from_players 0 (lobby_player 0) [lobby_player 1])) = first :: rest ->
     exists pt, parties (snd (leave_party duo_sim 0 0)) !! 0%nat = Some pt /\
       pt_player_ids pt = first :: rest /\
       leader_id pt = (if Nat.eqb (leader_id (from_players 0 (lobby_player 0) [lobby_player 1])) 0
                       then first else leader_id (from_players 0 (lobby_player 0) [lobby_player 1]))).
Proof.
  assert (Hp : parties duo_sim !! 0%nat = Some (from_players 0 (lobby_player 0) [lobby_player 1]))
    by reflexivity.
  assert (Hok : leaders_ok duo_sim).
  { intros id pt H.
    replace (parties duo_sim)
      with (<[0%nat := from_players 0 (lobby_player 0) [lobby_player 1]]> (∅ : gmap nat Party))
      in H by reflexivity.
    apply lookup_insert_Some in H as [[_ <-]|[_ H]].
    - simpl. left. reflexivity.
    - rewrite lookup_empty in H. discriminate. }
  assert (Hl : leave_party duo_sim 0 0 = (inr tt, snd (leave_party duo_sim 0 0))) by reflexivity.
  exact (conj Hok (conj Hp (conj Hl
           (@leave_party_leader duo_sim 0 0 _ (snd (leave_party duo_sim 0 0)) Hok Hp Hl)))).
Defined.

(** C10: [reset_stats] replaces the statistics record by
    [SimulationStats::default()], so [churn_threshold_ticks] becomes 0
    where [SimulationEngine::new] had set it to 100; players, parties, data
    centers, active matches, configuration and current tick are kept. *)
Theorem reset_stats_frame e seed :
  stats (sim (reset_stats e)) = default_stats /\
  churn_threshold_ticks (stats (sim (reset_stats e))) = 0%nat /\
  churn_threshold_ticks (stats (sim (engine_new seed))) = 100%nat /\
  players (sim (reset_stats e)) = players (sim e) /\
  parties (sim (reset_stats e)) = parties (sim e) /\
  data_centers (sim (reset_stats e)) = data_centers (sim e) /\
  matches (sim (reset_stats e)) = matches (sim e) /\
  config (sim (reset_stats e)) = config (sim e) /\
  current_time (sim (reset_stats e)) = current_time (sim e).
Proof. repeat split. Qed.

(** ** Further properties of the code *)

(** X1: when no player is queued in two searches, one tick of
    [run_tick] places every player at most once across all the matches it
    forms, only places queued players, and keeps no search one of whose
    players it placed. *)
Theorem run_tick_players_disjoint ho c distance searches players dcs parties now :
  List.NoDup (concat (map player_ids searches)) ->
  let '(rest, _, rs) := run_tick ho c distance searches players dcs parties now in
  List.NoDup (concat (map mr_player_ids rs)) /\
  incl (concat (map mr_player_ids rs)) (concat (map player_ids searches)) /\
  (forall s p, In s rest -> In p (player_ids s) -> ~ In p (concat (map mr_player_ids rs))).
Proof.
  intros Hnd.
  destruct (run_tick_matched ho c distance searches players dcs parties now)
    as (st & Heq & M & HM & HMp & Hmat & Hres).
  rewrite Heq. cbv beta iota zeta. rewrite Hres.
  set (pool := indexed (map (refresh_acceptable_dcs c players dcs now) searches)) in *.
  assert (HPnd : List.NoDup pool) by apply indexed_nodup.
  assert (Hc : List.NoDup (concat (map (fun x => player_ids (snd x)) pool)))
    by (unfold pool; rewrite queue_players; exact Hnd).
  split; [|split].
  - exact (concat_nodup_incl _ HPnd Hc HM HMp).
  - intros p Hp. rewrite <- (queue_players c players dcs now searches).
    apply in_concat in Hp as (l & Hl & Hp). apply in_map_iff in Hl as (m & <- & Hm).
    apply in_concat. exists (player_ids (snd m)). split; [|exact Hp].
    apply (in_map (fun x : nat * SearchObject => player_ids (snd x))), HMp, Hm.
  - intros s p Hs Hp Hin. apply filter_In in Hs as [Hs Hb].
    apply in_concat in Hin as (l & Hl & Hp'). apply in_map_iff in Hl as (m & <- & Hm).
    destruct (@in_indexed_from _ s _ 0 Hs) as [i Hi].
    assert (Him : (i, s) = m)
      by exact (@concat_nodup_uniq _ _ (fun x => player_ids (snd x)) pool (i, s) m p
                  HPnd Hc Hi (HMp m Hm) Hp Hp').
    assert (Hin : In (so_id s) (matched st)).
    { rewrite Hmat. apply (in_map (fun y : nat * SearchObject => so_id (snd y)) M (i, s)).
      rewrite Him. exact Hm. }
    apply memb_In in Hin. rewrite Hin in Hb. discriminate.
Qed.

Lemma run_tick_players_disjoint_witness :
  List.NoDup (concat (map player_ids ex_searches)) /\
  let '(rest, _, rs) := run_tick insertion_order default_config zero_distance ex_searches
                          ex_players ex_dcs ∅ 0 in
  List.NoDup (concat (map mr_player_ids rs)) /\
  incl (concat (map mr_player_ids rs)) (concat (map player_ids ex_searches)) /\
  (forall s p, In s rest -> In p (player_ids s) -> ~ In p (concat (map mr_player_ids rs))).
Proof.
  assert (Hnd : List.NoDup (concat (map player_ids ex_searches)))
    by (apply NoDup_ListNoDup; apply (bool_decide_unpack (NoDup (concat (map player_ids ex_searches)))); vm_compute; reflexivity).
  pose proof (run_tick_players_disjoint insertion_order default_config zero_distance ex_searches
                ex_players ex_dcs ∅ 0 Hnd) as H.
  split; [exact Hnd | exact H].
Defined.

(** X2: [balance_teams] returns [team_count playlist] teams that together
    hold exactly the roster it was given: every player on exactly one
    team, none added or dropped.  This holds in all three branches (one
    team per player, exact two-team partition, snake draft), for any
    iteration order of its hash maps. *)
Theorem balance_teams_partition ho c ids players parties pl :
  hash_order_ok ho ->
  length (balance_teams ho c ids players parties pl) = team_count pl /\
  Permutation (concat (balance_teams ho c ids players parties pl)) ids.
Proof.
  intros [_ [_ Hgrp]]. unfold balance_teams. cbv zeta.
  destruct (Nat.eqb (team_count pl) (length ids)) eqn:Etc.
  - apply Nat.eqb_eq in Etc. split; [rewrite length_map; lia|].
    clear. induction ids as [|x l IH]; simpl; [constructor|]. apply perm_skip, IH.
  - match goal with |- context [snake_draft _ ?e] => set (entries := e) end.
    assert (Hent : Permutation (concat (map entry_members entries)) ids).
    { unfold entries. rewrite map_map.
      erewrite map_ext with (g := snd) by (intros [k ms]; reflexivity).
      etransitivity; [apply perm_concat, Permutation_map, Hgrp|]. apply group_by_party_concat. }
    destruct (snake_draft_concat entries (team_count_pos pl)) as [S1 S2].
    assert (Hsnake : length (snake_draft (team_count pl) entries) = team_count pl /\
                     Permutation (concat (snake_draft (team_count pl) entries)) ids)
      by (split; [exact S1 | etransitivity; eassumption]).
    destruct (Nat.leb (required_players pl) 12 && Nat.eqb (team_count pl) 2) eqn:Es;
      [|exact Hsnake].
    destruct (use_exact_team_balancing c); [|exact Hsnake]. cbn [andb].
    destruct (exact_partition_teams entries (required_players pl)) as [best|] eqn:Ex;
      [|exact Hsnake].
    apply exact_partition_teams_shape in Ex as [t ->].
    destruct (build_teams_concat entries t) as [B1 B2].
    apply andb_prop in Es as [_ E2]. apply Nat.eqb_eq in E2.
    split; [lia | etransitivity; eassumption].
Qed.

Lemma balance_teams_partition_witness :
  hash_order_ok insertion_order /\
  length (balance_teams insertion_order default_config (seq 0 12) ex_players ∅ TeamDeathmatch)
    = team_count TeamDeathmatch /\
  Permutation (concat (balance_teams insertion_order default_config (seq 0 12) ex_players ∅
                         TeamDeathmatch)) (seq 0 12).
Proof.
  split; [exact insertion_order_ok|].
  exact (@balance_teams_partition insertion_order default_config (seq 0 12) ex_players ∅
           TeamDeathmatch insertion_order_ok).
Defined.



(** X4: a player's acceptable data centers only grow with the wait: if
    the region's delta-ping rate is not negative, every data center
    acceptable after [w1] seconds is still acceptable after [w2 >= w1]
    seconds (the delta-ping allowance does not shrink and the region tier
    only widens). *)
Theorem acceptable_dcs_widen p c r dcs w1 w2 :
  0 <= get_region_delta_ping_rate c r -> w1 <= w2 ->
  incl (player_acceptable_dcs p w1 c r dcs) (player_acceptable_dcs p w2 c r dcs).
Proof.
  intros Hr Hw x Hx. unfold player_acceptable_dcs in *.
  apply in_map_iff in Hx as ([id ping] & <- & Hf). apply filter_In in Hf as [Hin Hb].
  apply in_map_iff. exists (id, ping). split; [reflexivity|]. apply filter_In. split; [exact Hin|].
  apply andb_prop in Hb as [Hb Hreg]. apply andb_prop in Hb as [Hd Hm].
  rewrite Hm. apply Qle_bool_iff in Hd.
  pose proof (@region_delta_ping_backoff_mono c r w1 w2 Hr Hw) as Hmono.
  assert (Hd' : Qle_bool ping (best_ping p + region_delta_ping_backoff c r w2) = true)
    by (apply Qle_bool_iff; Lqa.lra).
  rewrite Hd'. cbn [andb].
  destruct (find_dc dcs id) as [dc|]; [|discriminate].
  apply memb_In. apply memb_In in Hreg. exact (@acceptable_regions_mono w1 w2 r Hw _ Hreg).
Qed.

Lemma acceptable_dcs_widen_witness :
  0 <= get_region_delta_ping_rate default_config NorthAmerica /\ 5 <= 40 /\
  incl (player_acceptable_dcs session_player 5 default_config NorthAmerica ex_dcs)
       (player_acceptable_dcs session_player 40 default_config NorthAmerica ex_dcs).
Proof.
  assert (H1 : 0 <= get_region_delta_ping_rate default_config NorthAmerica)
    by (apply Qle_bool_iff; vm_compute; reflexivity).
  assert (H2 : 5 <= 40) by (apply Qle_bool_iff; vm_compute; reflexivity).
  split; [exact H1|split; [exact H2|]].
  exact (@acceptable_dcs_widen session_player default_config NorthAmerica ex_dcs 5 40 H1 H2).
Defined.

(** X5: [create_party] succeeds exactly when the id list is not empty,
    has at most six entries, and names only players that exist, are in no
    party and are in the lobby or offline.  A repeated id is not
    rejected. *)
Theorem create_party_succeeds_iff s ids :
  (exists pid s', create_party s ids = (inr pid, s')) <->
  ids <> [] /\ (length ids <= 6)%nat /\ forall id, In id ids -> party_member_ok (players s) id.
Proof.
  unfold create_party. split.
  - destruct ids as [|i0 ids0]; [intros (? & ? & [=])|].
    destruct (validate_party_players (players s) (i0 :: ids0)) as [e|ps] eqn:Ev;
      [intros (? & ? & [=])|].
    destruct (Nat.ltb 6 (length (i0 :: ids0))) eqn:El; [intros (? & ? & [=])|].
    intros _. apply Nat.ltb_ge in El. destruct (validate_members _ _ Ev) as (_ & H & _).
    split; [discriminate|split; assumption].
  - intros (Hne & Hlen & Hall).
    destruct ids as [|i0 ids0]; [contradiction|].
    destruct (validate_complete _ Hall) as [ps Hps]. rewrite Hps.
    destruct (validate_members _ _ Hps) as (Hl & _ & _).
    assert (E : Nat.ltb 6 (length (i0 :: ids0)) = false) by (apply Nat.ltb_ge; exact Hlen).
    rewrite E. destruct ps as [|p0 ps]; [discriminate|].
    eexists _, _. reflexivity.
Qed.

(** X6: what a successful [create_party] does.  The new party gets the
    id [next_party_id], which is then incremented; it lists the given ids
    in order with the first as leader (the players table being keyed by
    player id); every listed player gets [party_id = Some pid] and nothing
    else changes; other parties, other players and the search queue are
    untouched. *)
Theorem create_party_effect s ids pid s' :
  player_keys_ok (players s) -> create_party s ids = (inr pid, s') ->
  pid = next_party_id s /\ next_party_id s' = S pid /\
  (exists party, parties s' !! pid = Some party /\ pt_player_ids party = ids /\
                 head ids = Some (leader_id party)) /\
  (forall q, q <> pid -> parties s' !! q = parties s !! q) /\
  (forall id, In id ids -> exists p, players s !! id = Some p /\
                                     players s' !! id = Some (set_party_id p (Some pid))) /\
  (forall id, ~ In id ids -> players s' !! id = players s !! id) /\
  searches s' = searches s.
Proof.
  intros Hk. unfold create_party.
  destruct ids as [|i0 ids0]; [intros [=]|].
  destruct (validate_party_players (players s) (i0 :: ids0)) as [e|ps] eqn:Ev; [intros [=]|].
  destruct (Nat.ltb 6 (length (i0 :: ids0))); [intros [=]|].
  destruct ps as [|p0 ps]; [intros [=]|].
  cbv zeta.
  match goal with
  | |- context [fold_left ?f (i0 :: ids0) ?m] => remember (fold_left f (i0 :: ids0) m) as pl eqn:Hpl
  end.
  intros [= <- <-].
  cbn [sim_with parties players searches next_party_id].
  destruct (validate_members _ _ Ev) as (_ & Hmem & Hids). specialize (Hids Hk).
  split; [reflexivity|split; [reflexivity|split; [|split; [|split; [|split]]]]].
  - eexists. split; [apply lookup_insert_eq|]. cbn. simpl in Hids. split; [exact Hids|]. injection Hids as E _. rewrite E. reflexivity.
  - intros q Hq. apply lookup_insert_ne. congruence.
  - intros id Hid. destruct (Hmem id Hid) as (p & Ep & _).
    exists p. split; [exact Ep|]. rewrite Hpl, fold_set_party, Ep.
    apply memb_In in Hid. rewrite Hid. reflexivity.
  - intros id Hid. rewrite Hpl, fold_set_party.
    destruct (memb id (i0 :: ids0)) eqn:E; [apply memb_In in E; contradiction|reflexivity].
  - reflexivity.
Qed.

Lemma create_party_effect_witness :
  player_keys_ok (players party_base) /\
  create_party party_base [0; 1]%nat = (inr 0%nat, duo_sim) /\
  0%nat = next_party_id party_base /\ next_party_id duo_sim = 1%nat /\
  (exists party, parties duo_sim !! 0%nat = Some party /\ pt_player_ids party = [0; 1]%nat /\
                 head [0; 1]%nat = Some (leader_id party)) /\
  (forall q, q <> 0%nat -> parties duo_sim !! q = parties party_base !! q) /\
  (forall id, In id [0; 1]%nat -> exists p, players party_base !! id = Some p /\
                                  players duo_sim !! id = Some (set_party_id p (Some 0%nat))) /\
  (forall id, ~ In id [0; 1]%nat -> players duo_sim !! id = players party_base !! id) /\
  searches duo_sim = searches party_base.
Proof.
  assert (Hk : player_keys_ok (players party_base)) by apply players_of_keys.
  assert (Hc : create_party party_base [0; 1]%nat = (inr 0%nat, duo_sim)) by reflexivity.
  exact (conj Hk (conj Hc (@create_party_effect party_base [0; 1]%nat 0 duo_sim Hk Hc))).
Defined.

(** X7: what a successful [join_party] does.  The party existed with
    fewer than six members and the player existed, was in no party and
    was in the lobby or offline; the player is appended to the member
    list, the leader is kept, and the player's record gets
    [party_id = Some pid] and nothing else.  Other parties and the search
    queue are untouched. *)
Theorem join_party_effect s pid player s' :
  join_party s pid player = (inr tt, s') ->
  exists party p,
    parties s !! pid = Some party /\ (length (pt_player_ids party) < 6)%nat /\
    players s !! player = Some p /\ party_id p = None /\ lobby_or_offline (state p) = true /\
    players s' = <[player := set_party_id p (Some pid)]> (players s) /\
    (exists party', parties s' !! pid = Some party' /\
                    pt_player_ids party' = pt_player_ids party ++ [player] /\
                    leader_id party' = leader_id party) /\
    (forall q, q <> pid -> parties s' !! q = parties s !! q) /\
    searches s' = searches s.
Proof.
  unfold join_party.
  destruct (parties s !! pid) as [party|] eqn:Ep; [|intros [=]].
  destruct (Nat.leb 6 (length (pt_player_ids party))) eqn:El; [intros [=]|].
  destruct (players s !! player) as [p|] eqn:Epl; [|intros [=]].
  destruct (bool_decide (party_id p <> None)) eqn:Eb; [intros [=]|].
  destruct (lobby_or_offline (state p)) eqn:Elo; [|intros [=]].
  cbn [negb]. intros [= <-]. exists party, p.
  apply Nat.leb_gt in El. apply bool_decide_eq_false in Eb.
  split; [first [exact Ep|reflexivity]|split; [exact El|split; [first [exact Epl|reflexivity]|
    split; [|split; [first [exact Elo|reflexivity]|split; [reflexivity|split; [|split]]]]]]].
  - destruct (party_id p); [|reflexivity]. exfalso. apply Eb. discriminate.
  - cbn [sim_with parties]. eexists. split; [apply lookup_insert_eq|].
    rewrite update_aggregates_ids, update_aggregates_leader. split; reflexivity.
  - intros q Hq. cbn [sim_with parties]. apply lookup_insert_ne. congruence.
  - reflexivity.
Qed.

(** X8: what a successful [leave_party] does.  The player was listed in
    the party; the player's record (if any) gets [party_id = None] and
    nothing else, other players are untouched; the party is deleted
    exactly when no other member remains; other parties and the search
    queue are untouched, so a search the party had queued stays queued. *)
Theorem leave_party_effect s pid player s' :
  leave_party s pid player = (inr tt, s') ->
  exists party,
    parties s !! pid = Some party /\ In player (pt_player_ids party) /\
    players s' !! player = (fun p => set_party_id p None) <$> players s !! player /\
    (forall id, id <> player -> players s' !! id = players s !! id) /\
    (parties s' !! pid = None <->
       List.filter (fun id => negb (Nat.eqb id player)) (pt_player_ids party) = []) /\
    (forall q, q <> pid -> parties s' !! q = parties s !! q) /\
    searches s' = searches s.
Proof.
  unfold leave_party.
  destruct (parties s !! pid) as [party|] eqn:Ep; [|intros [=]].
  destruct (memb player (pt_player_ids party)) eqn:Em; [|intros [=]].
  cbn [negb]. apply memb_In in Em.
  assert (Hpl : forall id,
    (match players s !! player with
     | Some p => <[player := set_party_id p None]> (players s)
     | None => players s
     end) !! id = if decide (id = player) then (fun p => set_party_id p None) <$> players s !! id
                  else players s !! id).
  { intros id. destruct (decide (id = player)) as [->|Hne].
    - destruct (players s !! player) eqn:E; simpl; [apply lookup_insert_eq|exact E].
    - destruct (players s !! player); [apply lookup_insert_ne; congruence|reflexivity]. }
  destruct (List.filter (fun id => negb (Nat.eqb id player)) (pt_player_ids party)) as [|first rest] eqn:Ef;
    intros [= <-]; exists party; cbn [sim_with parties players searches];
    (split; [reflexivity|split; [exact Em|split; [|split; [|split; [|split]]]]]).
  - rewrite Hpl, decide_True by reflexivity. reflexivity.
  - intros id Hid. rewrite Hpl, decide_False by exact Hid. reflexivity.
  - split; [intros _; exact Ef|intros _; apply lookup_delete_eq].
  - intros q Hq. apply lookup_delete_ne. congruence.
  - reflexivity.
  - rewrite Hpl, decide_True by reflexivity. reflexivity.
  - intros id Hid. rewrite Hpl, decide_False by exact Hid. reflexivity.
  - rewrite lookup_insert_eq. split; intros H; congruence.
  - intros q Hq. apply lookup_insert_ne. congruence.
  - reflexivity.
Qed.

(** X9: what [disband_party] does to an existing party.  It succeeds;
    the party is removed and no other party changes; each listed member
    found in the players table gets [party_id = None] and, if it was
    Searching, the state InLobby ([disband_member]); other players are
    untouched; and a search stays queued exactly when none of its players
    is a member who was Searching. *)
Theorem disband_party_effect s pid party :
  parties s !! pid = Some party ->
  fst (disband_party s pid) = inr tt /\
  parties (snd (disband_party s pid)) = delete pid (parties s) /\
  (forall id, players (snd (disband_party s pid)) !! id =
     if memb id (pt_player_ids party) then disband_member <$> players s !! id
     else players s !! id) /\
  (forall so, In so (searches (snd (disband_party s pid))) <->
     In so (searches s) /\
     forall id, In id (pt_player_ids party) -> In id (player_ids so) -> ~ searching_in (players s) id).
Proof.
  intros Ep. unfold disband_party. rewrite Ep.
  pose proof (disband_fold (pt_player_ids party) (players s) (searches s)) as H.
  destruct (fold_left _ (pt_player_ids party) (players s, searches s)) as [pl se].
  destruct H as [H1 H2]. cbn [fst snd sim_with parties players searches].
  split; [reflexivity|split; [reflexivity|split; [exact H1|exact H2]]].
Qed.

Lemma join_party_effect_witness :
  join_party trio_sim 0 2 = (inr tt, snd (join_party trio_sim 0 2)) /\
  exists party p,
    parties trio_sim !! 0%nat = Some party /\ (length (pt_player_ids party) < 6)%nat /\
    players trio_sim !! 2%nat = Some p /\ party_id p = None /\ lobby_or_offline (state p) = true /\
    players (snd (join_party trio_sim 0 2)) = <[2%nat := set_party_id p (Some 0%nat)]> (players trio_sim) /\
    (exists party', parties (snd (join_party trio_sim 0 2)) !! 0%nat = Some party' /\
                    pt_player_ids party' = pt_player_ids party ++ [2%nat] /\
                    leader_id party' = leader_id party) /\
    (forall q, q <> 0%nat -> parties (snd (join_party trio_sim 0 2)) !! q = parties trio_sim !! q) /\
    searches (snd (join_party trio_sim 0 2)) = searches trio_sim.
Proof.
  assert (Hj : join_party trio_sim 0 2 = (inr tt, snd (join_party trio_sim 0 2))) by reflexivity.
  exact (conj Hj (@join_party_effect trio_sim 0 2 _ Hj)).
Defined.

Lemma leave_party_effect_witness :
  leave_party duo_sim 0 1 = (inr tt, snd (leave_party duo_sim 0 1)) /\
  exists party,
    parties duo_sim !! 0%nat = Some party /\ In 1%nat (pt_player_ids party) /\
    players (snd (leave_party duo_sim 0 1)) !! 1%nat
      = (fun p => set_party_id p None) <$> players duo_sim !! 1%nat /\
    (forall id, id <> 1%nat -> players (snd (leave_party duo_sim 0 1)) !! id = players duo_sim !! id) /\
    (parties (snd (leave_party duo_sim 0 1)) !! 0%nat = None <->
       List.filter (fun id => negb (Nat.eqb id 1)) (pt_player_ids party) = []) /\
    (forall q, q <> 0%nat -> parties (snd (leave_party duo_sim 0 1)) !! q = parties duo_sim !! q) /\
    searches (snd (leave_party duo_sim 0 1)) = searches duo_sim.
Proof.
  assert (Hl : leave_party duo_sim 0 1 = (inr tt, snd (leave_party duo_sim 0 1))) by reflexivity.
  exact (conj Hl (@leave_party_effect duo_sim 0 1 _ Hl)).
Defined.

Lemma disband_party_effect_witness :
  parties duo_sim !! 0%nat = Some (from_players 0 (lobby_player 0) [lobby_player 1]) /\
  fst (disband_party duo_sim 0) = inr tt /\
  parties (snd (disband_party duo_sim 0)) = delete 0%nat (parties duo_sim) /\
  (forall id, players (snd (disband_party duo_sim 0)) !! id =
     if memb id (pt_player_ids (from_players 0 (lobby_player 0) [lobby_player 1]))
     then disband_member <$> players duo_sim !! id
     else players duo_sim !! id) /\
  (forall so, In so (searches (snd (disband_party duo_sim 0))) <->
     In so (searches duo_sim) /\
     forall id, In id (pt_player_ids (from_players 0 (lobby_player 0) [lobby_player 1])) ->
       In id (player_ids so) -> ~ searching_in (players duo_sim) id).
Proof.
  assert (Hp : parties duo_sim !! 0%nat = Some (from_players 0 (lobby_player 0) [lobby_player 1]))
    by reflexivity.
  exact (conj Hp (@disband_party_effect duo_sim 0 _ Hp)).
Defined.



(** X11: the histograms of lib.rs ([get_search_time_histogram],
    [get_delta_ping_histogram]) on a non-empty sample list and at least one
    bin.  With [w = max(max(0, samples) / num_bins, 1)] the result has
    [num_bins] bins; bin [i] spans [[i * w, (i + 1) * w)] and counts exactly
    the samples in that span, except that the first bin also takes the
    samples below 0 and the last bin every sample from [(num_bins - 1) * w]
    up.  The counts add up to the number of samples, and no sample lies
    beyond [num_bins * w]. *)
Theorem histogram_bins samples num_bins :
  samples <> [] -> (1 <= num_bins)%nat ->
  let w := Qmax (fold_left Qmax samples 0 / inject_Z (Z.of_nat num_bins)) 1 in
  exists h, histogram samples num_bins = Some h /\
    length h = num_bins /\
    sum_nat (map (fun '(_, _, c) => c) h) = length samples /\
    (forall i, (i < num_bins)%nat ->
       nth_error h i = Some (inject_Z (Z.of_nat i) * w, inject_Z (Z.of_nat (S i)) * w,
         length (List.filter (fun x => (Nat.eqb i 0 || Qle_bool (inject_Z (Z.of_nat i) * w) x) &&
                   (Nat.eqb i (num_bins - 1) || Qltb x (inject_Z (Z.of_nat (S i)) * w))) samples))) /\
    (forall x, In x samples -> x <= inject_Z (Z.of_nat num_bins) * w).
Proof.
  intros Hs Hn w.
  assert (Hw : 0 < w) by (eapply Qlt_le_trans; [|apply Q.le_max_r]; reflexivity).
  destruct (@histogram_fold _ (fun x => Nat.min (usize_of (x / w)) (num_bins - 1)) samples
              (repeat 0%nat num_bins)) as [v' [E [L [S N]]]].
  { intros x _. rewrite repeat_length. lia. }
  destruct samples as [|s0 rest]; [congruence|].
  unfold histogram. cbv zeta. unfold w in E. rewrite E.
  eexists; split; [reflexivity|].
  rewrite repeat_length in L. rewrite sum_nat_repeat0 in S.
  split; [|split; [|split]].
  - rewrite length_map. unfold indexed. rewrite length_combine, length_seq. lia.
  - rewrite map_map. 
    rewrite (map_ext_in _ snd); [|intros [i c] _; reflexivity].
    unfold indexed. rewrite map_snd_indexed_from. exact S.
  - intros i Hi. rewrite nth_error_map. unfold indexed.
    rewrite (@nth_error_indexed_from _ v' 0 i 0%nat) by lia. simpl. fold w.
    rewrite N, nth_repeat, (filter_ext _ _ (fun x => @bin_index_spec x w num_bins i Hw Hi)).
    reflexivity.
  - intros x Hx. apply Qle_trans with (fold_left Qmax (s0 :: rest) 0); [apply fold_Qmax_ge, Hx|].
    set (M := fold_left Qmax (s0 :: rest) 0).
    assert (Hnq : 0 < inject_Z (Z.of_nat num_bins)).
    { change 0 with (inject_Z 0). rewrite <- Zlt_Qlt. lia. }
    apply Qle_trans with (inject_Z (Z.of_nat num_bins) * (M / inject_Z (Z.of_nat num_bins))).
    + apply Qle_lteq. right. field. intros Hz. rewrite Hz in Hnq. discriminate.
    + rewrite !(Qmult_comm (inject_Z _)). apply Qmult_le_compat_r; [apply Q.le_max_l|].
      apply Qlt_le_weak, Hnq.
Qed.

Lemma histogram_bins_witness :
  [3; 7; 12] <> [] /\ (1 <= 4)%nat /\
  (let w := Qmax (fold_left Qmax [3; 7; 12] 0 / inject_Z (Z.of_nat 4)) 1 in
   exists h, histogram [3; 7; 12] 4 = Some h /\
    length h = 4%nat /\
    sum_nat (map (fun '(_, _, c) => c) h) = length [3; 7; 12] /\
    (forall i, (i < 4)%nat ->
       nth_error h i = Some (inject_Z (Z.of_nat i) * w, inject_Z (Z.of_nat (S i)) * w,
         length (List.filter (fun x => (Nat.eqb i 0 || Qle_bool (inject_Z (Z.of_nat i) * w) x) &&
                   (Nat.eqb i (4 - 1) || Qltb x (inject_Z (Z.of_nat (S i)) * w))) [3; 7; 12]))) /\
    (forall x, In x [3; 7; 12] -> x <= inject_Z (Z.of_nat 4) * w)).
Proof.
  assert (H1 : [3; 7; 12] <> []) by discriminate.
  assert (H2 : (1 <= 4)%nat) by lia.
  exact (conj H1 (conj H2 (@histogram_bins [3; 7; 12] 4%nat H1 H2))).
Defined.


(** X13: [get_skill_distribution] never panics and returns twenty
    buckets; bucket [i] is labelled [i / 19 * 2 - 1] and counts the players
    whose skill lies in [[i / 19 * 2 - 1, (i + 1) / 19 * 2 - 1)], the first
    bucket also taking the skills below [-1] and the last one the skills
    from [1] up.  The counts add up to the number of players. *)
Theorem skill_distribution_buckets s :
  exists d, get_skill_distribution s = Some d /\ length d = 20%nat /\
    sum_nat (map snd d) = base.size (players s) /\
    forall i, (i < 20)%nat ->
      nth_error d i = Some (inject_Z (Z.of_nat i) / 19 * 2 - 1,
        length (List.filter (fun p =>
            (Nat.eqb i 0 || Qle_bool (inject_Z (Z.of_nat i) / 19 * 2 - 1) (skill p)) &&
            (Nat.eqb i 19 || Qltb (skill p) (inject_Z (Z.of_nat (S i)) / 19 * 2 - 1)))
          (map snd (map_to_list (players s))))).
Proof.
  destruct (@histogram_fold _ (fun p => Nat.min (usize_of ((skill p + 1) / 2 * 19)) 19)
              (map snd (map_to_list (players s))) (repeat 0%nat 20)) as [v' [E [L [S N]]]].
  { intros x _. rewrite repeat_length. lia. }
  unfold get_skill_distribution. cbv zeta. rewrite E.
  eexists; split; [reflexivity|].
  rewrite repeat_length in L. rewrite sum_nat_repeat0, length_map, length_map_to_list in S.
  split; [|split].
  - rewrite length_map. unfold indexed. rewrite length_combine, length_seq. lia.
  - rewrite map_map.
    rewrite (map_ext_in _ snd); [|intros [i c] _; reflexivity].
    unfold indexed. rewrite map_snd_indexed_from. exact S.
  - intros i Hi. rewrite nth_error_map. unfold indexed.
    rewrite (@nth_error_indexed_from _ v' 0 i 0%nat) by lia.
    rewrite N, nth_repeat, (filter_ext _ _ (fun p => @skill_bucket_index (skill p) i Hi)).
    reflexivity.
Qed.

(** X14: [update_skill_percentiles] with at least one skill bucket.  It
    succeeds and changes the players table only in [skill_percentile] and
    [skill_bucket]: every player gets a percentile strictly between 0 and 1
    and a bucket in [[1, num_skill_buckets]], and no player is added.  A
    player of strictly higher skill gets a strictly higher percentile and
    a bucket at least as high.  This holds for any iteration order of the
    players table. *)
Theorem update_skill_percentiles_spec iter s :
  (forall l, Permutation (iter l) l) -> (1 <= num_skill_buckets (config s))%nat ->
  exists pl', update_skill_percentiles iter s = Some (set_players s pl') /\
    (forall id, players s !! id = None -> pl' !! id = None) /\
    (forall id p, players s !! id = Some p -> exists pct b,
        pl' !! id = Some (set_skill_bucket (set_skill_percentile p pct) b) /\
        0 < pct < 1 /\ (1 <= b <= num_skill_buckets (config s))%nat) /\
    (forall a b pa pb pa' pb', players s !! a = Some pa -> players s !! b = Some pb ->
        pl' !! a = Some pa' -> pl' !! b = Some pb' -> skill pa < skill pb ->
        skill_percentile pa' < skill_percentile pb' /\ (skill_bucket pa' <= skill_bucket pb')%nat).
Proof.
  intros Hiter Hn.
  destruct (@skills_sorted_facts iter (players s) Hiter) as [Hnd [Hlen [Hin [_ Hsort]]]].
  unfold update_skill_percentiles. cbv zeta.
  set (S := sort_stable _ _) in *.
  set (nb := num_skill_buckets (config s)) in *.
  set (n := inject_Z (Z.of_nat (length S))).
  destruct (@percentile_fold nb n (indexed S) (players s) Hn Hnd) as [pl' [E [_ [Hb Hc]]]].
  rewrite E. exists pl'. split; [reflexivity|].
  (* each player gets the percentile of its rank *)
  assert (Hrank : forall id p, players s !! id = Some p -> exists r, nth_error S r = Some (id, skill p) /\
     exists b, pl' !! id = Some (set_skill_bucket (set_skill_percentile p
                 ((inject_Z (Z.of_nat r) + 1 / 2) / n)) b) /\
       b = Nat.max 1 (Nat.min (usize_of ((inject_Z (Z.of_nat r) + 1 / 2) / n * inject_Z (Z.of_nat nb))) nb)).
  { intros id p Hp. destruct (Hin id p Hp) as [r Hr]. exists r. split; [exact Hr|].
    destruct (@update_skill_bucket_some (set_skill_percentile p ((inject_Z (Z.of_nat r) + 1 / 2) / n)) nb Hn)
      as [b [Eb Hbv]].
    exists b. split; [|exact Hbv].
    rewrite <- Eb. symmetry. eapply Hc; [apply nth_error_In_indexed, Hr | exact Hp]. }
  split; [exact Hb|]. split.
  - intros id p Hp. destruct (Hrank id p Hp) as [r [Hr [b [Hl Hbv]]]].
    exists ((inject_Z (Z.of_nat r) + 1 / 2) / n), b. split; [exact Hl|]. split; [|lia].
    apply rank_pct_bounds. apply nth_error_Some. congruence.
  - intros a b pa pb pa' pb' Ha Hb' Ha' Hb'' Hlt.
    destruct (Hrank a pa Ha) as [ra [Hra [ba [Hla Hba]]]].
    destruct (Hrank b pb Hb') as [rb [Hrb [bb [Hlb Hbb]]]].
    rewrite Hla in Ha'. injection Ha' as <-. rewrite Hlb in Hb''. injection Hb'' as <-.
    assert (Hr : (ra < rb)%nat).
    { destruct (Nat.lt_trichotomy ra rb) as [|[<-|Hgt]]; [assumption| |].
      - rewrite Hra in Hrb. injection Hrb as _ Hs. rewrite Hs in Hlt. exfalso. apply (Qlt_irrefl _ Hlt).
      - exfalso. pose proof (sorted_nth_error Hsort Hgt Hrb Hra) as Hle. simpl in Hle.
        apply (Qlt_not_le _ _ Hlt Hle). }
    assert (Hrbn : (rb < length S)%nat) by (apply nth_error_Some; congruence).
    pose proof (rank_pct_lt Hr Hrbn) as Hpct.
    split; [exact Hpct|]. simpl. rewrite Hba, Hbb.
    assert (Hm : (usize_of ((inject_Z (Z.of_nat ra) + 1 / 2) / n * inject_Z (Z.of_nat nb)) <=
                  usize_of ((inject_Z (Z.of_nat rb) + 1 / 2) / n * inject_Z (Z.of_nat nb)))%nat).
    { apply usize_of_mono. apply Qmult_le_compat_r; [apply Qlt_le_weak, Hpct|].
      change 0 with (inject_Z 0). rewrite <- Zle_Qle. lia. }
    lia.
Qed.

Lemma update_skill_percentiles_spec_witness :
  (forall l : list (nat * Player), Permutation l l) /\
  (1 <= num_skill_buckets (config trio_base))%nat /\
  exists pl', update_skill_percentiles (fun l => l) trio_base = Some (set_players trio_base pl') /\
    (forall id, players trio_base !! id = None -> pl' !! id = None) /\
    (forall id p, players trio_base !! id = Some p -> exists pct b,
        pl' !! id = Some (set_skill_bucket (set_skill_percentile p pct) b) /\
        0 < pct < 1 /\ (1 <= b <= num_skill_buckets (config trio_base))%nat) /\
    (forall a b pa pb pa' pb', players trio_base !! a = Some pa -> players trio_base !! b = Some pb ->
        pl' !! a = Some pa' -> pl' !! b = Some pb' -> skill pa < skill pb ->
        skill_percentile pa' < skill_percentile pb' /\ (skill_bucket pa' <= skill_bucket pb')%nat).
Proof.
  assert (H1 : forall l : list (nat * Player), Permutation l l) by (intros l; reflexivity).
  assert (H2 : (1 <= num_skill_buckets (config trio_base))%nat) by (vm_compute; lia).
  exact (conj H1 (conj H2 (@update_skill_percentiles_spec (fun l => l) trio_base H1 H2))).
Defined.

(** X15: [update_skill_percentiles] panics (in [clamp(1, 0)] of
    [update_skill_bucket]) exactly when there is a player and
    [num_skill_buckets = 0]. *)
Theorem update_skill_percentiles_none_iff iter s :
  (forall l, Permutation (iter l) l) ->
  update_skill_percentiles iter s = None <-> players s <> ∅ /\ num_skill_buckets (config s) = 0%nat.
Proof.
  intros Hiter.
  destruct (@skills_sorted_facts iter (players s) Hiter) as [Hnd [Hlen [_ [Hback _]]]].
  unfold update_skill_percentiles. cbv zeta.
  set (sk := sort_stable _ _) in *.
  set (nb := num_skill_buckets (config s)) in *.
  set (n := inject_Z (Z.of_nat (length sk))).
  destruct nb as [|nb'] eqn:Enb.
  - destruct sk as [|[id0 x0] S'] eqn:Esk.
    + split; [discriminate|]. intros [Hne _]. exfalso. apply Hne.
      apply map_size_empty_iff. simpl in Hlen. lia.
    + destruct (Hback 0%nat id0 x0 eq_refl) as [p [Hp ->]].
      unfold indexed. cbn [length seq combine fold_left].
      unfold percentile_step at 2. rewrite Hp. rewrite update_skill_bucket_zero.
      rewrite percentile_fold_none. split; [intros _; split; [|reflexivity]|reflexivity].
      intros He. rewrite He in Hp. rewrite lookup_empty in Hp. discriminate.
  - destruct (@percentile_fold (S nb') n (indexed sk) (players s)) as [pl' [E _]]; [lia|exact Hnd|].
    rewrite E. split; [discriminate | intros [_ H]; discriminate].
Qed.

Lemma update_skill_percentiles_none_iff_witness :
  (forall l : list (nat * Player), Permutation l l) /\
  (update_skill_percentiles (fun l => l) trio_base = None <->
   players trio_base <> ∅ /\ num_skill_buckets (config trio_base) = 0%nat).
Proof.
  assert (H1 : forall l : list (nat * Player), Permutation l l) by (intros l; reflexivity).
  exact (conj H1 (@update_skill_percentiles_none_iff (fun l => l) trio_base H1)).
Defined.

(** X16: the percentile blocks of [update_stats] on a non-empty sample
    list never index out of bounds, and the percentiles they store are
    samples in order: [p50 <= p90 <= p99] for the search times,
    [p50 <= p90] for the delta pings. *)
Theorem update_stats_percentiles samples : samples <> [] ->
  (exists avg p50 p90 p99, search_time_percentiles samples = Some (avg, p50, p90, p99) /\
     In p50 samples /\ In p90 samples /\ In p99 samples /\ p50 <= p90 /\ p90 <= p99) /\
  (exists avg p50 p90, delta_ping_percentiles samples = Some (avg, p50, p90) /\
     In p50 samples /\ In p90 samples /\ p50 <= p90).
Proof.
  intros Hne.
  destruct (sort_Q_facts samples) as [Hs [Hin Hlen]].
  set (sorted := sort_stable Qltb samples) in *.
  assert (Hpos : (1 <= length sorted)%nat) by (destruct samples; [congruence|]; simpl in Hlen; lia).
  set (len := length sorted) in *.
  assert (I90 : usize_of (inject_Z (Z.of_nat len) * (9 # 10)) = Z.to_nat ((Z.of_nat len * 9) / 10))
    by apply usize_of_frac.
  assert (I99 : usize_of (Qmin (inject_Z (Z.of_nat len) * (99 # 100)) (inject_Z (Z.of_nat (len - 1))))
               = Nat.min (Z.to_nat ((Z.of_nat len * 99) / 100)) (len - 1)).
  { rewrite usize_of_min, usize_of_frac, usize_of_Z. lia. }
  set (i90 := Z.to_nat ((Z.of_nat len * 9) / 10)) in *.
  set (i99 := Nat.min (Z.to_nat ((Z.of_nat len * 99) / 100)) (len - 1)) in *.
  assert (L50 : (len / 2 < len)%nat) by (apply Nat.div_lt; lia).
  assert (L90 : (i90 < len)%nat) by (unfold i90; zify; Z.div_mod_to_equations; lia).
  assert (L99 : (i99 < len)%nat) by (unfold i99; lia).
  assert (O1 : (len / 2 <= i90)%nat).
  { unfold i90. pose proof (Nat2Z.inj_div len 2) as Hd. zify. Z.div_mod_to_equations. lia. }
  assert (O2 : (i90 <= i99)%nat) by (unfold i90, i99; zify; Z.div_mod_to_equations; lia).
  destruct (@nth_error_lt_some _ sorted _ L50) as [p50 E50].
  destruct (@nth_error_lt_some _ sorted _ L90) as [p90 E90].
  destruct (@nth_error_lt_some _ sorted _ L99) as [p99 E99].
  split.
  - exists (sumQ sorted / inject_Z (Z.of_nat len)), p50, p90, p99.
    unfold search_time_percentiles. fold sorted len. rewrite I90, I99, E50, E90, E99.
    split; [reflexivity|].
    repeat split; [eapply Hin; eassumption .. | |].
    + exact (sorted_nth_le Hs O1 E50 E90).
    + exact (sorted_nth_le Hs O2 E90 E99).
  - exists (sumQ sorted / inject_Z (Z.of_nat len)), p50, p90.
    unfold delta_ping_percentiles. fold sorted len. rewrite I90, E50, E90.
    split; [reflexivity|].
    repeat split; [eapply Hin; eassumption .. |].
    exact (sorted_nth_le Hs O1 E50 E90).
Qed.

Lemma update_stats_percentiles_witness :
  [5; 1; 3] <> [] /\
  (exists avg p50 p90 p99, search_time_percentiles [5; 1; 3] = Some (avg, p50, p90, p99) /\
     In p50 [5; 1; 3] /\ In p90 [5; 1; 3] /\ In p99 [5; 1; 3] /\ p50 <= p90 /\ p90 <= p99) /\
  (exists avg p50 p90, delta_ping_percentiles [5; 1; 3] = Some (avg, p50, p90) /\
     In p50 [5; 1; 3] /\ In p90 [5; 1; 3] /\ p50 <= p90).
Proof.
  assert (H1 : [5; 1; 3] <> []) by discriminate.
  exact (conj H1 (@update_stats_percentiles [5; 1; 3] H1)).
Defined.

(** X17: the churn rate stored by [update_churn_stats] lies in [[0, 1]], is
    0 when there are no players, and times the population is at most the
    number of offline players. *)
Theorem update_churn_stats_rate s :
  0 <= churn_rate (stats (update_churn_stats s)) <= 1 /\
  (players s = ∅ -> churn_rate (stats (update_churn_stats s)) = 0) /\
  churn_rate (stats (update_churn_stats s)) * inject_Z (Z.of_nat (base.size (players s))) <=
    inject_Z (Z.of_nat (length (List.filter (fun p => bool_decide (state p = Offline))
                                  (map snd (map_to_list (players s)))))).
Proof.
  unfold update_churn_stats. cbv zeta. cbn [set_stats sim_with stats churn_rate].
  set (l := map snd (map_to_list (players s))).
  set (c := fold_left _ l 0%nat).
  assert (Hc : (c <= length (List.filter (fun p => bool_decide (state p = Offline)) l))%nat)
    by apply churn_fold_bounds.
  assert (Hf : (length (List.filter (fun p => bool_decide (state p = Offline)) l) <= base.size (players s))%nat).
  { rewrite <- length_map_to_list, <- (length_map snd). apply List.filter_length_le. }
  destruct (Nat.ltb_spec 0 (base.size (players s))) as [Hp|Hp].
  - set (t := inject_Z (Z.of_nat (base.size (players s)))).
    assert (Ht : 0 < t) by (unfold t; change 0 with (inject_Z 0); rewrite <- Zlt_Qlt; lia).
    assert (Hc0 : 0 <= inject_Z (Z.of_nat c)) by (change 0 with (inject_Z 0); rewrite <- Zle_Qle; lia).
    assert (Hct : inject_Z (Z.of_nat c) <= t) by (unfold t; rewrite <- Zle_Qle; lia).
    split; [split|split].
    + apply Qle_shift_div_l; [exact Ht|]. Lqa.lra.
    + apply Qle_shift_div_r; [exact Ht|]. Lqa.lra.
    + intros He. rewrite He, map_size_empty in Hp. lia.
    + assert (E : inject_Z (Z.of_nat c) / t * t == inject_Z (Z.of_nat c))
        by (field; intros Hz; rewrite Hz in Ht; discriminate).
      rewrite E. rewrite <- Zle_Qle. lia.
  - split; [split; discriminate|]. split; [reflexivity|].
    rewrite Qmult_0_l. change 0 with (inject_Z 0). rewrite <- Zle_Qle. lia.
Qed.

(** X18 (matchmaker.rs, [calculate_quality]): for a nonempty lobby, a
    positive [max_ping] and nonnegative weights and tick interval, the
    quality is nonnegative; if moreover no player's ping to the chosen data
    center is below its best ping, the quality is at most the sum of the
    three weights. *)
Theorem calculate_quality_bounds c searches players dc now :
  searches <> [] -> 0 < max_ping c -> 0 <= tick_interval c ->
  0 <= quality_weight_ping c -> 0 <= quality_weight_skill_balance c ->
  0 <= quality_weight_wait_time c ->
  0 <= calculate_quality c searches players dc now /\
  ((forall pid p ping, players !! pid = Some p -> alist_get dc (dc_pings p) = Some ping ->
      best_ping p <= ping) ->
   calculate_quality c searches players dc now <=
     quality_weight_ping c + quality_weight_skill_balance c + quality_weight_wait_time c).
Proof.
  intros Hne Hmax Htick Hwp Hws Hww.
  unfold calculate_quality. cbv zeta.
  set (deltas := omap _ _).
  set (avg_delta := if Nat.ltb 0 (length deltas) then _ else 0).
  set (skills := map avg_skill_percentile searches).
  set (var := if Nat.ltb 1 (length skills) then _ else 0).
  set (avg_wait := sumQ _ / _).
  assert (Hlen : 0 < inject_Z (Z.of_nat (length searches))).
  { destruct searches; [congruence|]. change 0 with (inject_Z 0). rewrite <- Zlt_Qlt. simpl. lia. }
  assert (Hvar : 0 <= var).
  { unfold var. destruct (Nat.ltb_spec 1 (length skills)); [|apply Qle_refl].
    apply Qdiv_nonneg_pos.
    - apply sumQ_nonneg. intros x Hx. apply in_map_iff in Hx as [s [<- _]].
      apply Qsquare_nonneg.
    - change 0 with (inject_Z 0). rewrite <- Zlt_Qlt. lia. }
  assert (Hwait : 0 <= avg_wait).
  { unfold avg_wait. apply Qdiv_nonneg_pos; [|exact Hlen].
    apply sumQ_nonneg. intros x Hx. apply in_map_iff in Hx as [s [<- _]].
    unfold wait_time. apply Qmult_le_0_compat; [apply inject_nat_nonneg | exact Htick]. }
  assert (Hwq0 : 0 <= Qmin (avg_wait / 60) 1).
  { apply Q.min_glb; [apply Qdiv_nonneg_pos; [exact Hwait | reflexivity] | discriminate]. }
  assert (Hwq1 : Qmin (avg_wait / 60) 1 <= 1) by apply Q.le_min_r.
  split.
  - pose proof (one_minus_min_nonneg (avg_delta / max_ping c)).
    pose proof (one_minus_min_nonneg (var * 4)).
    pose proof (@weighted_nonneg _ _ Hwp H). pose proof (@weighted_nonneg _ _ Hws H0).
    pose proof (@weighted_nonneg _ _ Hww Hwq0). Lqa.lra.
  - intros Hping.
    assert (Hd : 0 <= avg_delta).
    { unfold avg_delta. destruct (Nat.ltb_spec 0 (length deltas)); [|apply Qle_refl].
      apply Qdiv_nonneg_pos.
      - apply sumQ_nonneg. intros x Hx. apply list_elem_of_In, list_elem_of_omap in Hx as [pid [_ Hx]].
        destruct (players !! pid) as [p|] eqn:Ep; [|discriminate]. simpl in Hx.
        destruct (alist_get dc (dc_pings p)) as [ping|] eqn:Eg; [|discriminate].
        simpl in Hx. injection Hx as <-. pose proof (Hping pid p ping Ep Eg). Lqa.lra.
      - change 0 with (inject_Z 0). rewrite <- Zlt_Qlt. lia. }
    pose proof (@one_minus_min_le_one (avg_delta / max_ping c) (Qdiv_nonneg_pos Hd Hmax)).
    pose proof (@one_minus_min_le_one (var * 4) (Qmult_le_0_compat var 4 Hvar ltac:(discriminate))).
    pose proof (@weighted_le _ _ Hwp H). pose proof (@weighted_le _ _ Hws H0).
    pose proof (@weighted_le _ _ Hww Hwq1). Lqa.lra.
Qed.

Lemma calculate_quality_bounds_witness :
  0 <= calculate_quality default_config ex_searches ex_players 0 10 /\
  ((forall pid p ping, ex_players !! pid = Some p -> alist_get 0%nat (dc_pings p) = Some ping ->
      best_ping p <= ping) ->
   calculate_quality default_config ex_searches ex_players 0 10 <=
     quality_weight_ping default_config + quality_weight_skill_balance default_config
     + quality_weight_wait_time default_config).
Proof.
  assert (H1 : ex_searches <> []) by (vm_compute; discriminate).
  assert (H2 : 0 < max_ping default_config) by reflexivity.
  assert (H3 : 0 <= tick_interval default_config) by (vm_compute; discriminate).
  assert (H4 : 0 <= quality_weight_ping default_config) by (vm_compute; discriminate).
  assert (H5 : 0 <= quality_weight_skill_balance default_config) by (vm_compute; discriminate).
  assert (H6 : 0 <= quality_weight_wait_time default_config) by (vm_compute; discriminate).
  exact (@calculate_quality_bounds default_config ex_searches ex_players 0 10 H1 H2 H3 H4 H5 H6).
Defined.


(** X19 (simulation.rs, [start_search]; types.rs, [to_search_object]): when
    the leader of an existing party starts a search and every member is in
    the lobby, one search is appended with the next search id, the party's
    player ids and the current time; every member is set searching with the
    current time as search start, other players and the parties are
    unchanged, and the search's acceptable data centers are those acceptable
    to every member (none for an empty party). *)
Theorem start_search_party s leader p0 q party :
  players s !! leader = Some p0 -> party_id p0 = Some q -> parties s !! q = Some party ->
  leader_id party = leader ->
  (forall id, In id (pt_player_ids party) -> exists p, players s !! id = Some p /\ state p = InLobby) ->
  exists search,
    searches (start_search s leader) = searches s ++ [search] /\
    so_id search = next_search_id s /\ player_ids search = pt_player_ids party /\
    search_start_time search = current_time s /\
    next_search_id (start_search s leader) = S (next_search_id s) /\
    (forall id p, In id (pt_player_ids party) -> players s !! id = Some p ->
       players (start_search s leader) !! id = Some (set_searching p (current_time s))) /\
    (forall id, ~ In id (pt_player_ids party) -> players (start_search s leader) !! id = players s !! id) /\
    (forall d, In d (acceptable_dcs search) <->
       pt_player_ids party <> [] /\
       forall id p, In id (pt_player_ids party) -> players s !! id = Some p ->
         In d (player_acceptable_dcs p 0 (config s) (region p) (data_centers s))) /\
    parties (start_search s leader) = parties s.
Proof.
  intros Hp0 Hq Hparty Hlead Hready.
  assert (Hall : forallb (fun pid => match players s !! pid with
                                     | Some p => bool_decide (state p = InLobby)
                                     | None => false
                                     end) (pt_player_ids party) = true).
  { apply forallb_forall. intros id Hid. destruct (Hready id Hid) as [p [Ep Hs]].
    rewrite Ep. apply bool_decide_eq_true, Hs. }
  unfold start_search. rewrite Hp0, Hq, Hparty, Hlead, Nat.eqb_refl, Hall. cbn [negb].
  set (pl := fold_left _ (pt_player_ids party) (players s)).
  assert (Hpl : forall id, pl !! id = if memb id (pt_player_ids party)
                                      then (fun p => set_searching p (current_time s)) <$> players s !! id
                                      else players s !! id) by apply fold_set_searching.
  eexists. split; [reflexivity|]. split; [reflexivity|]. split; [reflexivity|].
  split; [reflexivity|]. split; [reflexivity|]. split; [|split; [|split]].
  - intros id p Hid Ep. cbn [players sim_after_search]. rewrite Hpl.
    apply memb_In in Hid. rewrite Hid, Ep. reflexivity.
  - intros id Hid. cbn [players sim_after_search]. rewrite Hpl.
    destruct (memb id (pt_player_ids party)) eqn:Em; [apply memb_In in Em; contradiction|reflexivity].
  - intros d. unfold to_search_object. cbv zeta. cbn [acceptable_dcs].
    rewrite (inter_fold (fun player => player_acceptable_dcs player 0 (config s) (region player) (data_centers s))).
    split.
    + intros [Hne Hps]. split.
      * intros E. rewrite E in Hne. apply Hne. reflexivity.
      * intros id p Hid Ep. 
        apply (Hps (set_searching p (current_time s))).
        apply in_omap_lookup. exists id. split; [exact Hid|]. rewrite Hpl.
        apply memb_In in Hid. rewrite Hid, Ep. reflexivity.
    + intros [Hne Hall']. split.
      * destruct (pt_player_ids party) as [|id0 ids0] eqn:Eids; [congruence|].
        destruct (Hready id0 (or_introl eq_refl)) as [p [Ep _]].
        intros E. assert (Hin : In (set_searching p (current_time s)) (omap (fun id => pl !! id) (id0 :: ids0))).
        { apply in_omap_lookup. exists id0. split; [left; reflexivity|]. rewrite Hpl.
          rewrite <- Eids. assert (Hm : memb id0 (pt_player_ids party) = true)
            by (apply memb_In; rewrite Eids; left; reflexivity).
          rewrite Hm, Ep. reflexivity. }
        rewrite E in Hin. contradiction.
      * intros p' Hp'. apply in_omap_lookup in Hp' as [id [Hid Ep']].
        rewrite Hpl in Ep'. assert (Hm : memb id (pt_player_ids party) = true) by (apply memb_In, Hid).
        rewrite Hm in Ep'. destruct (players s !! id) as [p|] eqn:Ep; [|discriminate].
        injection Ep' as <-. apply (Hall' id p Hid Ep).
  - reflexivity.
Qed.


Lemma start_search_party_witness :
  exists search,
    searches (start_search duo_sim 0) = searches duo_sim ++ [search] /\
    so_id search = next_search_id duo_sim /\ player_ids search = pt_player_ids duo_party /\
    search_start_time search = current_time duo_sim /\
    next_search_id (start_search duo_sim 0) = S (next_search_id duo_sim) /\
    (forall id p, In id (pt_player_ids duo_party) -> players duo_sim !! id = Some p ->
       players (start_search duo_sim 0) !! id = Some (set_searching p (current_time duo_sim))) /\
    (forall id, ~ In id (pt_player_ids duo_party) -> players (start_search duo_sim 0) !! id = players duo_sim !! id) /\
    (forall d, In d (acceptable_dcs search) <->
       pt_player_ids duo_party <> [] /\
       forall id p, In id (pt_player_ids duo_party) -> players duo_sim !! id = Some p ->
         In d (player_acceptable_dcs p 0 (config duo_sim) (region p) (data_centers duo_sim))) /\
    parties (start_search duo_sim 0) = parties duo_sim.
Proof.
  assert (H1 : players duo_sim !! 0%nat = Some (duo_member 0)) by (vm_compute; reflexivity).
  assert (H2 : party_id (duo_member 0) = Some 0%nat) by (vm_compute; reflexivity).
  assert (H3 : parties duo_sim !! 0%nat = Some duo_party) by (vm_compute; reflexivity).
  assert (H4 : leader_id duo_party = 0%nat) by (vm_compute; reflexivity).
  assert (H5 : forall id, In id (pt_player_ids duo_party) ->
                 exists p, players duo_sim !! id = Some p /\ state p = InLobby).
  { intros id Hid. vm_compute in Hid. destruct Hid as [<- | [<- | []]];
      [exists (duo_member 0) | exists (duo_member 1)]; split; vm_compute; reflexivity. }
  exact (@start_search_party duo_sim 0 (duo_member 0) 0 duo_party H1 H2 H3 H4 H5).
Defined.

(** X20 (simulation.rs, [start_search]): a player of an existing party who
    is not its leader, or whose party has a member that is missing or not in
    the lobby, starts nothing: the simulation is unchanged. *)
Theorem start_search_refused s pid p0 q party :
  players s !! pid = Some p0 -> party_id p0 = Some q -> parties s !! q = Some party ->
  leader_id party <> pid \/
  (exists id, In id (pt_player_ids party) /\
     forall p, players s !! id = Some p -> state p <> InLobby) ->
  start_search s pid = s.
Proof.
  intros Hp0 Hq Hparty Hno. unfold start_search. rewrite Hp0, Hq, Hparty.
  destruct Hno as [Hl | [id [Hid Hst]]].
  - apply Nat.eqb_neq in Hl. rewrite Hl. reflexivity.
  - destruct (Nat.eqb (leader_id party) pid); [|reflexivity]. cbn [negb].
    assert (Hf : forallb (fun pid => match players s !! pid with
                                     | Some p => bool_decide (state p = InLobby)
                                     | None => false
                                     end) (pt_player_ids party) = false).
    { apply not_true_iff_false. intros Hf. apply forallb_forall with (x := id) in Hf; [|exact Hid].
      destruct (players s !! id) as [p|] eqn:Ep; [|discriminate].
      apply bool_decide_eq_true in Hf. exact (Hst p eq_refl Hf). }
    rewrite Hf. reflexivity.
Qed.


Lemma start_search_refused_witness :
  players duo_sim !! 1%nat = Some (duo_member 1) /\ party_id (duo_member 1) = Some 0%nat /\
  parties duo_sim !! 0%nat = Some duo_party /\ start_search duo_sim 1 = duo_sim.
Proof.
  assert (H1 : players duo_sim !! 1%nat = Some (duo_member 1)) by (vm_compute; reflexivity).
  assert (H2 : party_id (duo_member 1) = Some 0%nat) by (vm_compute; reflexivity).
  assert (H3 : parties duo_sim !! 0%nat = Some duo_party) by (vm_compute; reflexivity).
  assert (H4 : leader_id duo_party <> 1%nat \/
               (exists id, In id (pt_player_ids duo_party) /\
                  forall p, players duo_sim !! id = Some p -> state p <> InLobby))
    by (left; vm_compute; discriminate).
  exact (conj H1 (conj H2 (conj H3 (@start_search_refused duo_sim 1 (duo_member 1) 0 duo_party H1 H2 H3 H4)))).
Defined.

(** X21 (simulation.rs, [start_search]): [start_search] either leaves the
    simulation unchanged or appends exactly one search, with the next search
    id and the current time; it increments the search id, sets exactly the
    search's players (all present before) searching from the current time,
    and leaves every other player and the parties unchanged. *)
Theorem start_search_one_search s pid :
  start_search s pid = s \/
  exists search,
    searches (start_search s pid) = searches s ++ [search] /\
    so_id search = next_search_id s /\
    search_start_time search = current_time s /\
    next_search_id (start_search s pid) = S (next_search_id s) /\
    (forall id, In id (player_ids search) -> exists p, players s !! id = Some p /\
       players (start_search s pid) !! id = Some (set_searching p (current_time s))) /\
    (forall id, ~ In id (player_ids search) ->
       players (start_search s pid) !! id = players s !! id) /\
    parties (start_search s pid) = parties s.
Proof.
  destruct (players s !! pid) as [p0|] eqn:Hp0;
    [|left; unfold start_search; rewrite Hp0; reflexivity].
  destruct (match party_id p0 with Some q => parties s !! q | None => None end)
    as [party|] eqn:Hparty.
  - destruct (party_id p0) as [q|] eqn:Hq; [|discriminate].
    destruct (Nat.eqb (leader_id party) pid) eqn:Hl;
      [|left; unfold start_search; rewrite Hp0, Hq, Hparty, Hl; reflexivity].
    apply Nat.eqb_eq in Hl.
    destruct (forallb (fun pid => match players s !! pid with
                                  | Some p => bool_decide (state p = InLobby)
                                  | None => false
                                  end) (pt_player_ids party)) eqn:Hall;
      [|left; unfold start_search; rewrite Hp0, Hq, Hparty, Hl, Nat.eqb_refl, Hall; reflexivity].
    right. unfold start_search. rewrite Hp0, Hq, Hparty, Hl, Nat.eqb_refl, Hall. cbn [negb].
    set (pl := fold_left _ (pt_player_ids party) (players s)).
    assert (Hpl : forall id, pl !! id = if memb id (pt_player_ids party)
                                        then (fun p => set_searching p (current_time s)) <$> players s !! id
                                        else players s !! id) by apply fold_set_searching.
    eexists. split; [reflexivity|]. split; [reflexivity|]. split; [reflexivity|].
    split; [reflexivity|]. cbn [player_ids to_search_object]. split; [|split].
    + intros id Hid. rewrite forallb_forall in Hall. specialize (Hall id Hid).
      destruct (players s !! id) as [p|] eqn:Ep; [|discriminate].
      exists p. split; [reflexivity|]. cbn [players sim_after_search]. rewrite Hpl.
      apply memb_In in Hid. rewrite Hid, Ep. reflexivity.
    + intros id Hid. cbn [players sim_after_search]. rewrite Hpl.
      destruct (memb id (pt_player_ids party)) eqn:Em; [apply memb_In in Em; contradiction|reflexivity].
    + reflexivity.
  - right. unfold start_search. rewrite Hp0, Hparty.
    eexists. split; [reflexivity|]. split; [reflexivity|]. split; [reflexivity|].
    split; [reflexivity|]. cbn [player_ids]. split; [|split].
    + intros id [<- | []]. exists p0. split; [exact Hp0|]. cbn [players sim_after_search].
      apply lookup_insert_eq.
    + intros id Hid. cbn [players sim_after_search]. apply lookup_insert_ne.
      intros ->. apply Hid. left. reflexivity.
    + reflexivity.
Qed.

